(** * The JSON array container: storage management and mutation protocol

    A shallow embedding of [include/boost/json/impl/array.ipp]: the buffer
    descriptor [impl_type], the growth policy of [reserve_impl], the three
    rollback guards and the mutating member functions of [array], over a
    flat heap of element slots. *)

From stdpp Require Import base numbers option list gmap.

Local Open Scope Z_scope.
#[local] Set Warnings "-clear-no-such-hyp".

(** ** Platform and element type

    [array.hpp] (the class declaration) fixes [size_type] and [max_size()];
    the element type [value] is an external collaborator.  Both are taken
    as parameters. *)

Class Platform := {
  size_bits : Z;
  max_size : Z;
  size_bits_gt : 1 < size_bits;
  max_size_range : 0 ≤ max_size < 2 ^ size_bits
}.

Class Element := {
  value : Type;
  kind_null : value
}.

(** ** Exceptions and the state-and-exception monad *)

Inductive exn := length_error | bad_alloc | ctor_error.

Inductive outcome (A : Type) :=
| Ok (a : A)
| Throw (e : exn).
Arguments Ok {A} a.
Arguments Throw {A} e.

(** A computation over a state [S]: the state survives an exception, as a
    C++ object survives a [throw] that leaves one of its member functions. *)
Definition M (S A : Type) : Type := S → outcome A * S.

Definition ret {S A} (a : A) : M S A := λ s, (Ok a, s).
Definition throw {S A} (e : exn) : M S A := λ s, (Throw e, s).
Definition bind {S A B} (m : M S A) (k : A → M S B) : M S B :=
  λ s, match m s with
       | (Ok a, s') => k a s'
       | (Throw e, s') => (Throw e, s')
       end.
Definition get {S} : M S S := λ s, (Ok s, s).
Definition gets {S A} (f : S → A) : M S A := λ s, (Ok (f s), s).
Definition modify {S} (f : S → S) : M S unit := λ s, (Ok tt, f s).

Notation "'let*' x ':=' c1 'in' c2" := (bind c1 (λ x, c2))
  (at level 10, x name, c1 at level 100, c2 at level 200).
Notation "c1 ;> c2" := (bind c1 (λ _, c2))
  (at level 100, c2 at level 200, right associativity).

(** [repeatM k body] runs [body] [k] times, stopping at the first throw. *)
Fixpoint repeatM {S} (k : nat) (body : M S unit) : M S unit :=
  match k with
  | O => ret tt
  | S k' => body ;> repeatM k' body
  end.

(** [forM l body] is a range-[for] over the sequence [l]. *)
Fixpoint forM {S A} (l : list A) (body : A → M S unit) : M S unit :=
  match l with
  | [] => ret tt
  | x :: l' => body x ;> forM l' body
  end.

(** A scope that owns a guard object: [body] runs with the guard in its
    state; when the scope is left, normally or by an exception, the guard's
    destructor [dtor] runs on the guard as the body left it. *)
Definition scope {S G A} (g : G) (body : M (G * S) A) (dtor : G → S → S)
  : M S A :=
  λ s, match body (g, s) with
       | (r, (g', s')) => (r, dtor g' s')
       end.

(** A member of the enclosing object, run from inside a guarded scope. *)
Definition outer {S G A} (m : M S A) : M (G * S) A :=
  λ gs, match m gs.2 with (r, s') => (r, (gs.1, s')) end.

(** What holds of the state when a call has propagated a failure, and
    when it has returned. *)
Definition on_throw {S A} (r : outcome A * S) (P : exn → S → Prop) : Prop :=
  match r.1 with
  | Throw e => P e r.2
  | Ok _ => True
  end.

Definition on_return {S A} (r : outcome A * S) (P : A → S → Prop) : Prop :=
  match r.1 with
  | Ok x => P x r.2
  | Throw _ => True
  end.

Section Array.
Context `{Platform} `{Element}.

Definition modulus : Z := 2 ^ size_bits.

(** Arithmetic on [size_type] wraps around. *)
Definition wrap (z : Z) : Z := z mod modulus.

(** ** The heap

    Addresses count element slots; a slot that holds a live [value] is in
    the map, raw or destroyed storage is not.  Address [0] is [nullptr]. *)

(** Modelled from the spec: [boost::relocate(dest, src)] of [pilfer.hpp],
    "move-constructing into dest from src and destroying the source slot". *)
Definition boost_relocate (dest src : Z) (m : gmap Z value) : gmap Z value :=
  delete src (partial_alter (λ _, m !! src) dest m).

(** The loop [while(it != src) boost::relocate(--dest, *--it)], with [k]
    elements left to move; [dest] and [it] are one past the next pair. *)
Fixpoint relocate_backward (dest it : Z) (k : nat) (m : gmap Z value)
  : gmap Z value :=
  match k with
  | O => m
  | S k' => relocate_backward (dest - 1) (it - 1) k'
              (boost_relocate (dest - 1) (it - 1) m)
  end.

(** The loop [while(src != last) boost::relocate(dest++, *src++)]. *)
Fixpoint relocate_forward (dest src : Z) (k : nat) (m : gmap Z value)
  : gmap Z value :=
  match k with
  | O => m
  | S k' => relocate_forward (dest + 1) (src + 1) k'
              (boost_relocate dest src m)
  end.

(** [array::relocate], the element-wise branch. *)
Definition relocate (dest src n : Z) (m : gmap Z value) : gmap Z value :=
  if bool_decide (src ≤ dest) && bool_decide (dest < src + n)
  then relocate_backward (dest + n) (src + n) (Z.to_nat n) m
  else relocate_forward dest src (Z.to_nat n) m.

(** Reading, giving up and writing a range of slots at once. *)
Definition read_range (src : Z) (n : nat) (m : gmap Z value)
  : list (option value) :=
  (λ i : nat, m !! (src + Z.of_nat i)) <$> seq 0 n.

Fixpoint erase_range (p : Z) (n : nat) (m : gmap Z value) : gmap Z value :=
  match n with
  | O => m
  | S n' => erase_range (p + 1) n' (delete p m)
  end.

Fixpoint write_range (p : Z) (l : list (option value)) (m : gmap Z value)
  : gmap Z value :=
  match l with
  | [] => m
  | o :: l' => write_range (p + 1) l' (partial_alter (λ _, o) p m)
  end.

(** [array::relocate] under [BOOST_JSON_VALUE_IS_TRIVIAL]: one [memmove].
    The source slots that the destination does not cover stop being live. *)
Definition relocate_memmove (dest src n : Z) (m : gmap Z value)
  : gmap Z value :=
  write_range dest (read_range src (Z.to_nat n) m)
    (erase_range src (Z.to_nat n) m).

(** ** Memory resources

    Modelled from the spec: the memory-resource handle of [storage_ptr.hpp],
    "comparable by identity, queryable for whether it requires explicit
    destruction of objects it backs".  A handle may be null. *)

Record storage := Storage { res_id : nat; need_free : bool }.

#[export] Instance storage_eq_dec : EqDecision storage.
Proof. solve_decision. Defined.

Definition storage_ptr : Type := option storage.

(** [sp->need_free()]; the source never evaluates it on a null handle
    whose buffer is live. *)
Definition sp_need_free (sp : storage_ptr) : bool :=
  match sp with Some s => need_free s | None => false end.

(** [*sp == *other], identity of the resources pointed to. *)
Definition sp_equal (sp1 sp2 : storage_ptr) : bool :=
  match sp1, sp2 with
  | Some s1, Some s2 => bool_decide (s1 = s2)
  | _, _ => false
  end.

(** The world outside the containers: the heap, the first address never
    handed out, and the outcomes the environment has in store for the next
    allocations and element constructions ([false]: the next one fails; an
    exhausted plan lets everything succeed). *)
Record world := World {
  mem : gmap Z value;
  brk : Z;
  alloc_plan : list bool;
  ctor_plan : list bool
}.

Definition set_mem (f : gmap Z value → gmap Z value) (w : world) : world :=
  World (f (mem w)) (brk w) (alloc_plan w) (ctor_plan w).

(** Sizes are counted in element slots; half of the address space is the
    most a resource can ever hand out, an element taking two bytes or more. *)
Definition heap_limit : Z := 2 ^ (size_bits - 1).

(** Modelled from the spec: [allocate(bytes, align) -> pointer | failure]. *)
Definition allocate (n : Z) : M world Z := λ w,
  match alloc_plan w with
  | false :: pl => (Throw bad_alloc, World (mem w) (brk w) pl (ctor_plan w))
  | pl =>
      if bool_decide (brk w + n ≤ heap_limit)
      then (Ok (brk w), World (mem w) (brk w + n) (tail pl) (ctor_plan w))
      else (Throw bad_alloc, World (mem w) (brk w) (tail pl) (ctor_plan w))
  end.

(** Modelled from the spec: [deallocate(ptr, bytes, align)]; the block is
    gone with whatever was left in it. *)
Definition deallocate (p n : Z) (w : world) : world :=
  set_mem (erase_range p (Z.to_nat n)) w.

(** Placement construction [::new(p) value(...)] of an element whose
    prototype is the slot content [o]; it may fail, leaving [p] as it is. *)
Definition construct_slot (p : Z) (o : option value) : M world unit := λ w,
  match ctor_plan w with
  | false :: pl => (Throw ctor_error, World (mem w) (brk w) (alloc_plan w) pl)
  | pl => (Ok tt, World (partial_alter (λ _, o) p (mem w)) (brk w)
                        (alloc_plan w) (tail pl))
  end.

Definition construct_at (p : Z) (v : value) : M world unit :=
  construct_slot p (Some v).

(** [::new(p) value(v, sp)] where [v] is the element at [src]. *)
Definition construct_copy (p src : Z) : M world unit := λ w,
  construct_slot p (mem w !! src) w.

(** A [value const&] argument: an object of the caller's that no container
    holds, or the element in a slot of the heap, which may be a slot of the
    container the call is made on. *)
Inductive value_ref := ByValue (v : value) | AtSlot (p : Z).

(** What the reference denotes while the heap is [m]; a slot without a
    live element denotes none. *)
Definition read_ref (r : value_ref) (m : gmap Z value) : option value :=
  match r with
  | ByValue v => Some v
  | AtSlot p => m !! p
  end.

(** [::new(p) value(v, sp)] for a [value const& v], read when the element
    is constructed. *)
Definition construct_from (p : Z) (v : value_ref) : M world unit := λ w,
  construct_slot p (read_ref v (mem w)) w.

(** The loop [while(last != first) destroy *--last], [k] elements left. *)
Fixpoint destroy_loop (last : Z) (k : nat) (m : gmap Z value) : gmap Z value :=
  match k with
  | O => m
  | S k' => destroy_loop (last - 1) k' (delete (last - 1) m)
  end.

(** ** The buffer descriptor [array::impl_type] *)

Record impl_type := Impl { vec : Z; size : Z; capacity : Z }.

Definition impl_empty : impl_type := Impl 0 0 0.

Definition impl_set_size (n : Z) (i : impl_type) : impl_type :=
  Impl (vec i) n (capacity i).

(** [impl_type(impl_type&&)]: the new descriptor, and [other] with its
    three fields exchanged for zeros. *)
Definition impl_move (other : impl_type) : impl_type * impl_type :=
  (other, impl_empty).

(** [impl_type::swap(rhs)]: the descriptor and [rhs] once [vec], [size] and
    [capacity] are exchanged. *)
Definition impl_swap (i rhs : impl_type) : impl_type * impl_type := (rhs, i).

(** [impl_type::destroy(sp)] *)
Definition impl_destroy (sp : storage_ptr) (i : impl_type) (w : world)
  : impl_type * world :=
  (impl_empty,
   if negb (vec i =? 0) && sp_need_free sp
   then deallocate (vec i) (capacity i)
          (set_mem (destroy_loop (vec i + size i) (Z.to_nat (size i))) w)
   else w).

(** [impl_type::construct(capacity_, sp)].  The request is for
    [capacity_ * sizeof(value)] bytes, a product of [size_type] values: as
    long as [capacity_] is at most [max_size()] these are [capacity_]
    slots, which is what is asked for here.  Beyond [max_size()] the
    product wraps around and the code asks for a shorter block than the
    capacity it records, while the block obtained here has [capacity_]
    slots all the same: [in_max_size] below marks the requests on which
    the two agree. *)
Definition impl_construct (capacity_ : Z) (sp : storage_ptr)
  : M world impl_type :=
  let capacity_ := if capacity_ <? 16 then 16 else capacity_ in
  let* p := allocate capacity_ in
  ret (Impl p 0 capacity_).

(** Modelled from the spec: [impl_type::index_of(pos)] of [array.hpp], the
    logical position of an iterator. *)
Definition index_of (i : impl_type) (pos : Z) : Z := wrap (pos - vec i).

(** ** The container *)

Record array := Array { sp_ : storage_ptr; impl_ : impl_type }.

Definition set_impl (i : impl_type) (a : array) : array := Array (sp_ a) i.

(** The state a member function runs in: its object and the world. *)
Abbreviation st := (array * world)%type (only parsing).

Definition with_size (n : Z) (a : array) : array :=
  set_impl (impl_set_size n (impl_ a)) a.

Definition this : M st array := gets fst.
Definition put_impl (i : impl_type) : M st unit :=
  modify (λ s : st, (set_impl i s.1, s.2)).
Definition put_size (n : Z) : M st unit :=
  modify (λ s : st, (with_size n s.1, s.2)).
Definition on_world {A} (m : M world A) : M st A :=
  λ s, match m s.2 with (r, w') => (r, (s.1, w')) end.
Definition on_mem (f : gmap Z value → gmap Z value) : M st unit :=
  modify (λ s : st, (s.1, set_mem f s.2)).

(** The second argument of a member function taking [array const&]: the
    object itself, or another one. *)
Inductive other_ref := Self | Other (b : array).

Definition deref (o : other_ref) : M st array :=
  match o with Self => this | Other b => ret b end.

(** [array::destroy(first, last)] *)
Definition destroy (first last : Z) : M st unit :=
  let* a := this in
  if sp_need_free (sp_ a)
  then on_mem (destroy_loop last (Z.to_nat (last - first)))
  else ret tt.

(** The capacity [reserve_impl] asks [construct] for. *)
Definition growth (i : impl_type) (capacity_ : Z) : Z :=
  if negb (vec i =? 0) then
    let hint := wrap (capacity i * 2) in
    if hint <? capacity i then max_size
    else if capacity_ <? hint then hint
    else capacity_
  else capacity_.

(** [array::reserve_impl(capacity)] *)
Definition reserve_impl (capacity_ : Z) : M st unit :=
  let* a := this in
  let* impl := on_world (impl_construct (growth (impl_ a) capacity_) (sp_ a)) in
  on_mem (relocate (vec impl) (vec (impl_ a)) (size (impl_ a))) ;>
  let sw := impl_swap (impl_set_size 0 (impl_ a))
              (impl_set_size (size (impl_ a)) impl) in
  put_impl sw.1 ;>
  modify (λ s : st, (s.1, (impl_destroy (sp_ a) sw.2 s.2).2)).

(** Modelled from the spec: [array::reserve(n)] of [array.hpp], "ensures
    capacity ≥ n; may reallocate via growth policy; no-op if already
    sufficient". *)
Definition reserve (new_capacity : Z) : M st unit :=
  let* a := this in
  if new_capacity <=? capacity (impl_ a) then ret tt
  else reserve_impl new_capacity.

(** The reference [v] is to the value [x], held by the caller or live in a
    slot that is not one of the container's buffer. *)
Definition refers_outside (a : array) (w : world) (v : value_ref) (x : value)
    : Prop :=
  match v with
  | ByValue y => y = x
  | AtSlot p =>
      p < brk w ∧
      ¬ (vec (impl_ a) ≤ p < vec (impl_ a) + capacity (impl_ a)) ∧
      mem w !! p = Some x
  end.

(** [reserve(n)] has room for [n] elements, or the block it asks
    [construct] for holds at most [max_size()] elements, [max_size()] being
    the largest number of elements whose size in bytes is a [size_type]
    value. *)
Definition in_max_size (a : array) (n : Z) : Prop :=
  n ≤ capacity (impl_ a) ∨ Z.max 16 (growth (impl_ a) n) ≤ max_size.

(** ** The rollback guards *)

(** [undo_create]: the guard is its [commit_] flag. *)
Definition undo_create_dtor (commit_ : bool) (s : st) : st :=
  if commit_ then s
  else
    let d := impl_destroy (sp_ s.1) (impl_ s.1) s.2 in
    (set_impl d.1 s.1, d.2).

Definition commit_create : M (bool * st) unit :=
  modify (λ gs : bool * st, (true, gs.2)).

(** [undo_assign]: the detached descriptor and the [commit_] flag. *)
Record undo_assign := UndoAssign { ua_impl : impl_type; ua_commit : bool }.

Definition undo_assign_ctor : M st undo_assign :=
  let* a := this in
  let mv := impl_move (impl_ a) in
  put_impl mv.2 ;>
  ret (UndoAssign mv.1 false).

Definition undo_assign_dtor (u : undo_assign) (s : st) : st :=
  let r := if ua_commit u then (ua_impl u, s.1)
           else
             let sw := impl_swap (ua_impl u) (impl_ s.1) in
             (sw.1, set_impl sw.2 s.1) in
  (r.2, (impl_destroy (sp_ s.1) r.1 s.2).2).

Definition commit_assign : M (undo_assign * st) unit :=
  modify (λ gs : undo_assign * st, (UndoAssign (ua_impl gs.1) true, gs.2)).

(** [undo_insert] *)
Record undo_insert := UndoInsert {
  ui_it : Z;
  ui_pos : Z;
  ui_n : Z;
  ui_commit : bool
}.

Definition undo_insert_ctor (pos_ : Z) (n : Z) : M st undo_insert :=
  let* a := this in
  let n_ := wrap n in
  let pos := index_of (impl_ a) pos_ in
  if max_size <? n then throw length_error
  else
    reserve (wrap (size (impl_ a) + n_)) ;>
    let* a := this in
    let it := vec (impl_ a) + pos in
    on_mem (relocate (it + n_) it (wrap (size (impl_ a) - pos))) ;>
    put_size (wrap (size (impl_ a) + n_)) ;>
    ret (UndoInsert it pos n_ false).

Definition undo_insert_dtor (u : undo_insert) (s : st) : st :=
  if ui_commit u then s
  else
    let first := vec (impl_ s.1) + ui_pos u in
    let s1 := (destroy first (ui_it u) s).2 in
    let sz := wrap (size (impl_ s1.1) - ui_n u) in
    (set_impl (impl_set_size sz (impl_ s1.1)) s1.1,
     set_mem (relocate first (first + ui_n u) (wrap (sz - ui_pos u))) s1.2).

(** Modelled from the spec: [undo_insert::emplace] of [array.hpp], which
    "placement-constructs each of the n new elements into the gap one at a
    time". *)
Definition emplace (v : value_ref) : M (undo_insert * st) unit :=
  let* gs := get in
  outer (on_world (construct_from (ui_it gs.1) v)) ;>
  modify (λ gs : undo_insert * st,
    (UndoInsert (ui_it gs.1 + 1) (ui_pos gs.1) (ui_n gs.1) (ui_commit gs.1),
     gs.2)).

Definition commit_insert : M (undo_insert * st) unit :=
  modify (λ gs : undo_insert * st,
    (UndoInsert (ui_it gs.1) (ui_pos gs.1) (ui_n gs.1) true, gs.2)).

(** ** Special members *)

(** A constructor call: the body runs on the object under construction;
    an exception leaves no object behind. *)
Definition new_object (a0 : array) (body : M st unit) : M world array :=
  λ w, match body (a0, w) with
       | (Ok _, s) => (Ok s.1, s.2)
       | (Throw e, s) => (Throw e, s.2)
       end.

(** [array::~array()] *)
Definition array_dtor (a : array) (w : world) : world :=
  (impl_destroy (sp_ a) (impl_ a) w).2.

(** [array::copy(array const&)] *)
Definition copy (other : other_ref) : M st unit :=
  let* o := deref other in
  reserve (size (impl_ o)) ;>
  let* o := deref other in
  forM (seqZ (vec (impl_ o)) (size (impl_ o))) (λ src,
    let* a := this in
    on_world (construct_copy (vec (impl_ a) + size (impl_ a)) src) ;>
    put_size (wrap (size (impl_ a) + 1))).

(** [array::copy(std::initializer_list<value>)] *)
Definition copy_init (init : list value) : M st unit :=
  if max_size <? Z.of_nat (length init) then throw length_error
  else
    reserve (wrap (Z.of_nat (length init))) ;>
    forM init (λ v,
      let* a := this in
      on_world (construct_at (vec (impl_ a) + size (impl_ a)) v) ;>
      put_size (wrap (size (impl_ a) + 1))).

(** The loop [while(impl_.size < count)] of the two counted constructors. *)
Definition fill_loop (count : Z) (v : value) : M st unit :=
  let* a := this in
  repeatM (Z.to_nat (count - size (impl_ a)))
    (let* a := this in
     on_world (construct_at (vec (impl_ a) + size (impl_ a)) v) ;>
     put_size (wrap (size (impl_ a) + 1))).

(** [array(storage_ptr)] *)
Definition array_sp (sp : storage_ptr) : array := Array sp impl_empty.

(** [array(size_type, value const&, storage_ptr)] *)
Definition array_count_value (count : Z) (v : value) (sp : storage_ptr)
  : M world array :=
  new_object (array_sp sp)
    (scope false
       (outer (reserve count) ;> outer (fill_loop count v) ;> commit_create)
       undo_create_dtor).

(** [array(size_type, storage_ptr)] *)
Definition array_count (count : Z) (sp : storage_ptr) : M world array :=
  array_count_value count kind_null sp.

(** [array(array const&, storage_ptr)] *)
Definition array_copy_sp (other : array) (sp : storage_ptr) : M world array :=
  new_object (array_sp sp)
    (scope false (outer (copy (Other other)) ;> commit_create)
       undo_create_dtor).

(** [array(array const&)] *)
Definition array_copy (other : array) : M world array :=
  array_copy_sp other (sp_ other).

(** [array(pilfered<array>)]: the new object and what is left of [other]. *)
Definition array_pilfer (other : array) : array * array :=
  let mv := impl_move (impl_ other) in
  (Array (sp_ other) mv.1, Array None mv.2).

(** [array(array&&)]; the state holds [other]. *)
Definition array_move : M st array :=
  let* other := this in
  let mv := impl_move (impl_ other) in
  put_impl mv.2 ;>
  ret (Array (sp_ other) mv.1).

(** [array(array&&, storage_ptr)]; the state holds [other]. *)
Definition array_move_sp (sp : storage_ptr) : M st array :=
  let* other := this in
  if sp_equal sp (sp_ other) then
    let sw := impl_swap impl_empty (impl_ other) in
    put_impl sw.2 ;>
    ret (Array sp sw.1)
  else on_world (array_copy_sp other sp).

(** [array(std::initializer_list<value>, storage_ptr)] *)
Definition array_init (init : list value) (sp : storage_ptr) : M world array :=
  new_object (array_sp sp)
    (scope false (outer (copy_init init) ;> commit_create) undo_create_dtor).

(** [operator=(array const&)] *)
Definition assign_copy (other : other_ref) : M st unit :=
  let* u := undo_assign_ctor in
  scope u (outer (copy other) ;> commit_assign) undo_assign_dtor.

(** [operator=(std::initializer_list<value>)] *)
Definition assign_init (init : list value) : M st unit :=
  let* u := undo_assign_ctor in
  scope u (outer (copy_init init) ;> commit_assign) undo_assign_dtor.

(** [operator=(array&&)] on two distinct objects: the assigned one,
    [other], and the world. *)
Definition assign_move (self other : array) (w : world)
  : outcome unit * (array * array * world) :=
  if sp_equal (sp_ self) (sp_ other) then
    let d := impl_destroy (sp_ self) (impl_ self) w in
    let sw := impl_swap d.1 (impl_ other) in
    (Ok tt, (set_impl sw.1 self, set_impl sw.2 other, d.2))
  else
    match assign_copy (Other other) (self, w) with
    | (r, s) => (r, (s.1, other, s.2))
    end.

(** ** Capacity *)

Definition try_catch {S A} (m : M S A) (h : exn → M S A) : M S A :=
  λ s, match m s with
       | (Throw e, s') => h e s'
       | r => r
       end.

(** [array::shrink_to_fit()] *)
Definition shrink_to_fit : M st unit :=
  let* a := this in
  if capacity (impl_ a) <=? size (impl_ a) then ret tt
  else if size (impl_ a) =? 0 then
    modify (λ s : st,
      let d := impl_destroy (sp_ s.1) (impl_ s.1) s.2 in
      (set_impl d.1 s.1, d.2))
  else if (size (impl_ a) <? 3) && (capacity (impl_ a) <=? 3) then ret tt
  else
    let* r := try_catch
                (let* i := on_world (impl_construct (size (impl_ a)) (sp_ a)) in
                 ret (Some i))
                (λ _, ret None) in
    match r with
    | None => ret tt
    | Some impl =>
        on_mem (relocate (vec impl) (vec (impl_ a)) (size (impl_ a))) ;>
        let sw := impl_swap (impl_set_size 0 (impl_ a))
                    (impl_set_size (size (impl_ a)) impl) in
        put_impl sw.1 ;>
        modify (λ s : st, (s.1, (impl_destroy (sp_ a) sw.2 s.2).2))
    end.

(** ** Modifiers *)

(** [array::clear()] *)
Definition clear : M st unit :=
  let* a := this in
  if vec (impl_ a) =? 0 then ret tt
  else
    destroy (vec (impl_ a)) (vec (impl_ a) + size (impl_ a)) ;>
    put_size 0.

(** [array::insert(const_iterator, size_type, value const&)] *)
Definition insert (pos : Z) (count : Z) (v : value_ref) : M st Z :=
  let* u := undo_insert_ctor pos count in
  scope u
    (repeatM (Z.to_nat count) (emplace v) ;>
     commit_insert ;>
     let* gs := get in
     ret (vec (impl_ gs.2.1) + ui_pos gs.1))
    undo_insert_dtor.

(** [array::insert(const_iterator, std::initializer_list<value>)]; the
    elements of the list are objects of their own. *)
Definition insert_init (pos : Z) (init : list value) : M st Z :=
  let* u := undo_insert_ctor pos (wrap (Z.of_nat (length init))) in
  scope u
    (forM init (λ v, emplace (ByValue v)) ;>
     commit_insert ;>
     let* gs := get in
     ret (vec (impl_ gs.2.1) + ui_pos gs.1))
    undo_insert_dtor.

(** The shape the two overloads of [insert] share: a guard for [n]
    elements, then one [emplace] per element of [l]. *)
Definition insert_seq (pos n : Z) (l : list value_ref) : M st Z :=
  let* u := undo_insert_ctor pos n in
  scope u
    (forM l emplace ;>
     commit_insert ;>
     let* gs := get in
     ret (vec (impl_ gs.2.1) + ui_pos gs.1))
    undo_insert_dtor.

(** [array::erase(const_iterator)] *)
Definition erase (pos : Z) : M st Z :=
  let* a := this in
  let p := vec (impl_ a) + (pos - vec (impl_ a)) in
  destroy p (p + 1) ;>
  on_mem (relocate p (p + 1) 1) ;>
  put_size (wrap (size (impl_ a) - 1)) ;>
  ret p.

(** [array::erase(const_iterator, const_iterator)] *)
Definition erase_between (first last : Z) : M st Z :=
  let* a := this in
  let n := wrap (last - first) in
  let p := vec (impl_ a) + index_of (impl_ a) first in
  destroy p (p + n) ;>
  on_mem (relocate p (p + n)
            (wrap (size (impl_ a) - index_of (impl_ a) last))) ;>
  put_size (wrap (size (impl_ a) - n)) ;>
  ret p.

(** [array::pop_back()]; [back()] is the element at [size - 1]. *)
Definition pop_back : M st unit :=
  let* a := this in
  let p := vec (impl_ a) + (size (impl_ a) - 1) in
  destroy p (p + 1) ;>
  put_size (wrap (size (impl_ a) - 1)).

(** [array::resize(size_type)] *)
Definition resize (count : Z) : M st unit :=
  let* a := this in
  if count <=? size (impl_ a) then
    destroy (vec (impl_ a) + count) (vec (impl_ a) + size (impl_ a)) ;>
    put_size count
  else
    reserve count ;>
    let* a := this in
    let it := vec (impl_ a) + size (impl_ a) in
    let end_ := vec (impl_ a) + count in
    forM (seqZ it (end_ - it)) (λ p, on_world (construct_at p kind_null)) ;>
    put_size count.

(** The local guard [undo] of [resize(size_type, value const&)]. *)
Record resize_undo := ResizeUndo { ru_it : Z; ru_end : Z }.

Definition resize_undo_dtor (u : resize_undo) (s : st) : st :=
  if negb (ru_it u =? 0) then (destroy (ru_end u) (ru_it u) s).2 else s.

Definition resize_step (v : value_ref) : M (resize_undo * st) unit :=
  let* gs := get in
  outer (on_world (construct_from (ru_it gs.1) v)) ;>
  modify (λ gs : resize_undo * st,
    (ResizeUndo (ru_it gs.1 + 1) (ru_end gs.1), gs.2)).

(** [array::resize(size_type, value const&)] *)
Definition resize_value (count : Z) (v : value_ref) : M st unit :=
  let* a := this in
  if count <=? size (impl_ a) then
    destroy (vec (impl_ a) + count) (vec (impl_ a) + size (impl_ a)) ;>
    put_size count
  else
    reserve count ;>
    let* a := this in
    let end_ := vec (impl_ a) + count in
    let start := vec (impl_ a) + size (impl_ a) in
    scope (ResizeUndo start start)
      (resize_step v ;>
       repeatM (Z.to_nat (end_ - (start + 1))) (resize_step v) ;>
       outer (put_size count) ;>
       modify (λ gs : resize_undo * st, (ResizeUndo 0 (ru_end gs.1), gs.2)))
      resize_undo_dtor.

(** [array::swap(array&)] on two distinct objects. *)
Definition swap (self other : array) (w : world)
  : outcome unit * (array * array * world) :=
  if sp_equal (sp_ self) (sp_ other) then
    let sw := impl_swap (impl_ self) (impl_ other) in
    (Ok tt, (set_impl sw.1 self, set_impl sw.2 other, w))
  else
    match array_move_sp (sp_ other) (self, w) with
    | (Throw e, s1) => (Throw e, (s1.1, other, s1.2))
    | (Ok temp1, s1) =>
        match array_move_sp (sp_ s1.1) (other, s1.2) with
        | (Throw e, s2) => (Throw e, (s1.1, s2.1, array_dtor temp1 s2.2))
        | (Ok temp2, s2) =>
            let w3 := array_dtor s1.1 s2.2 in
            let t2 := array_pilfer temp2 in
            let w4 := array_dtor s2.1 w3 in
            let t1 := array_pilfer temp1 in
            (Ok tt, (t2.1, t1.1, array_dtor t1.2 (array_dtor t2.2 w4)))
        end
    end.

(** ** Runs of placement constructions

    The loops of the source construct elements into consecutive slots until
    the environment makes one fail.  [successes pl k] is how many of [k]
    constructions succeed under the plan [pl]; [write_run p l w] performs
    them from slot [p] on, each element given as a function of the heap it
    is copied from, and returns how many were constructed and the world
    they leave. *)

Fixpoint successes (pl : list bool) (k : nat) : nat :=
  match k, pl with
  | O, _ => O
  | S _, false :: _ => O
  | S k', _ :: pl' => S (successes pl' k')
  | S k', [] => S (successes [] k')
  end.

Fixpoint write_run (p : Z) (l : list (gmap Z value → option value))
    (w : world) : nat * world :=
  match l with
  | [] => (O, w)
  | f :: l' =>
      match ctor_plan w with
      | false :: pl => (O, World (mem w) (brk w) (alloc_plan w) pl)
      | pl =>
          let r := write_run (p + 1) l'
                     (World (partial_alter (λ _, f (mem w)) p (mem w)) (brk w)
                        (alloc_plan w) (tail pl)) in
          (S r.1, r.2)
      end
  end.

(** The outcome of a loop that constructed [j] of [k] elements. *)
Definition loop_outcome (j k : nat) : outcome unit :=
  if decide (j = k) then Ok tt else Throw ctor_error.

(** Whether the next allocation of [n] slots succeeds. *)
Definition will_allocate (n : Z) (w : world) : bool :=
  match alloc_plan w with
  | false :: _ => false
  | _ => bool_decide (brk w + n ≤ heap_limit)
  end.

(** [array::release_storage()]: the handle is returned and the container
    keeps a null one. *)
Definition release_storage : M st storage_ptr :=
  let* a := this in
  modify (λ s : st,
    let d := impl_destroy (sp_ s.1) (impl_ s.1) s.2 in
    (Array None d.1, d.2)) ;>
  ret (sp_ a).

(** ** Observations *)

(** [size()], [capacity()] and the element sequence [begin() .. end()):
    what each slot below [size()] holds, [None] for a slot with no live
    element. *)
Definition array_size (a : array) : Z := size (impl_ a).
Definition array_capacity (a : array) : Z := capacity (impl_ a).
Definition contents (a : array) (w : world) : list (option value) :=
  (λ i, mem w !! (vec (impl_ a) + i)) <$> seqZ 0 (size (impl_ a)).

(** The descriptor is empty, or describes a block handed out by a resource
    and is filled up to [size]. *)
Definition impl_ok (i : impl_type) (w : world) : Prop :=
  (vec i = 0 ∧ size i = 0 ∧ capacity i = 0) ∨
  (0 < vec i ∧ 16 ≤ capacity i ∧ 0 ≤ size i ≤ capacity i ∧
   vec i + capacity i ≤ brk w).

Definition world_ok (w : world) : Prop := 0 < brk w ≤ heap_limit.

Definition array_ok (a : array) (w : world) : Prop :=
  impl_ok (impl_ a) w ∧ world_ok w.

#[export] Instance impl_ok_dec i w : Decision (impl_ok i w).
Proof. unfold impl_ok. apply _. Defined.
#[export] Instance world_ok_dec w : Decision (world_ok w).
Proof. unfold world_ok. apply _. Defined.
#[export] Instance array_ok_dec a w : Decision (array_ok a w).
Proof. unfold array_ok. apply _. Defined.

(** ** Sequences of public calls *)

Inductive ctor_call :=
| CtorSp (sp : storage_ptr)
| CtorCountValue (count : Z) (v : value) (sp : storage_ptr)
| CtorCount (count : Z) (sp : storage_ptr)
| CtorCopy (other : array)
| CtorCopySp (other : array) (sp : storage_ptr)
| CtorPilfer (other : array)
| CtorMove (other : array)
| CtorMoveSp (other : array) (sp : storage_ptr)
| CtorInit (init : list value) (sp : storage_ptr).

Definition run_ctor (c : ctor_call) : M world array :=
  match c with
  | CtorSp sp => ret (array_sp sp)
  | CtorCountValue count v sp => array_count_value count v sp
  | CtorCount count sp => array_count count sp
  | CtorCopy other => array_copy other
  | CtorCopySp other sp => array_copy_sp other sp
  | CtorPilfer other => ret (array_pilfer other).1
  | CtorMove other => λ w, match array_move (other, w) with
                           | (r, s) => (r, s.2)
                           end
  | CtorMoveSp other sp => λ w, match array_move_sp sp (other, w) with
                                | (r, s) => (r, s.2)
                                end
  | CtorInit init sp => array_init init sp
  end.

(** The arguments are values of their C++ types and the other containers
    involved are containers. *)
Definition valid_ctor (c : ctor_call) (w : world) : Prop :=
  match c with
  | CtorSp _ | CtorInit _ _ => True
  | CtorCountValue count _ _ | CtorCount count _ => 0 ≤ count < modulus
  | CtorCopy other | CtorCopySp other _ | CtorPilfer other
  | CtorMove other | CtorMoveSp other _ => array_ok other w
  end.

(** A call of a member function on the container.  The [value const&]
    arguments of such a call are objects of the caller's. *)
Inductive op :=
| OpReserve (n : Z)
| OpShrinkToFit
| OpClear
| OpInsert (i count : Z) (v : value)
| OpInsertInit (i : Z) (init : list value)
| OpErase (i : Z)
| OpEraseBetween (i j : Z)
| OpPopBack
| OpResize (count : Z)
| OpResizeValue (count : Z) (v : value)
| OpSwap (other : array)
| OpAssignCopy (other : other_ref)
| OpAssignMove (other : array)
| OpAssignInit (init : list value).

Definition begin_ (a : array) : Z := vec (impl_ a).

Definition run_op (o : op) : M st unit :=
  match o with
  | OpReserve n => reserve n
  | OpShrinkToFit => shrink_to_fit
  | OpClear => clear
  | OpInsert i count v =>
      let* a := this in insert (begin_ a + i) count (ByValue v) ;> ret tt
  | OpInsertInit i init =>
      let* a := this in insert_init (begin_ a + i) init ;> ret tt
  | OpErase i => let* a := this in erase (begin_ a + i) ;> ret tt
  | OpEraseBetween i j =>
      let* a := this in erase_between (begin_ a + i) (begin_ a + j) ;> ret tt
  | OpPopBack => pop_back
  | OpResize count => resize count
  | OpResizeValue count v => resize_value count (ByValue v)
  | OpSwap other => λ s, match swap s.1 other s.2 with
                         | (r, t) => (r, (t.1.1, t.2))
                         end
  | OpAssignCopy other => assign_copy other
  | OpAssignMove other => λ s, match assign_move s.1 other s.2 with
                               | (r, t) => (r, (t.1.1, t.2))
                               end
  | OpAssignInit init => assign_init init
  end.

(** Iterators point into the container, counts are [size_type] values, the
    other container of a binary call is a container. *)
Definition valid_op (s : st) (o : op) : Prop :=
  match o with
  | OpReserve n | OpResize n | OpResizeValue n _ => 0 ≤ n < modulus
  | OpShrinkToFit | OpClear | OpAssignInit _ | OpAssignCopy Self => True
  | OpInsert i count _ => 0 ≤ i ≤ array_size s.1 ∧ 0 ≤ count < modulus
  | OpInsertInit i _ => 0 ≤ i ≤ array_size s.1
  | OpErase i => 0 ≤ i < array_size s.1
  | OpEraseBetween i j => 0 ≤ i ∧ i ≤ j ∧ j ≤ array_size s.1
  | OpPopBack => 0 < array_size s.1
  | OpSwap other | OpAssignCopy (Other other) | OpAssignMove other =>
      array_ok other s.2
  end.

#[export] Instance valid_op_dec s o : Decision (valid_op s o).
Proof. destruct o as [| | | | | | | | | | |[]| |]; simpl; apply _. Defined.
#[export] Instance valid_ctor_dec c w : Decision (valid_ctor c w).
Proof. destruct c; simpl; apply _. Defined.

(** A sequence of calls on one container; [None] when a call is not
    valid.  A call that throws leaves the container in use. *)
Fixpoint run_ops (ops : list op) (s : st) : option st :=
  match ops with
  | [] => Some s
  | o :: ops' =>
      if bool_decide (valid_op s o) then run_ops ops' (run_op o s).2
      else None
  end.

(** A container's life: a constructor call that returns, then calls. *)
Definition run_life (c : ctor_call) (ops : list op) (w : world) : option st :=
  if bool_decide (valid_ctor c w) then
    match run_ctor c w with
    | (Ok a, w') => run_ops ops (a, w')
    | (Throw _, _) => None
    end
  else None.

(** The modifiers that work in place or grow the buffer: everything but
    [shrink_to_fit], [swap] and assignment. *)
Definition keeps_buffer (o : op) : bool :=
  match o with
  | OpShrinkToFit | OpSwap _ | OpAssignCopy _ | OpAssignMove _
  | OpAssignInit _ => false
  | _ => true
  end.

(** [a'] is on the resource of [a], with at least its capacity. *)
Definition kept (a a' : array) : Prop :=
  sp_ a' = sp_ a ∧ capacity (impl_ a) ≤ capacity (impl_ a').

(** ** Outcomes

    What the heap and a container look like after the steps that the
    properties below are stated about. *)

(** What a slot holds once [n] elements have moved from [src] to [dest]:
    the moved element inside the destination, nothing in the part of the
    source the destination leaves uncovered, and what it held elsewhere. *)
Definition relocated (dest src n : Z) (m : gmap Z value) (a : Z)
  : option value :=
  if decide (dest ≤ a < dest + n) then m !! (a - dest + src)
  else if decide (src ≤ a < src + n) then None
  else m !! a.

(** The outcome of a completed [reserve]: the descriptor may have moved to
    a fresh block; the elements came along and nothing else below the old
    break was touched. *)
Definition reserved (n : Z) (a : array) (w : world) (a' : array) (w' : world)
  : Prop :=
  sp_ a' = sp_ a ∧ size (impl_ a') = size (impl_ a) ∧
  capacity (impl_ a) ≤ capacity (impl_ a') ∧ n ≤ capacity (impl_ a') ∧
  array_ok a' w' ∧ ctor_plan w' = ctor_plan w ∧ brk w ≤ brk w' ∧
  (∀ i, 0 ≤ i < size (impl_ a) →
     mem w' !! (vec (impl_ a') + i) = mem w !! (vec (impl_ a) + i)) ∧
  (∀ p, p < brk w →
     ¬ (vec (impl_ a) ≤ p < vec (impl_ a) + capacity (impl_ a)) →
     mem w' !! p = mem w !! p) ∧
  ((a' = a ∧ w' = w) ∨
   (vec (impl_ a') = brk w ∧
    capacity (impl_ a') = Z.max 16 (growth (impl_ a) n))).

Definition alloc_failed (w w' : world) : Prop :=
  mem w' = mem w ∧ brk w' = brk w ∧ ctor_plan w' = ctor_plan w.

(** What a failed call leaves behind: the same resource, size and element
    sequence, in a buffer that is at least as large. *)
Definition rolled_back (a : array) (w : world) (a' : array) (w' : world)
  : Prop :=
  sp_ a' = sp_ a ∧ array_size a' = array_size a ∧
  array_capacity a ≤ array_capacity a' ∧ array_ok a' w' ∧
  contents a' w' = contents a w.

(** A copy-constructed container: the elements of [o] in a fresh block,
    everything below the old break untouched. *)
Definition copied (o : array) (sp : storage_ptr) (w : world)
    (a' : array) (w' : world) : Prop :=
  sp_ a' = sp ∧ size (impl_ a') = size (impl_ o) ∧ array_ok a' w' ∧
  brk w ≤ brk w' ∧ (vec (impl_ a') = 0 ∨ brk w ≤ vec (impl_ a')) ∧
  (∀ i, 0 ≤ i < size (impl_ o) →
     mem w' !! (vec (impl_ a') + i) = mem w !! (vec (impl_ o) + i)) ∧
  (∀ p, p < brk w → mem w' !! p = mem w !! p).

Definition construction_failed (w w' : world) : Prop :=
  world_ok w' ∧ brk w ≤ brk w' ∧ (∀ p, p < brk w → mem w' !! p = mem w !! p).

End Array.

(** ** A sample platform, element type and containers

    A 64-bit [size_type], elements that are null or a number, one resource
    that wants its objects destroyed and one that does not. *)

#[export] Instance lp64 : Platform := {|
  size_bits := 64;
  max_size := 2 ^ 60 - 1;
  size_bits_gt := eq_refl;
  max_size_range := conj (proj1 (Z.leb_le 0 (2 ^ 60 - 1)) eq_refl) eq_refl
|}.

Inductive json := jnull | jnum (z : Z).

#[export] Instance json_element : Element := {|
  value := json;
  kind_null := jnull
|}.

Definition heap_resource : storage_ptr := Some (Storage 1 true).
Definition other_heap_resource : storage_ptr := Some (Storage 2 true).
Definition arena_resource : storage_ptr := Some (Storage 3 false).

(** Nothing allocated yet, and an environment in which nothing fails. *)
Definition world0 : world := World ∅ 1 [] [].

(** The world with the next constructions going as [pl] says. *)
Definition with_ctor_plan (pl : list bool) (w : world) : world :=
  World (mem w) (brk w) (alloc_plan w) pl.

(** The world with the next allocations going as [pl] says. *)
Definition with_alloc_plan (pl : list bool) (w : world) : world :=
  World (mem w) (brk w) pl (ctor_plan w).

(** The container built by [array(init, sp)] from numbers. *)
Definition numbers (l : list Z) (sp : storage_ptr) (w : world)
  : array * world :=
  match array_init (List.map jnum l : list value) sp w with
  | (Ok a, w') => (a, w')
  | (Throw _, w') => (array_sp sp, w')
  end.

(** Sixteen elements in a buffer of sixteen slots. *)
Definition full16 : array * world :=
  numbers [1; 2; 3; 4; 5; 6; 7; 8; 9; 10; 11; 12; 13; 14; 15; 16]
    heap_resource world0.

(** Two elements in a buffer of 64 slots. *)
Definition two_in_64 : array * world :=
  (reserve 64 (numbers [1; 2] heap_resource world0)).2.

(** Three other containers, and the world that holds them, in which the
    third allocation and the sixth construction to come fail. *)
Definition guest1 : array * world := numbers [7; 8] arena_resource world0.
Definition guest2 : array * world := numbers [4; 5; 6] heap_resource guest1.2.
Definition guest3 : array * world := numbers [7] heap_resource guest2.2.

Definition sample_world : world :=
  with_alloc_plan [true; true; false]
    (with_ctor_plan [true; true; true; true; true; false] guest3.2).

(** A life of a container with every kind of call; the [resize(40)] throws
    and the allocation of the [shrink_to_fit()] fails. *)
Definition sample_calls : list op :=
  [ OpInsert 1 2 (jnum 9); OpErase 0; OpEraseBetween 1 3;
    OpResize 40; OpShrinkToFit; OpReserve 100; OpPopBack;
    OpResizeValue 3 (jnum 0); OpSwap guest1.1;
    OpAssignCopy Self; OpAssignInit [jnum 1; jnum 2];
    OpAssignCopy (Other guest2.1); OpAssignMove guest3.1;
    OpInsertInit 1 [jnum 3; jnum 4]; OpClear ].

Definition shown (l : list Z) : list (option value) :=
  List.map (λ z, Some (jnum z)) l.

(** * Properties *)

Section ArrayProofs.
Context `{Platform} `{Element}.

Abbreviation st := (array * world)%type (only parsing).

(** ** The size type *)

Lemma modulus_pos : 0 < modulus.
Proof. unfold modulus. pose proof size_bits_gt. apply Z.pow_pos_nonneg; lia. Qed.

Lemma heap_limit_double : 2 * heap_limit = modulus.
Proof.
  unfold heap_limit, modulus. pose proof size_bits_gt.
  rewrite <- Z.pow_succ_r by lia. f_equal. lia.
Qed.

Lemma max_size_lt : 0 ≤ max_size < modulus.
Proof. exact max_size_range. Qed.

Lemma wrap_small z : 0 ≤ z < modulus → wrap z = z.
Proof. intros. unfold wrap. by apply Z.mod_small. Qed.

Lemma wrap_range z : 0 ≤ wrap z < modulus.
Proof. unfold wrap. apply Z.mod_pos_bound, modulus_pos. Qed.

(** ** Slots after a relocation *)

Lemma boost_relocate_lookup d s (m : gmap Z value) a :
  boost_relocate d s m !! a =
    if decide (a = s) then None
    else if decide (a = d) then m !! s else m !! a.
Proof.
  unfold boost_relocate.
  destruct (decide (a = s)) as [->|Hs].
  - by rewrite lookup_delete_eq.
  - rewrite lookup_delete_ne by done.
    destruct (decide (a = d)) as [->|Hd].
    + by rewrite lookup_partial_alter_eq.
    + by rewrite lookup_partial_alter_ne.
Qed.

Lemma relocate_forward_lookup k : ∀ dest src (m : gmap Z value) a,
  ¬ (src ≤ dest < src + Z.of_nat k) →
  relocate_forward dest src k m !! a = relocated dest src (Z.of_nat k) m a.
Proof.
  induction k as [|k IH]; intros dest src m a Hd; simpl relocate_forward.
  - unfold relocated. repeat case_decide; try lia; done.
  - rewrite IH by lia. unfold relocated.
    rewrite !boost_relocate_lookup.
    repeat case_decide; try lia; try done; f_equal; lia.
Qed.

Lemma relocate_backward_lookup k : ∀ dest src (m : gmap Z value) a,
  src < dest →
  relocate_backward (dest + Z.of_nat k) (src + Z.of_nat k) k m !! a =
    relocated dest src (Z.of_nat k) m a.
Proof.
  induction k as [|k IH]; intros dest src m a Hd; simpl relocate_backward.
  - unfold relocated. repeat case_decide; try lia; done.
  - replace (dest + Z.of_nat (S k) - 1) with (dest + Z.of_nat k) by lia.
    replace (src + Z.of_nat (S k) - 1) with (src + Z.of_nat k) by lia.
    rewrite IH by lia. unfold relocated.
    rewrite !boost_relocate_lookup.
    repeat case_decide; try lia; try done; f_equal; lia.
Qed.

(** [relocate] moves the range, whatever the overlap, as long as it is not
    asked to move a non-empty range onto itself. *)
Lemma relocate_lookup dest src n (m : gmap Z value) a :
  0 ≤ n → dest ≠ src ∨ n = 0 →
  relocate dest src n m !! a = relocated dest src n m a.
Proof.
  intros Hn Hne. unfold relocate.
  destruct (bool_decide (src ≤ dest) && bool_decide (dest < src + n)) eqn:E.
  - apply andb_prop in E as [E1 E2].
    apply bool_decide_eq_true in E1, E2.
    replace n with (Z.of_nat (Z.to_nat n)) at 1 2 by lia.
    rewrite relocate_backward_lookup by lia.
    by rewrite Z2Nat.id.
  - rewrite relocate_forward_lookup; rewrite Z2Nat.id by lia; [done|].
    apply andb_false_iff in E as [E|E]; apply bool_decide_eq_false in E; lia.
Qed.

(** A non-empty range moved onto itself is destroyed. *)
Lemma relocate_backward_self k : ∀ p (m : gmap Z value) a,
  relocate_backward (p + Z.of_nat k) (p + Z.of_nat k) k m !! a =
    if decide (p ≤ a < p + Z.of_nat k) then None else m !! a.
Proof.
  induction k as [|k IH]; intros p m a; simpl relocate_backward.
  - case_decide; [lia|done].
  - replace (p + Z.of_nat (S k) - 1) with (p + Z.of_nat k) by lia.
    rewrite IH, boost_relocate_lookup.
    repeat case_decide; try lia; done.
Qed.

Lemma relocate_self_lookup p n (m : gmap Z value) a :
  0 ≤ n →
  relocate p p n m !! a = if decide (p ≤ a < p + n) then None else m !! a.
Proof.
  intros Hn. unfold relocate.
  destruct (bool_decide (p ≤ p) && bool_decide (p < p + n)) eqn:E.
  - replace n with (Z.of_nat (Z.to_nat n)) at 1 2 by lia.
    rewrite relocate_backward_self. by rewrite Z2Nat.id.
  - apply andb_false_iff in E as [E|E]; apply bool_decide_eq_false in E;
      [lia|].
    replace (Z.to_nat n) with 0%nat by lia. simpl.
    case_decide; [lia|done].
Qed.

(** C4 holds unless the destination is the source: [relocate] runs backward
    when the destination lies in the source range and forward otherwise,
    and for [dest ≠ src] every slot of the destination ends with the value
    it gets when the range goes through a disjoint temporary buffer, the
    value of the corresponding source slot.  For [dest = src] the backward
    loop relocates every element onto itself and the range ends destroyed,
    where the route through the temporary buffer gives the elements back. *)
Theorem relocate_through_temporary dest src tmp n (m : gmap Z value) a :
  0 ≤ n →
  tmp + n ≤ src ∨ src + n ≤ tmp →
  tmp + n ≤ dest ∨ dest + n ≤ tmp →
  dest ≤ a < dest + n →
  relocate dest src n m =
    (if bool_decide (src ≤ dest < src + n)
     then relocate_backward (dest + n) (src + n) (Z.to_nat n) m
     else relocate_forward dest src (Z.to_nat n) m) ∧
  relocate dest tmp n (relocate tmp src n m) !! a = m !! (a - dest + src) ∧
  relocate dest src n m !! a =
    if decide (dest = src) then None else m !! (a - dest + src).
Proof.
  intros Hn Hts Htd Ha. split_and!.
  - unfold relocate.
    destruct (bool_decide (src ≤ dest)) eqn:E1,
             (bool_decide (dest < src + n)) eqn:E2; simpl;
      try apply bool_decide_eq_true in E1;
      try apply bool_decide_eq_true in E2;
      try apply bool_decide_eq_false in E1;
      try apply bool_decide_eq_false in E2.
    + by rewrite bool_decide_eq_true_2.
    + by rewrite bool_decide_eq_false_2 by lia.
    + by rewrite bool_decide_eq_false_2 by lia.
    + by rewrite bool_decide_eq_false_2 by lia.
  - rewrite relocate_lookup by lia. unfold relocated.
    rewrite decide_True by done.
    rewrite relocate_lookup by lia. unfold relocated.
    rewrite decide_True by lia. f_equal. lia.
  - destruct (decide (dest = src)) as [->|Hne].
    + rewrite relocate_self_lookup by done. by rewrite decide_True.
    + rewrite relocate_lookup by lia. unfold relocated.
      by rewrite decide_True.
Qed.

(** ** Slots after destruction *)

Lemma destroy_loop_lookup k : ∀ last (m : gmap Z value) a,
  destroy_loop last k m !! a =
    if decide (last - Z.of_nat k ≤ a < last) then None else m !! a.
Proof.
  induction k as [|k IH]; intros last m a; simpl destroy_loop.
  - case_decide; [lia|done].
  - rewrite IH. repeat case_decide; try lia; try done.
    + assert (a = last - 1) as -> by lia. apply lookup_delete_eq.
    + by rewrite lookup_delete_ne by lia.
Qed.

Lemma erase_range_lookup k : ∀ p (m : gmap Z value) a,
  erase_range p k m !! a =
    if decide (p ≤ a < p + Z.of_nat k) then None else m !! a.
Proof.
  induction k as [|k IH]; intros p m a; simpl erase_range.
  - case_decide; [lia|done].
  - rewrite IH. repeat case_decide; try lia; try done.
    + assert (a = p) as -> by lia. apply lookup_delete_eq.
    + by rewrite lookup_delete_ne by lia.
Qed.

(** ** Allocation and the growth policy *)

Ltac munfold :=
  unfold bind, ret, throw, get, gets, modify, this, put_impl, put_size,
    on_world, on_mem, outer, scope, try_catch, new_object, impl_move,
    impl_swap in *;
  simpl in *.

Lemma allocate_cases n w :
  (∃ w', allocate n w = (Throw bad_alloc, w') ∧ mem w' = mem w ∧
         brk w' = brk w ∧ ctor_plan w' = ctor_plan w) ∨
  (∃ w', allocate n w = (Ok (brk w), w') ∧ mem w' = mem w ∧
         brk w' = brk w + n ∧ ctor_plan w' = ctor_plan w ∧
         alloc_plan w' = tail (alloc_plan w) ∧
         brk w + n ≤ heap_limit).
Proof.
  unfold allocate.
  destruct (alloc_plan w) as [|[] pl]; try case_bool_decide; simpl;
    first [ left; eexists; split; [reflexivity|]; done
          | right; eexists; split; [reflexivity|]; done ].
Qed.

Lemma impl_construct_cases c sp w :
  (∃ w', impl_construct c sp w = (Throw bad_alloc, w') ∧ mem w' = mem w ∧
         brk w' = brk w ∧ ctor_plan w' = ctor_plan w) ∨
  (∃ w', impl_construct c sp w = (Ok (Impl (brk w) 0 (Z.max 16 c)), w') ∧
         mem w' = mem w ∧ brk w' = brk w + Z.max 16 c ∧
         ctor_plan w' = ctor_plan w ∧
         brk w + Z.max 16 c ≤ heap_limit).
Proof.
  unfold impl_construct.
  assert ((if c <? 16 then 16 else c) = Z.max 16 c) as ->.
  { destruct (Z.ltb_spec c 16); lia. }
  munfold.
  destruct (allocate_cases (Z.max 16 c) w) as [(w' & -> & ?)|(w' & -> & ?)];
    [left|right]; eexists; split; try reflexivity; naive_solver.
Qed.

Lemma impl_ok_capacity_small i w :
  impl_ok i w → world_ok w → 0 ≤ capacity i ∧ 2 * capacity i < modulus.
Proof.
  pose proof heap_limit_double.
  unfold impl_ok, world_ok. intros [(?&?&?)|(?&?&?&?)] ?; lia.
Qed.

(** On a container the doubling never wraps: the request is honoured. *)
Lemma growth_ok i w n :
  impl_ok i w → world_ok w →
  growth i n = if decide (vec i = 0) then n else Z.max n (2 * capacity i).
Proof.
  intros Hi Hw. pose proof (impl_ok_capacity_small _ _ Hi Hw).
  unfold growth.
  destruct (Z.eqb_spec (vec i) 0); simpl; [by rewrite decide_True|].
  rewrite decide_False by done.
  rewrite wrap_small by lia.
  destruct (Z.ltb_spec (capacity i * 2) (capacity i)); [lia|].
  destruct (Z.ltb_spec n (capacity i * 2)); lia.
Qed.

(** Tearing a descriptor down empties its block when the resource wants
    its objects destroyed, and touches nothing else. *)
Lemma impl_destroy_world sp i w :
  0 ≤ size i ≤ capacity i →
  brk (impl_destroy sp i w).2 = brk w ∧
  ctor_plan (impl_destroy sp i w).2 = ctor_plan w ∧
  alloc_plan (impl_destroy sp i w).2 = alloc_plan w ∧
  ∀ p, mem (impl_destroy sp i w).2 !! p =
       if decide (negb (vec i =? 0) && sp_need_free sp = true ∧
                  vec i ≤ p < vec i + capacity i)
       then None else mem w !! p.
Proof.
  intros Hsz. unfold impl_destroy. simpl.
  destruct (negb (vec i =? 0) && sp_need_free sp); simpl.
  - split_and!; try done. intros p.
    rewrite erase_range_lookup, destroy_loop_lookup, !Z2Nat.id by lia.
    destruct (decide (vec i ≤ p < vec i + capacity i)).
    + by rewrite decide_True.
    + rewrite (decide_False (P:=true = true ∧ _)) by (intros [_ ?]; lia).
      by rewrite decide_False by lia.
  - done.
Qed.

Lemma impl_destroy_null w : impl_destroy None impl_empty w = (impl_empty, w).
Proof. done. Qed.

Lemma impl_destroy_fst sp i w : (impl_destroy sp i w).1 = impl_empty.
Proof. done. Qed.

Lemma impl_destroy_empty sp w : (impl_destroy sp impl_empty w).2 = w.
Proof. done. Qed.

Local Opaque impl_destroy.

Lemma reserve_impl_cases n a w :
  array_ok a w →
  (∃ w', reserve_impl n (a, w) = (Throw bad_alloc, (a, w')) ∧
         alloc_failed w w') ∨
  (∃ a' w', reserve_impl n (a, w) = (Ok tt, (a', w')) ∧
            reserved n a w a' w').
Proof.
  intros [Hi Hw]. unfold reserve_impl. munfold.
  pose proof (growth_ok _ _ n Hi Hw) as Hg.
  destruct (impl_construct_cases (growth (impl_ a) n) (sp_ a) w)
    as [(w1 & -> & Hf)|(w1 & -> & Hm & Hb & Hc & Hl)].
  { left. by eexists. }
  right. simpl. eexists _, _. split; [reflexivity|].
  assert (Hcap : capacity (impl_ a) ≤ Z.max 16 (growth (impl_ a) n) ∧
                 n ≤ Z.max 16 (growth (impl_ a) n)).
  { rewrite Hg. destruct Hi as [(?&?&?)|(?&?&?&?)]; case_decide; lia. }
  assert (Hsz : 0 ≤ size (impl_ a) ≤ capacity (impl_ a)).
  { destruct Hi as [(?&?&?)|(?&?&?&?)]; lia. }
  assert (Hne : brk w ≠ vec (impl_ a) ∨ size (impl_ a) = 0).
  { destruct Hi as [(?&?&?)|(?&?&?&?)]; [by right|left; lia]. }
  pose proof (impl_destroy_world (sp_ a) (impl_set_size 0 (impl_ a))
    (set_mem (relocate (brk w) (vec (impl_ a)) (size (impl_ a))) w1))
    as (Hdb & Hdc & Hda & Hlook); [simpl; lia|].
  simpl in Hdb, Hdc, Hlook.
  unfold reserved; simpl. split_and!; try done; try lia.
  - split; [right; simpl; unfold world_ok in *; lia|].
    unfold world_ok in *. lia.
  - congruence.
  - intros i Hi'. rewrite Hlook, Hm.
    rewrite decide_False.
    2:{ intros [_ ?]. destruct Hi as [(?&?&?)|(?&?&?&?)]; lia. }
    rewrite relocate_lookup by lia.
    unfold relocated. rewrite decide_True by lia. f_equal. lia.
  - intros p Hp Hout. rewrite Hlook, Hm.
    rewrite decide_False by naive_solver.
    rewrite relocate_lookup by lia.
    unfold relocated. rewrite decide_False by lia.
    rewrite decide_False; [done|]. lia.
Qed.

Lemma reserve_eq n a w :
  reserve n (a, w) =
    if n <=? capacity (impl_ a) then (Ok tt, (a, w)) else reserve_impl n (a, w).
Proof. unfold reserve. munfold. by destruct (n <=? capacity (impl_ a)). Qed.

(** [reserve] changes neither the size nor, when it throws, anything of
    the container. *)
Lemma reserve_cases_any n a w :
  (∃ a' w' e, reserve n (a, w) = (Throw e, (a', w')) ∧ a' = a) ∨
  (∃ a' w', reserve n (a, w) = (Ok tt, (a', w')) ∧
            size (impl_ a') = size (impl_ a)).
Proof.
  rewrite reserve_eq.
  destruct (n <=? capacity (impl_ a)); [right; by exists a, w|].
  unfold reserve_impl. munfold.
  destruct (impl_construct _ _ w) as [[i|e] w1]; simpl.
  - right. by eexists _, _.
  - left. by eexists _, _, _.
Qed.

Lemma reserve_cases n a w :
  array_ok a w →
  (∃ w', reserve n (a, w) = (Throw bad_alloc, (a, w')) ∧
         alloc_failed w w') ∨
  (∃ a' w', reserve n (a, w) = (Ok tt, (a', w')) ∧ reserved n a w a' w').
Proof.
  intros Hok. rewrite reserve_eq.
  destruct (Z.leb_spec n (capacity (impl_ a))).
  - right. exists a, w. split; [done|].
    unfold reserved. split_and!; try done; try lia; by left.
  - by apply reserve_impl_cases.
Qed.

(** ** Insertion under the guard *)

Lemma forM_repeatM {S A} (k : nat) (x : A) (body : A → M S unit) s :
  repeatM k (body x) s = forM (replicate k x) body s.
Proof.
  revert s. induction k as [|k IH]; intros s; [done|].
  simpl. unfold bind. destruct (body x s) as [[[]|e] s']; [apply IH|done].
Qed.

Lemma emplace_eq v u s :
  emplace v (u, s) =
    match ctor_plan s.2 with
    | false :: pl =>
        (Throw ctor_error,
         (u, (s.1, World (mem s.2) (brk s.2) (alloc_plan s.2) pl)))
    | pl =>
        (Ok tt,
         (UndoInsert (ui_it u + 1) (ui_pos u) (ui_n u) (ui_commit u),
          (s.1, World (partial_alter (λ _, read_ref v (mem s.2)) (ui_it u)
                         (mem s.2))
                  (brk s.2) (alloc_plan s.2) (tail pl))))
    end.
Proof.
  unfold emplace, construct_from, construct_slot. munfold.
  destruct s as [a w]; simpl. by destruct (ctor_plan w) as [|[] pl].
Qed.

(** The elements emplaced before the first failure, [j] of them, sit in
    the gap from the guard's first position on; nothing else changes. *)
Lemma emplace_loop l : ∀ u a w,
  ∃ (j : nat) w',
    forM l emplace (u, (a, w)) =
      (if decide (j = length l) then Ok tt else Throw ctor_error,
       (UndoInsert (ui_it u + Z.of_nat j) (ui_pos u) (ui_n u) (ui_commit u),
        (a, w'))) ∧
    (j ≤ length l)%nat ∧ brk w' = brk w ∧
    (∀ p, ¬ (ui_it u ≤ p < ui_it u + Z.of_nat j) →
          mem w' !! p = mem w !! p) ∧
    (∀ (i : nat) v, l !! i = Some v → (i < j)%nat →
       (∀ m : gmap Z value,
          (∀ q, ¬ (ui_it u ≤ q < ui_it u + Z.of_nat (length l)) →
                m !! q = mem w !! q) →
          read_ref v m = read_ref v (mem w)) →
       mem w' !! (ui_it u + Z.of_nat i) = read_ref v (mem w)).
Proof.
  induction l as [|v l IH]; intros u a w.
  { exists 0%nat, w. simpl. rewrite Z.add_0_r. destruct u.
    split_and!; try done; intros; lia. }
  simpl forM. unfold bind. rewrite emplace_eq. simpl.
  assert (Hstep : ∀ pl,
    ∃ (j : nat) (w' : world),
      forM l emplace
        (UndoInsert (ui_it u + 1) (ui_pos u) (ui_n u) (ui_commit u),
         (a, World (partial_alter (λ _, read_ref v (mem w)) (ui_it u) (mem w))
               (brk w) (alloc_plan w) pl)) =
      (if decide (j = length (v :: l)) then Ok () else Throw ctor_error,
       (UndoInsert (ui_it u + Z.of_nat j) (ui_pos u) (ui_n u) (ui_commit u),
        (a, w'))) ∧
      (j ≤ length (v :: l))%nat ∧ brk w' = brk w ∧
      (∀ p, ¬ ui_it u ≤ p < ui_it u + Z.of_nat j → mem w' !! p = mem w !! p) ∧
      (∀ (i : nat) v0, (v :: l) !! i = Some v0 → (i < j)%nat →
         (∀ m : gmap Z value,
            (∀ q, ¬ (ui_it u ≤ q < ui_it u + Z.of_nat (length (v :: l))) →
                  m !! q = mem w !! q) →
            read_ref v0 m = read_ref v0 (mem w)) →
         mem w' !! (ui_it u + Z.of_nat i) = read_ref v0 (mem w))).
  { intros pl.
    destruct (IH (UndoInsert (ui_it u + 1) (ui_pos u) (ui_n u) (ui_commit u))
                a (World (partial_alter (λ _, read_ref v (mem w)) (ui_it u)
                            (mem w))
                     (brk w) (alloc_plan w) pl))
      as (j & w' & -> & Hj & Hb & Hfr & Hel).
    simpl in *. exists (S j), w'. split_and!.
    - replace (ui_it u + 1 + Z.of_nat j) with (ui_it u + Z.of_nat (S j)) by lia.
      destruct (decide (j = length l)), (decide (S j = S (length l)));
        try lia; done.
    - lia.
    - done.
    - intros p Hp. rewrite Hfr by lia.
      by rewrite lookup_partial_alter_ne by lia.
    - intros [|i] v' Hv' Hi Hst; simpl in Hv'.
      + injection Hv' as ->. rewrite Z.add_0_r, Hfr by lia.
        apply lookup_partial_alter_eq.
      + replace (ui_it u + Z.of_nat (S i)) with (ui_it u + 1 + Z.of_nat i)
          by lia.
        assert (Hone : read_ref v'
                  (partial_alter (λ _, read_ref v (mem w)) (ui_it u) (mem w)) =
                read_ref v' (mem w)).
        { apply Hst. intros q Hq. apply lookup_partial_alter_ne. lia. }
        rewrite <- Hone. apply Hel; [done|lia|].
        intros m Hm. rewrite Hone. apply Hst. intros q Hq.
        rewrite Hm by (simpl in Hq; lia).
        apply lookup_partial_alter_ne. simpl in Hq. lia. }
  destruct (ctor_plan w) as [|[] pl] eqn:Hpl; [apply Hstep..|].
  eexists 0%nat, _. rewrite Z.add_0_r. destruct u. simpl.
  split_and!; try done; [lia|intros; lia].
Qed.

Lemma insert_as_seq pos count v s :
  insert pos count v s = insert_seq pos count (replicate (Z.to_nat count) v) s.
Proof.
  unfold insert, insert_seq, scope, bind.
  destruct (undo_insert_ctor pos count s) as [[u|e] s']; [|done].
  by rewrite forM_repeatM.
Qed.

Lemma forM_fmap {S A B} (f : A → B) (body : B → M S unit) l : ∀ s,
  forM (f <$> l) body s = forM l (λ x, body (f x)) s.
Proof.
  induction l as [|x l IH]; intros s; [done|].
  simpl. unfold bind. destruct (body (f x) s) as [[[]|e] s']; [apply IH|done].
Qed.

Lemma insert_init_as_seq pos init s :
  insert_init pos init s =
    insert_seq pos (wrap (Z.of_nat (length init))) (ByValue <$> init) s.
Proof.
  unfold insert_init, insert_seq, scope, bind.
  destruct (undo_insert_ctor _ _ s) as [[u|e] s']; [|done].
  by rewrite forM_fmap.
Qed.

Lemma destroy_eq first last a w :
  destroy first last (a, w) =
    (Ok tt, (a, if sp_need_free (sp_ a)
                then set_mem (destroy_loop last (Z.to_nat (last - first))) w
                else w)).
Proof. unfold destroy. munfold. by destruct (sp_need_free (sp_ a)). Qed.

Lemma undo_insert_ctor_cases a w i n :
  array_ok a w → 0 ≤ i ≤ size (impl_ a) → 0 ≤ n →
  size (impl_ a) + n < modulus →
  (max_size < n ∧
   undo_insert_ctor (vec (impl_ a) + i) n (a, w) =
     (Throw length_error, (a, w))) ∨
  (∃ w', undo_insert_ctor (vec (impl_ a) + i) n (a, w) =
           (Throw bad_alloc, (a, w')) ∧ alloc_failed w w') ∨
  (∃ a1 w1, reserved (size (impl_ a) + n) a w a1 w1 ∧
     undo_insert_ctor (vec (impl_ a) + i) n (a, w) =
       (Ok (UndoInsert (vec (impl_ a1) + i) i n false),
        (set_impl (impl_set_size (size (impl_ a) + n) (impl_ a1)) a1,
         set_mem (relocate (vec (impl_ a1) + i + n) (vec (impl_ a1) + i)
                    (size (impl_ a) - i)) w1))).
Proof.
  intros Hok Hi Hn Hsum.
  pose proof max_size_lt. pose proof modulus_pos.
  unfold undo_insert_ctor, index_of, bind, this, gets. simpl.
  destruct (Z.ltb_spec max_size n); [by left|right].
  replace (vec (impl_ a) + i - vec (impl_ a)) with i by lia.
  rewrite (wrap_small n), (wrap_small i), (wrap_small (_ + n)) by lia.
  destruct (reserve_cases (size (impl_ a) + n) a w Hok)
    as [(w' & -> & Hf)|(a1 & w1 & -> & Hr)].
  { left. by exists w'. }
  right. exists a1, w1. split; [done|].
  destruct Hr as (_ & Hsz & _). munfold. rewrite Hsz.
  by rewrite (wrap_small (_ - i)), (wrap_small (_ + n)) by lia.
Qed.

Lemma contents_eq a w a' w' :
  size (impl_ a') = size (impl_ a) →
  (∀ i, 0 ≤ i < size (impl_ a) →
     mem w' !! (vec (impl_ a') + i) = mem w !! (vec (impl_ a) + i)) →
  contents a' w' = contents a w.
Proof.
  intros Hsz Hslots. unfold contents. rewrite Hsz.
  apply list_fmap_ext. intros k x [-> Hk]%lookup_seqZ.
  apply Hslots. lia.
Qed.

Lemma rolled_back_refl a w w' :
  array_ok a w → alloc_failed w w' → rolled_back a w a w'.
Proof.
  intros [Hi Hw] (Hm & Hb & _). unfold rolled_back, array_ok.
  split_and!; try done; try lia.
  - unfold impl_ok in *. rewrite Hb. done.
  - unfold world_ok in *. by rewrite Hb.
  - apply contents_eq; [done|]. intros. by rewrite Hm.
Qed.

Lemma array_ok_size_early a w :
  array_ok a w → 0 ≤ size (impl_ a) ≤ capacity (impl_ a) ∧
                 capacity (impl_ a) < heap_limit.
Proof.
  intros [[(?&?&?)|(?&?&?&?)] [? ?]]; lia.
Qed.

Lemma undo_insert_ctor_long pos n s :
  max_size < n → undo_insert_ctor pos n s = (Throw length_error, s).
Proof.
  intros Hn. unfold undo_insert_ctor. munfold.
  destruct (Z.ltb_spec max_size n); [by destruct s|lia].
Qed.

Lemma insert_seq_failure a w i n l e a' w' :
  array_ok a w → 0 ≤ i ≤ array_size a → Z.of_nat (length l) = n →
  (n ≤ max_size → array_size a + n < modulus) →
  insert_seq (begin_ a + i) n l (a, w) = (Throw e, (a', w')) →
  rolled_back a w a' w' ∧
  (e ≠ ctor_error → a' = a ∧ mem w' = mem w ∧ brk w' = brk w).
Proof.
  unfold array_size, begin_. intros Hok Hi Hlen Hfit Hrun.
  assert (0 ≤ n) by lia.
  unfold insert_seq, bind in Hrun.
  destruct (decide (max_size < n)) as [Hlong|Hshort].
  { rewrite undo_insert_ctor_long in Hrun by done.
    injection Hrun as <- <- <-. split; [|done].
    by apply rolled_back_refl. }
  assert (Hsum : size (impl_ a) + n < modulus) by (apply Hfit; lia).
  destruct (undo_insert_ctor_cases a w i n Hok Hi ltac:(done) Hsum)
    as [[_ Hc]|[(w1 & Hc & Hf)|(a1 & w1 & Hr & Hc)]];
    rewrite Hc in Hrun; clear Hc.
  { injection Hrun as <- <- <-. split; [|done].
    by apply rolled_back_refl. }
  { injection Hrun as <- <- <-. split; [by apply rolled_back_refl|].
    intros _. by destruct Hf as (? & ? & ?). }
  unfold scope in Hrun. cbv beta in Hrun.
  match type of Hrun with context [forM l emplace (?u, (?a2, ?w2))] =>
    destruct (emplace_loop l u a2 w2) as (j & w3 & Hloop & Hj & Hb3 & Hfr & _)
  end.
  rewrite Hloop in Hrun. clear Hloop. simpl in Hrun.
  destruct (decide (j = length l)) as [->|Hjl]; [done|].
  injection Hrun as <- <- <-. split; [|done].
  destruct Hr as (Hsp & Hsz & Hcap & _ & [Hi1 Hw1] & _ & _ & Hslots & _).
  unfold undo_insert_dtor. simpl. rewrite destroy_eq. simpl.
  pose proof modulus_pos.
  replace (size (impl_ a) + n - n) with (size (impl_ a)) by lia.
  rewrite !wrap_small by lia.
  assert (Hcap1 : 0 ≤ size (impl_ a) ≤ capacity (impl_ a1)).
  { destruct Hi1 as [(?&?&?)|(?&?&?&?)]; lia. }
  simpl in Hb3, Hfr.
  set (it := vec (impl_ a1) + i) in *.
  set (w4 := if sp_need_free (sp_ a1)
             then set_mem (destroy_loop (it + Z.of_nat j)
                             (Z.to_nat (it + Z.of_nat j - it))) w3
             else w3).
  assert (Hb4 : brk w4 = brk w1).
  { unfold w4. destruct (sp_need_free (sp_ a1)); simpl; lia. }
  assert (Hmem4 : ∀ p, ¬ (it ≤ p < it + Z.of_nat j) →
    mem w4 !! p = relocated (it + n) it (size (impl_ a) - i) (mem w1) p).
  { intros p Hp. unfold w4.
    destruct (sp_need_free (sp_ a1)); simpl.
    - rewrite destroy_loop_lookup, decide_False by lia.
      rewrite Hfr by lia. apply relocate_lookup; lia.
    - rewrite Hfr by lia. apply relocate_lookup; lia. }
  clearbody w4.
  unfold rolled_back, array_size, array_capacity. simpl.
  split_and!; try done.
  - split; simpl.
    + destruct Hi1 as [(?&?&?)|(?&?&?&?)]; [left|right]; simpl;
        split_and!; lia.
    + unfold world_ok in *. simpl. lia.
  - apply contents_eq; [done|]. intros k Hk. simpl.
    rewrite <- Hslots by done.
    rewrite relocate_lookup by lia. unfold relocated at 1.
    destruct (decide (it ≤ vec (impl_ a1) + k < it + (size (impl_ a) - i))).
    + rewrite Hmem4 by lia. unfold relocated.
      rewrite decide_True by lia. f_equal. lia.
    + rewrite decide_False by lia.
      rewrite Hmem4 by lia. unfold relocated.
      rewrite decide_False by lia. by rewrite decide_False by lia.
Qed.

(** ** Runs of constructions *)

Lemma write_run_spec l : ∀ p w,
  ((write_run p l w).1 ≤ length l)%nat ∧
  (write_run p l w).1 = successes (ctor_plan w) (length l) ∧
  brk (write_run p l w).2 = brk w ∧
  alloc_plan (write_run p l w).2 = alloc_plan w ∧
  (∀ q, ¬ (p ≤ q < p + Z.of_nat (write_run p l w).1) →
        mem (write_run p l w).2 !! q = mem w !! q) ∧
  (∀ (i : nat) f, l !! i = Some f → (i < (write_run p l w).1)%nat →
     (∀ m : gmap Z value,
        (∀ q, ¬ (p ≤ q < p + Z.of_nat (length l)) → m !! q = mem w !! q) →
        f m = f (mem w)) →
     mem (write_run p l w).2 !! (p + Z.of_nat i) = f (mem w)).
Proof.
  induction l as [|f l IH]; intros p w.
  { simpl. split_and!; try done; intros; lia. }
  assert (Hstep : ∀ pl,
    let w1 := World (partial_alter (λ _, f (mem w)) p (mem w)) (brk w)
                (alloc_plan w) pl in
    let r := write_run (p + 1) l w1 in
    (S r.1 ≤ length (f :: l))%nat ∧
    S r.1 = S (successes pl (length l)) ∧
    brk r.2 = brk w ∧ alloc_plan r.2 = alloc_plan w ∧
    (∀ q, ¬ (p ≤ q < p + Z.of_nat (S r.1)) → mem r.2 !! q = mem w !! q) ∧
    (∀ (i : nat) g, (f :: l) !! i = Some g → (i < S r.1)%nat →
       (∀ m : gmap Z value,
          (∀ q, ¬ (p ≤ q < p + Z.of_nat (length (f :: l))) →
                m !! q = mem w !! q) →
          g m = g (mem w)) →
       mem r.2 !! (p + Z.of_nat i) = g (mem w))).
  { intros pl w1 r. subst r.
    destruct (IH (p + 1) w1) as (Hle & Hj & Hb & Ha & Hfr & Hel).
    simpl in *. split_and!; try done; try lia.
    - intros q Hq. rewrite Hfr by lia. by rewrite lookup_partial_alter_ne by lia.
    - intros [|i] g Hg Hi Hst; simpl in Hg.
      + injection Hg as <-. rewrite Z.add_0_r, Hfr by lia.
        by rewrite lookup_partial_alter_eq.
      + replace (p + Z.of_nat (S i)) with (p + 1 + Z.of_nat i) by lia.
        rewrite (Hel i g Hg); [|lia|].
        * apply Hst. intros q Hq. by rewrite lookup_partial_alter_ne by lia.
        * intros m Hm. rewrite (Hst m).
          -- symmetry. apply Hst. intros q Hq.
             by rewrite lookup_partial_alter_ne by lia.
          -- intros q Hq. rewrite Hm by lia.
             by rewrite lookup_partial_alter_ne by lia. }
  simpl write_run. simpl successes.
  destruct (ctor_plan w) as [|[] pl] eqn:Hpl; simpl.
  - apply (Hstep []).
  - apply (Hstep pl).
  - split_and!; try done; try lia; intros; lia.
Qed.

Lemma successes_le pl k : (successes pl k ≤ k)%nat.
Proof.
  revert pl. induction k as [|k IH]; intros [|[] pl]; simpl; try lia.
  - specialize (IH []). lia.
  - specialize (IH pl). lia.
Qed.

Lemma with_size_id a : with_size (size (impl_ a)) a = a.
Proof. by destruct a as [sp []]. Qed.

Lemma with_size_with_size n m a : with_size n (with_size m a) = with_size n a.
Proof. done. Qed.

Lemma loop_outcome_S j k : loop_outcome (S j) (S k) = loop_outcome j k.
Proof.
  unfold loop_outcome.
  destruct (decide (j = k)), (decide (S j = S k)); try lia; done.
Qed.

Lemma loop_outcome_0 k : loop_outcome 0 (S k) = Throw ctor_error.
Proof. done. Qed.

(** A loop whose body constructs at [vec + size] and then counts the new
    element in [size]. *)
Lemma push_loop {A} (body : A → M st unit)
    (prod : A → gmap Z value → option value) :
  (∀ x a w, body x (a, w) =
     match ctor_plan w with
     | false :: pl =>
         (Throw ctor_error, (a, World (mem w) (brk w) (alloc_plan w) pl))
     | pl =>
         (Ok tt,
          (with_size (wrap (size (impl_ a) + 1)) a,
           World (partial_alter (λ _, prod x (mem w))
                    (vec (impl_ a) + size (impl_ a)) (mem w))
             (brk w) (alloc_plan w) (tail pl)))
     end) →
  ∀ l a w,
    0 ≤ size (impl_ a) → size (impl_ a) + Z.of_nat (length l) < modulus →
    forM l body (a, w) =
      let r := write_run (vec (impl_ a) + size (impl_ a)) (prod <$> l) w in
      (loop_outcome r.1 (length l),
       (with_size (size (impl_ a) + Z.of_nat r.1) a, r.2)).
Proof.
  intros Hbody. induction l as [|x l IH]; intros a w Hsz Hlen.
  { simpl. by rewrite Z.add_0_r, with_size_id. }
  simpl forM. unfold bind. rewrite Hbody.
  simpl length in *.
  rewrite wrap_small by lia.
  simpl write_run.
  destruct (ctor_plan w) as [|[] pl]; simpl.
  3:{ by rewrite Z.add_0_r, with_size_id. }
  all: rewrite IH by (simpl; lia); simpl;
       rewrite loop_outcome_S, with_size_with_size;
       replace (vec (impl_ a) + (size (impl_ a) + 1))
         with (vec (impl_ a) + size (impl_ a) + 1) by lia;
       match goal with |- context [with_size (?x + 1 + Z.of_nat ?j) _] =>
         replace (x + 1 + Z.of_nat j) with (x + Z.of_nat (S j)) by lia
       end; done.
Qed.

Lemma resize_step_loop v k : ∀ u a w,
  repeatM k (resize_step v) (u, (a, w)) =
    let r := write_run (ru_it u) (replicate k (read_ref v)) w in
    (loop_outcome r.1 k,
     (ResizeUndo (ru_it u + Z.of_nat r.1) (ru_end u), (a, r.2))).
Proof.
  induction k as [|k IH]; intros u a w.
  { simpl. rewrite Z.add_0_r. by destruct u. }
  simpl repeatM. unfold bind.
  assert (resize_step v (u, (a, w)) =
    match ctor_plan w with
    | false :: pl =>
        (Throw ctor_error, (u, (a, World (mem w) (brk w) (alloc_plan w) pl)))
    | pl =>
        (Ok tt, (ResizeUndo (ru_it u + 1) (ru_end u),
                 (a, World (partial_alter (λ _, read_ref v (mem w)) (ru_it u)
                              (mem w))
                        (brk w) (alloc_plan w) (tail pl))))
    end) as ->.
  { unfold resize_step, construct_from, construct_slot. munfold.
    by destruct (ctor_plan w) as [|[] pl]. }
  simpl write_run.
  destruct (ctor_plan w) as [|[] pl]; simpl.
  3:{ rewrite Z.add_0_r. by destruct u. }
  all: rewrite IH; simpl; rewrite loop_outcome_S;
       match goal with |- context [ResizeUndo (?x + 1 + Z.of_nat ?j) _] =>
         replace (x + 1 + Z.of_nat j) with (x + Z.of_nat (S j)) by lia
       end; reflexivity.
Qed.

Lemma null_fill_loop v k : ∀ it a w,
  forM (seqZ it (Z.of_nat k)) (λ p, on_world (construct_at p v)) (a, w) =
    let r := write_run it (replicate k (λ _, Some v)) w in
    (loop_outcome r.1 k, (a, r.2)).
Proof.
  induction k as [|k IH]; intros it a w; [done|].
  rewrite seqZ_cons by lia.
  replace (Z.pred (Z.of_nat (S k))) with (Z.of_nat k) by lia.
  simpl forM. unfold bind.
  assert (on_world (construct_at it v) (a, w) =
    match ctor_plan w with
    | false :: pl =>
        (Throw ctor_error, (a, World (mem w) (brk w) (alloc_plan w) pl))
    | pl =>
        (Ok tt, (a, World (<[it := v]> (mem w)) (brk w)
                      (alloc_plan w) (tail pl)))
    end) as ->.
  { unfold construct_at, construct_slot. munfold.
    by destruct (ctor_plan w) as [|[] pl]. }
  simpl write_run.
  destruct (ctor_plan w) as [|[] pl]; simpl; try done.
  all: rewrite IH; simpl; rewrite loop_outcome_S; done.
Qed.

(** ** Strong guarantee of [insert] *)

(** A request within [max_size()] is a [size_type] value. *)
Lemma in_max_size_lt a w n :
  array_ok a w → in_max_size a n → n < modulus.
Proof.
  intros Hok [Hroom|Hreq].
  - pose proof (array_ok_size_early a w Hok). pose proof heap_limit_double. lia.
  - pose proof max_size_lt. destruct Hok as [Hi Hw].
    rewrite (growth_ok _ _ n Hi Hw) in Hreq. case_decide; lia.
Qed.

(** C1, as amended: an [insert(pos, count, v)] or [insert(pos, sequence)]
    that fails leaves [size()] and the element sequence as they were before
    the call, whatever [v] refers to.  After a size-limit error or an
    allocation failure the whole container, [capacity()] included, is as
    before; after a failed element construction [capacity()] is not smaller
    than before, the buffer that the capacity step has moved to being kept.
    This holds of every call that fails the size-limit check, and of the
    others when the block [reserve] asks for holds at most [max_size()]
    elements. *)
Theorem insert_strong_guarantee a w i count v init :
  array_ok a w → 0 ≤ i ≤ array_size a →
  0 ≤ count < modulus →
  (count ≤ max_size → in_max_size a (array_size a + count)) →
  Z.of_nat (length init) < modulus →
  (Z.of_nat (length init) ≤ max_size →
   in_max_size a (array_size a + Z.of_nat (length init))) →
  on_throw (insert (begin_ a + i) count v (a, w)) (λ e s',
    rolled_back a w s'.1 s'.2 ∧
    (e ≠ ctor_error → s'.1 = a ∧ mem s'.2 = mem w)) ∧
  on_throw (insert_init (begin_ a + i) init (a, w)) (λ e s',
    rolled_back a w s'.1 s'.2 ∧
    (e ≠ ctor_error → s'.1 = a ∧ mem s'.2 = mem w)).
Proof.
  intros Hok Hi Hcount Hfit Hlen Hfit'. unfold on_throw. split.
  - destruct (insert _ _ _ _) as [[r|e] [a' w']] eqn:E; simpl; [done|].
    rewrite insert_as_seq in E.
    apply insert_seq_failure in E as [Hrb Hsame]; try done.
    + split; [done|]. intros He. by destruct (Hsame He) as (? & ? & ?).
    + rewrite length_replicate. lia.
    + intros Hle. by apply (in_max_size_lt a w), Hfit.
  - destruct (insert_init _ _ _) as [[r|e] [a' w']] eqn:E; simpl; [done|].
    rewrite insert_init_as_seq in E.
    rewrite wrap_small in E by lia.
    apply insert_seq_failure in E as [Hrb Hsame]; try done.
    + split; [done|]. intros He. by destruct (Hsame He) as (? & ? & ?).
    + by rewrite length_fmap.
    + intros Hle. by apply (in_max_size_lt a w), Hfit'.
Qed.

(** ** The growth policy *)

Lemma wrap_once z : modulus ≤ z < 2 * modulus → wrap z = z - modulus.
Proof.
  intros Hz. unfold wrap. symmetry.
  apply (Z.mod_unique_pos z modulus 1); lia.
Qed.

(** C5: with no allocation the growth computation asks for exactly the
    required size; with one it asks for [max_size()] when doubling the
    capacity wraps around the size type, and for the larger of the required
    size and the doubled capacity when it does not.  [construct] then raises
    what is asked to the floor of 16. *)
Theorem growth_policy i r sp w :
  0 ≤ capacity i < modulus →
  growth i r =
    (if decide (vec i = 0) then r
     else if decide (modulus ≤ capacity i * 2) then max_size
     else Z.max r (capacity i * 2)) ∧
  on_return (impl_construct (growth i r) sp w) (λ i' _,
    capacity i' = Z.max 16 (growth i r)).
Proof.
  intros Hc. split.
  - unfold growth.
    destruct (Z.eqb_spec (vec i) 0); simpl; [by rewrite decide_True|].
    rewrite decide_False by done.
    destruct (decide (modulus ≤ capacity i * 2)).
    + rewrite wrap_once by lia.
      destruct (Z.ltb_spec (capacity i * 2 - modulus) (capacity i)); [done|lia].
    + rewrite wrap_small by lia.
      destruct (Z.ltb_spec (capacity i * 2) (capacity i)); [lia|].
      destruct (Z.ltb_spec r (capacity i * 2)); lia.
  - unfold on_return.
    destruct (impl_construct_cases (growth i r) sp w)
      as [(w' & -> & _)|(w' & -> & _)]; done.
Qed.

(** ** Self-assignment *)

(** C9 fails on the code: [a = a] detaches the descriptor into the guard,
    copies the now empty container onto itself and lets the guard destroy
    the detached elements; the container ends up empty whatever it held. *)
Theorem assign_copy_self_empties a w :
  (assign_copy Self (a, w)).1 = Ok tt ∧
  (assign_copy Self (a, w)).2.1 = Array (sp_ a) impl_empty ∧
  array_size (assign_copy Self (a, w)).2.1 = 0.
Proof. done. Qed.

(** ** [shrink_to_fit] *)

Lemma impl_construct_eq c sp w :
  impl_construct c sp w =
    if will_allocate (Z.max 16 c) w
    then (Ok (Impl (brk w) 0 (Z.max 16 c)),
          World (mem w) (brk w + Z.max 16 c) (tail (alloc_plan w))
            (ctor_plan w))
    else (Throw bad_alloc,
          World (mem w) (brk w) (tail (alloc_plan w)) (ctor_plan w)).
Proof.
  unfold impl_construct, will_allocate, allocate.
  assert ((if c <? 16 then 16 else c) = Z.max 16 c) as ->.
  { destruct (Z.ltb_spec c 16); lia. }
  munfold.
  destruct (alloc_plan w) as [|[] pl]; simpl; try done;
    by destruct (bool_decide (brk w + Z.max 16 c ≤ heap_limit)).
Qed.

Lemma shrink_to_fit_eq a w :
  shrink_to_fit (a, w) =
    if capacity (impl_ a) <=? size (impl_ a) then (Ok tt, (a, w))
    else if size (impl_ a) =? 0
    then (Ok tt, (set_impl impl_empty a, array_dtor a w))
    else if (size (impl_ a) <? 3) && (capacity (impl_ a) <=? 3)
    then (Ok tt, (a, w))
    else match impl_construct (size (impl_ a)) (sp_ a) w with
         | (Throw _, w') => (Ok tt, (a, w'))
         | (Ok impl, w') =>
             (Ok tt,
              (set_impl (impl_set_size (size (impl_ a)) impl) a,
               (impl_destroy (sp_ a) (impl_set_size 0 (impl_ a))
                  (set_mem (relocate (vec impl) (vec (impl_ a))
                              (size (impl_ a))) w')).2))
         end.
Proof.
  unfold shrink_to_fit. munfold.
  destruct (capacity (impl_ a) <=? size (impl_ a)); [done|].
  destruct (size (impl_ a) =? 0); [done|].
  destruct ((size (impl_ a) <? 3) && (capacity (impl_ a) <=? 3)); [done|].
  cbn [fst snd].
  by destruct (impl_construct (size (impl_ a)) (sp_ a) w) as [[i|e] w'].
Qed.

Lemma shrink_to_fit_cases a w :
  array_ok a w → array_size a < array_capacity a →
  (shrink_to_fit (a, w)).1 = Ok tt ∧
  sp_ (shrink_to_fit (a, w)).2.1 = sp_ a ∧
  array_size (shrink_to_fit (a, w)).2.1 = array_size a ∧
  contents (shrink_to_fit (a, w)).2.1 (shrink_to_fit (a, w)).2.2 =
    contents a w ∧
  array_ok (shrink_to_fit (a, w)).2.1 (shrink_to_fit (a, w)).2.2 ∧
  (if decide (array_size a = 0)
   then array_capacity (shrink_to_fit (a, w)).2.1 = 0
   else if will_allocate (Z.max 16 (array_size a)) w
   then array_capacity (shrink_to_fit (a, w)).2.1 = Z.max 16 (array_size a)
   else (shrink_to_fit (a, w)).2.1 = a ∧
        mem (shrink_to_fit (a, w)).2.2 = mem w).
Proof.
  unfold array_size, array_capacity. intros [Hi Hw] Hlt.
  rewrite shrink_to_fit_eq.
  destruct (Z.leb_spec (capacity (impl_ a)) (size (impl_ a))); [lia|].
  assert (Hbuf : 0 < vec (impl_ a) ∧ 16 ≤ capacity (impl_ a) ∧
                 0 ≤ size (impl_ a) ≤ capacity (impl_ a) ∧
                 vec (impl_ a) + capacity (impl_ a) ≤ brk w).
  { destruct Hi as [(?&?&?)|?]; [lia|done]. }
  destruct Hbuf as (Hv & Hc & Hs & Hb).
  destruct (Z.eqb_spec (size (impl_ a)) 0) as [Hz|Hnz].
  { simpl. rewrite decide_True by done.
    pose proof (impl_destroy_world (sp_ a) (impl_ a) w Hs)
      as (Hdb & _ & _ & _).
    unfold array_dtor. split_and!; try done.
    - apply contents_eq; simpl; [done|]. intros; lia.
    - split; [by left|]. unfold world_ok in *. simpl. by rewrite Hdb. }
  rewrite decide_False by done.
  destruct ((size (impl_ a) <? 3) && (capacity (impl_ a) <=? 3)) eqn:Hslack.
  { apply andb_prop in Hslack as [_ Hslack%Z.leb_le]. lia. }
  rewrite impl_construct_eq.
  unfold will_allocate.
  destruct (match alloc_plan w with
            | false :: _ => false
            | _ => bool_decide (brk w + Z.max 16 (size (impl_ a)) ≤ heap_limit)
            end) eqn:Hal; simpl.
  2:{ by split_and!. }
  assert (Hlim : brk w + Z.max 16 (size (impl_ a)) ≤ heap_limit).
  { destruct (alloc_plan w) as [|[] pl]; try done;
      by apply bool_decide_eq_true in Hal. }
  match goal with |- context [impl_destroy ?sp ?i ?w0] =>
    pose proof (impl_destroy_world sp i w0) as (Hdb & Hdc & Hda & Hlook)
  end; [simpl; lia|].
  simpl in Hdb, Hlook.
  assert (Hslots : ∀ i, 0 ≤ i < size (impl_ a) →
    mem (impl_destroy (sp_ a) (impl_set_size 0 (impl_ a))
           (set_mem (relocate (brk w) (vec (impl_ a)) (size (impl_ a)))
              (World (mem w) (brk w + Z.max 16 (size (impl_ a)))
                 (tail (alloc_plan w)) (ctor_plan w)))).2 !! (brk w + i) =
    mem w !! (vec (impl_ a) + i)).
  { intros i Hi'. rewrite Hlook.
    rewrite decide_False by (intros [_ ?]; lia).
    rewrite relocate_lookup by lia.
    unfold relocated. rewrite decide_True by lia. f_equal. lia. }
  split_and!; try done.
  - apply contents_eq; simpl; done.
  - split.
    + right. simpl. rewrite Hdb. lia.
    + unfold world_ok in *. rewrite Hdb. lia.
Qed.

(** C2, as amended: on a container whose [capacity()] exceeds its [size()],
    [shrink_to_fit()] never throws and leaves size and contents unchanged.
    An empty container gives its buffer back and ends with capacity 0.
    Otherwise it asks [construct] for [size()] slots, which [construct]
    raises to its floor, so that afterward [capacity()] is the larger of
    [size()] and 16 (16, not 2, from capacity 64 and size 2); if that
    allocation fails the container is left entirely unchanged. *)
Theorem shrink_to_fit_spec a w :
  array_ok a w → array_size a < array_capacity a →
  (shrink_to_fit (a, w)).1 = Ok tt ∧
  sp_ (shrink_to_fit (a, w)).2.1 = sp_ a ∧
  array_size (shrink_to_fit (a, w)).2.1 = array_size a ∧
  contents (shrink_to_fit (a, w)).2.1 (shrink_to_fit (a, w)).2.2 =
    contents a w ∧
  array_ok (shrink_to_fit (a, w)).2.1 (shrink_to_fit (a, w)).2.2 ∧
  (if decide (array_size a = 0)
   then array_capacity (shrink_to_fit (a, w)).2.1 = 0
   else if will_allocate (Z.max 16 (array_size a)) w
   then array_capacity (shrink_to_fit (a, w)).2.1 = Z.max 16 (array_size a)
   else (shrink_to_fit (a, w)).2.1 = a ∧
        mem (shrink_to_fit (a, w)).2.2 = mem w).
Proof. apply shrink_to_fit_cases. Qed.

(** ** Failure of a growing [resize] *)

Lemma bind_assoc {S A B C} (m : M S A) (k1 : A → M S B) (k2 : B → M S C) s :
  bind (bind m k1) k2 s = bind m (λ x, bind (k1 x) k2) s.
Proof. unfold bind. by destruct (m s) as [[x|e] s']. Qed.

Lemma reserved_buffer n a w a1 w1 :
  reserved n a w a1 w1 → size (impl_ a) < n →
  0 < vec (impl_ a1) ∧ 0 ≤ size (impl_ a) ∧
  vec (impl_ a1) + capacity (impl_ a1) ≤ brk w1.
Proof.
  intros (_ & Hsz & _ & Hn & [Hi _] & _) Hlt.
  destruct Hi as [(?&?&?)|(?&?&?&?)]; lia.
Qed.

Lemma resize_value_grow_eq count v a w :
  size (impl_ a) < count →
  resize_value count v (a, w) =
    match reserve count (a, w) with
    | (Throw e, s) => (Throw e, s)
    | (Ok _, s) =>
        let start := vec (impl_ s.1) + size (impl_ s.1) in
        let r := write_run start
                   (replicate (Z.to_nat (count - size (impl_ s.1)))
                      (read_ref v)) s.2 in
        match loop_outcome r.1 (Z.to_nat (count - size (impl_ s.1))) with
        | Ok _ => (Ok tt, (with_size count s.1, r.2))
        | Throw e =>
            (Throw e,
             resize_undo_dtor (ResizeUndo (start + Z.of_nat r.1) start)
               (s.1, r.2))
        end
    end.
Proof.
  intros Hlt. unfold resize_value. unfold bind at 1. unfold this, gets.
  cbn [fst snd].
  destruct (Z.leb_spec count (size (impl_ a))); [lia|].
  unfold bind at 1.
  destruct (reserve_cases_any count a w)
    as [(a1 & w1 & e & -> & Hsz)|(a1 & w1 & -> & Hsz)]; [done|].
  unfold bind at 1. unfold this, gets. cbn [fst snd].
  unfold scope.
  set (start := vec (impl_ a1) + size (impl_ a1)).
  rewrite <- bind_assoc.
  change (resize_step v ;> repeatM ?k (resize_step v))
    with (repeatM (S k) (resize_step v)).
  unfold bind at 1.
  rewrite resize_step_loop. cbn [fst snd ru_it ru_end].
  replace (S (Z.to_nat (vec (impl_ a1) + count - (start + 1))))
    with (Z.to_nat (count - size (impl_ a1))) by (unfold start; lia).
  destruct (loop_outcome _ _) as [[]|e]; [|done].
  by munfold.
Qed.

Lemma resize_grow_eq count a w :
  size (impl_ a) < count →
  resize count (a, w) =
    match reserve count (a, w) with
    | (Throw e, s) => (Throw e, s)
    | (Ok _, s) =>
        let start := vec (impl_ s.1) + size (impl_ s.1) in
        let r := write_run start
                   (replicate (Z.to_nat (count - size (impl_ s.1)))
                      (λ _, Some kind_null)) s.2 in
        match loop_outcome r.1 (Z.to_nat (count - size (impl_ s.1))) with
        | Ok _ => (Ok tt, (with_size count s.1, r.2))
        | Throw e => (Throw e, (s.1, r.2))
        end
    end.
Proof.
  intros Hlt. unfold resize. unfold bind at 1. unfold this, gets.
  cbn [fst snd].
  destruct (Z.leb_spec count (size (impl_ a))); [lia|].
  unfold bind at 1.
  destruct (reserve_cases_any count a w)
    as [(a1 & w1 & e & -> & Hsz)|(a1 & w1 & -> & Hsz)]; [done|].
  unfold bind at 1. unfold this, gets. cbn [fst snd].
  unfold bind at 1.
  replace (vec (impl_ a1) + count - (vec (impl_ a1) + size (impl_ a1)))
    with (Z.of_nat (Z.to_nat (count - size (impl_ a1)))) by lia.
  rewrite null_fill_loop. cbn [fst snd].
  destruct (loop_outcome _ _) as [[]|e]; [|done].
  by munfold.
Qed.

Lemma rolled_back_after a w n a1 w1 w' :
  array_ok a w → reserved n a w a1 w1 → brk w' = brk w1 →
  (∀ p, p < vec (impl_ a1) + size (impl_ a) → mem w' !! p = mem w1 !! p) →
  rolled_back a w a1 w'.
Proof.
  intros Hok (Hsp & Hsz & Hcap & _ & [Hi1 Hw1] & _ & _ & Hslots & _) Hb Hlow.
  unfold rolled_back, array_size, array_capacity. split_and!; try done.
  - split; [|unfold world_ok in *; by rewrite Hb].
    unfold impl_ok in *. by rewrite Hb.
  - apply contents_eq; [done|]. intros i Hi.
    rewrite Hlow by lia. by apply Hslots.
Qed.

(** C6, as amended: a growing [resize(count, v)] that fails leaves the
    size and the element sequence as before the call, so that no new
    element is counted, and, when the memory resource asks for its objects
    to be destroyed, every new element that had been constructed is
    destroyed before the failure propagates, whatever [v] refers to.  A
    growing [resize(count)] that fails leaves the size and the element
    sequence as before the call.  Both hold when the block [reserve] asks
    for holds at most [max_size()] elements. *)
Theorem resize_failure a w count v :
  array_ok a w → 0 ≤ count → in_max_size a count →
  on_throw (resize_value count v (a, w)) (λ e s',
    rolled_back a w s'.1 s'.2 ∧
    (e = ctor_error → sp_need_free (sp_ a) = true →
     ∀ i : nat,
       (i < successes (ctor_plan w) (Z.to_nat (count - array_size a)))%nat →
       mem s'.2 !! (begin_ s'.1 + array_size a + Z.of_nat i) = None)) ∧
  on_throw (resize count (a, w)) (λ e s', rolled_back a w s'.1 s'.2).
Proof.
  unfold array_size, begin_. intros Hok Hcount0 Hfit.
  pose proof (in_max_size_lt a w count Hok Hfit) as Hcount.
  assert (Hsz0 : 0 ≤ size (impl_ a)).
  { destruct Hok as [[(?&?&?)|(?&?&?&?)] _]; lia. }
  destruct (Z.le_gt_cases count (size (impl_ a))) as [Hle|Hgt].
  { unfold on_throw, resize_value, resize. munfold.
    destruct (Z.leb_spec count (size (impl_ a))); [|lia].
    rewrite !destroy_eq. done. }
  split.
  - rewrite resize_value_grow_eq by lia. unfold on_throw.
    destruct (reserve_cases count a w Hok)
      as [(w1 & -> & Hf)|(a1 & w1 & -> & Hr)]; cbn [fst snd].
    { split; [by apply rolled_back_refl|done]. }
    pose proof (reserved_buffer _ _ _ _ _ Hr ltac:(lia)) as (Hv1 & _ & Hb1).
    pose proof Hr as (Hsp & Hsz & _ & _ & _ & Hpl & _).
    rewrite Hsz.
    set (start := vec (impl_ a1) + size (impl_ a)).
    set (k := Z.to_nat (count - size (impl_ a))).
    pose proof (write_run_spec (replicate k (read_ref v)) start w1)
      as (Hj & Hsucc & Hb & _ & Hfr & _).
    rewrite length_replicate in Hj, Hsucc.
    destruct (write_run start (replicate k (read_ref v)) w1) as [j w2].
    cbn [fst snd] in *.
    unfold loop_outcome. destruct (decide (j = k)) as [->|Hjk]; [done|].
    cbn [fst snd]. unfold resize_undo_dtor. cbn [ru_it ru_end].
    destruct (Z.eqb_spec (start + Z.of_nat j) 0); [lia|].
    cbn [negb]. rewrite destroy_eq. cbn [fst snd]. rewrite Hsp.
    split.
    + eapply rolled_back_after; [done..| |].
      * by destruct (sp_need_free (sp_ a)).
      * intros p Hp. fold start in Hp.
        destruct (sp_need_free (sp_ a)); simpl.
        -- rewrite destroy_loop_lookup, decide_False by lia.
           apply Hfr. lia.
        -- apply Hfr. lia.
    + intros _ Hnf i Hi. rewrite Hnf. simpl.
      rewrite destroy_loop_lookup. fold start.
      rewrite decide_True; [done|]. rewrite <- Hpl, <- Hsucc in Hi. lia.
  - rewrite resize_grow_eq by lia. unfold on_throw.
    destruct (reserve_cases count a w Hok)
      as [(w1 & -> & Hf)|(a1 & w1 & -> & Hr)]; cbn [fst snd].
    { by apply rolled_back_refl. }
    pose proof Hr as (Hsp & Hsz & _).
    rewrite Hsz.
    set (start := vec (impl_ a1) + size (impl_ a)).
    set (k := Z.to_nat (count - size (impl_ a))).
    pose proof (write_run_spec (replicate k (λ _, Some kind_null)) start w1)
      as (Hj & Hsucc & Hb & _ & Hfr & _).
    destruct (write_run start (replicate k (λ _, Some kind_null)) w1)
      as [j w2].
    cbn [fst snd] in *.
    destruct (loop_outcome j k) as [[]|e]; [done|]. cbn [fst snd].
    eapply rolled_back_after; [done..|].
    intros p Hp. apply Hfr. fold start in Hp. lia.
Qed.

(** ** Copy construction *)

Lemma impl_ok_mono i w w' : impl_ok i w → brk w ≤ brk w' → impl_ok i w'.
Proof. unfold impl_ok. intros [?|(?&?&?&?)] ?; [by left|right]. lia. Qed.

Lemma array_ok_empty sp w : world_ok w → array_ok (array_sp sp) w.
Proof. intros Hw. split; [by left|done]. Qed.

Lemma copy_other_eq o a w :
  copy (Other o) (a, w) =
    match reserve (size (impl_ o)) (a, w) with
    | (Throw e, s) => (Throw e, s)
    | (Ok _, s) =>
        forM (seqZ (vec (impl_ o)) (size (impl_ o))) (λ src,
          let* a := this in
          on_world (construct_copy (vec (impl_ a) + size (impl_ a)) src) ;>
          put_size (wrap (size (impl_ a) + 1))) s
    end.
Proof.
  unfold copy, deref. munfold.
  by destruct (reserve (size (impl_ o)) (a, w)) as [[[]|e] s].
Qed.

Lemma copy_body_eq src a w :
  (let* a := this in
   on_world (construct_copy (vec (impl_ a) + size (impl_ a)) src) ;>
   put_size (wrap (size (impl_ a) + 1))) (a, w) =
  match ctor_plan w with
  | false :: pl =>
      (Throw ctor_error, (a, World (mem w) (brk w) (alloc_plan w) pl))
  | pl =>
      (Ok tt,
       (with_size (wrap (size (impl_ a) + 1)) a,
        World (partial_alter (λ _, mem w !! src)
                 (vec (impl_ a) + size (impl_ a)) (mem w))
          (brk w) (alloc_plan w) (tail pl)))
  end.
Proof.
  unfold construct_copy, construct_slot. munfold.
  by destruct (ctor_plan w) as [|[] pl].
Qed.

Lemma push_body_eq v a w :
  (let* a := this in
   on_world (construct_at (vec (impl_ a) + size (impl_ a)) v) ;>
   put_size (wrap (size (impl_ a) + 1))) (a, w) =
  match ctor_plan w with
  | false :: pl =>
      (Throw ctor_error, (a, World (mem w) (brk w) (alloc_plan w) pl))
  | pl =>
      (Ok tt,
       (with_size (wrap (size (impl_ a) + 1)) a,
        World (partial_alter (λ _, Some v)
                 (vec (impl_ a) + size (impl_ a)) (mem w))
          (brk w) (alloc_plan w) (tail pl)))
  end.
Proof.
  unfold construct_at, construct_slot. munfold.
  by destruct (ctor_plan w) as [|[] pl].
Qed.

(** The constructor guard: a body that returns is committed, one that
    throws has its descriptor torn down. *)
Lemma new_object_guarded_eq sp (body : M st unit) w :
  new_object (array_sp sp)
    (scope false (outer body ;> commit_create) undo_create_dtor) w =
  match body (array_sp sp, w) with
  | (Ok _, s) => (Ok s.1, s.2)
  | (Throw e, s) => (Throw e, (impl_destroy (sp_ s.1) (impl_ s.1) s.2).2)
  end.
Proof.
  unfold new_object, scope, bind, outer, commit_create, modify,
    undo_create_dtor.
  cbn [fst snd].
  by destruct (body (array_sp sp, w)) as [[[]|e] [a' w']].
Qed.

Lemma new_object_guarded2_eq sp (b1 b2 : M st unit) w :
  new_object (array_sp sp)
    (scope false (outer b1 ;> outer b2 ;> commit_create) undo_create_dtor) w =
  match (b1 ;> b2) (array_sp sp, w) with
  | (Ok _, s) => (Ok s.1, s.2)
  | (Throw e, s) => (Throw e, (impl_destroy (sp_ s.1) (impl_ s.1) s.2).2)
  end.
Proof.
  unfold new_object, scope, bind, outer, commit_create, modify,
    undo_create_dtor.
  cbn [fst snd].
  destruct (b1 (array_sp sp, w)) as [[[]|e] [a1 w1]]; [|done].
  cbn [fst snd].
  by destruct (b2 (a1, w1)) as [[[]|e] [a2 w2]].
Qed.

Lemma array_copy_sp_cases o sp w :
  array_ok o w →
  match array_copy_sp o sp w with
  | (Ok a', w') => copied o sp w a' w'
  | (Throw _, w') => construction_failed w w'
  end.
Proof.
  intros [Ho Hw]. unfold array_copy_sp.
  rewrite new_object_guarded_eq, copy_other_eq.
  pose proof heap_limit_double. pose proof modulus_pos.
  assert (Hso : 0 ≤ size (impl_ o) ∧ size (impl_ o) < modulus ∧
                vec (impl_ o) + size (impl_ o) ≤ brk w).
  { unfold world_ok in Hw. destruct Ho as [(?&?&?)|(?&?&?&?)]; lia. }
  destruct (reserve_cases (size (impl_ o)) (array_sp sp) w
              (array_ok_empty sp w Hw))
    as [(w1 & -> & Hm & Hb & _)|(a1 & w1 & -> & Hr)].
  { cbn [fst snd array_sp sp_ impl_].
    pose proof (impl_destroy_world sp impl_empty w1 ltac:(done))
      as (Hdb & _ & _ & Hlook).
    unfold construction_failed, world_ok in *. rewrite Hdb, Hb.
    split_and!; try lia. intros p Hp. rewrite Hlook.
    rewrite decide_False by (intros [? _]; done). by rewrite Hm. }
  destruct Hr as (Hsp & Hsz & _ & Hcap & [Hi1 Hw1] & _ & Hb1 & _ & Hfr1 & Hfresh).
  simpl in Hsp, Hsz, Hfr1, Hfresh.
  rewrite (push_loop _ (λ src m, m !! src) copy_body_eq)
    by (rewrite ?length_seqZ; lia).
  rewrite Hsz, Z.add_0_r. cbn zeta.
  set (l := seqZ (vec (impl_ o)) (size (impl_ o))).
  pose proof (write_run_spec ((λ src m, m !! src) <$> l) (vec (impl_ a1)) w1)
    as (Hj & _ & Hb2 & _ & Hfr2 & Hel).
  rewrite length_fmap in Hj, Hel.
  assert (Hlen : length l = Z.to_nat (size (impl_ o))) by apply length_seqZ.
  destruct (write_run (vec (impl_ a1)) _ w1) as [j w2]. cbn [fst snd] in *.
  assert (Hlow : ∀ p, p < brk w → mem w2 !! p = mem w !! p).
  { intros p Hp. rewrite Hfr2, Hfr1; [done|lia..|].
    destruct Hfresh as [[-> ->]|[Hv _]]; [|lia].
    destruct Hi1 as [(Hv&?&?)|(?&?&?&?)]; simpl in *; lia. }
  unfold loop_outcome. destruct (decide (j = length l)) as [->|Hjl].
  - cbn [fst snd]. unfold copied. simpl. rewrite Z.add_0_l.
    split_and!; try done; try lia.
    + split; [|unfold world_ok in *; lia].
      destruct Hi1 as [(?&?&?)|(?&?&?&?)]; [left|right]; simpl; lia.
    + destruct Hfresh as [[-> ->]|[Hv _]]; [by left|right; lia].
    + intros i Hi.
      assert (Hin : l !! Z.to_nat i = Some (vec (impl_ o) + i)).
      { unfold l. rewrite lookup_seqZ. split; lia. }
      replace i with (Z.of_nat (Z.to_nat i)) at 1 by lia.
      rewrite (Hel (Z.to_nat i) (λ m, m !! (vec (impl_ o) + i))).
      * apply Hfr1; lia.
      * by rewrite list_lookup_fmap, Hin.
      * lia.
      * intros m Hm. apply Hm.
        destruct Hfresh as [[-> ->]|[Hv _]]; [simpl in *; lia|lia].
  - cbn [fst snd]. simpl.
    match goal with |- context [impl_destroy ?sp0 ?i ?w0] =>
      pose proof (impl_destroy_world sp0 i w0) as (Hdb & _ & _ & Hlook)
    end.
    { simpl. destruct Hi1 as [(?&?&?)|(?&?&?&?)]; lia. }
    simpl in Hlook.
    unfold construction_failed, world_ok in *. rewrite Hdb.
    split_and!; try lia. intros p Hp. rewrite Hlook.
    rewrite decide_False; [by apply Hlow|].
    intros [_ ?].
    destruct Hfresh as [[-> ->]|[Hv _]]; [simpl in *; lia|lia].
Qed.

(** ** [swap] *)

Lemma sp_equal_sym sp1 sp2 : sp_equal sp1 sp2 = sp_equal sp2 sp1.
Proof.
  destruct sp1 as [s1|], sp2 as [s2|]; simpl; try done.
  apply bool_decide_ext. naive_solver.
Qed.

Lemma array_move_sp_eq sp o w :
  array_move_sp sp (o, w) =
    if sp_equal sp (sp_ o)
    then (Ok (Array sp (impl_ o)), (set_impl impl_empty o, w))
    else match array_copy_sp o sp w with (r, w') => (r, (o, w')) end.
Proof.
  unfold array_move_sp. munfold. by destruct (sp_equal sp (sp_ o)).
Qed.

Lemma array_dtor_world a w :
  array_ok a w →
  brk (array_dtor a w) = brk w ∧
  ∀ p, ¬ (vec (impl_ a) ≤ p < vec (impl_ a) + capacity (impl_ a)) →
       mem (array_dtor a w) !! p = mem w !! p.
Proof.
  intros [Hi _]. unfold array_dtor.
  destruct (impl_destroy_world (sp_ a) (impl_ a) w) as (Hb & _ & _ & Hl).
  { destruct Hi as [(?&?&?)|(?&?&?&?)]; lia. }
  split; [done|]. intros p Hp. rewrite Hl.
  by rewrite decide_False by (intros [_ ?]; done).
Qed.

Lemma array_dtor_pilfered w : array_dtor (Array None impl_empty) w = w.
Proof. unfold array_dtor. by rewrite impl_destroy_null. Qed.

Lemma swap_cases a b w :
  array_ok a w → array_ok b w →
  array_ok (swap a b w).2.1.1 (swap a b w).2.2 ∧
  array_ok (swap a b w).2.1.2 (swap a b w).2.2 ∧
  if sp_equal (sp_ a) (sp_ b)
  then swap a b w = (Ok tt, (set_impl (impl_ b) a, set_impl (impl_ a) b, w))
  else on_return (swap a b w) (λ _ t,
         sp_ t.1.1 = sp_ a ∧ sp_ t.1.2 = sp_ b ∧
         array_size t.1.1 = array_size b ∧ array_size t.1.2 = array_size a ∧
         contents t.1.1 t.2 = contents b w ∧
         contents t.1.2 t.2 = contents a w).
Proof.
  intros Ha Hb. unfold swap.
  destruct (sp_equal (sp_ a) (sp_ b)) eqn:Heq.
  { destruct Ha as [? ?], Hb as [? ?]. by split_and!. }
  rewrite array_move_sp_eq, (sp_equal_sym (sp_ b)), Heq.
  pose proof (array_copy_sp_cases a (sp_ b) w Ha) as H1.
  destruct (array_copy_sp a (sp_ b) w) as [[temp1|e] w1]; cbn [fst snd].
  2:{ destruct H1 as (Hw1 & Hb1 & _). destruct Ha as [Ha _], Hb as [Hb _].
    unfold on_return. cbn [fst snd].
    split_and!; try done; split; try done; by eapply impl_ok_mono. }
  destruct H1 as (Hsp1 & Hsz1 & Hok1 & Hb1 & Hfresh1 & Hslots1 & Hlow1).
  assert (Hb' : array_ok b w1).
  { destruct Hb as [Hb _], Hok1 as [_ ?]. split; [|done].
    by eapply impl_ok_mono. }
  rewrite array_move_sp_eq, Heq.
  pose proof (array_copy_sp_cases b (sp_ a) w1 Hb') as H2.
  destruct (array_copy_sp b (sp_ a) w1) as [[temp2|e] w2]; cbn [fst snd].
  2:{ destruct H2 as (Hw2 & Hb2 & _).
    assert (Ht1 : array_ok temp1 w2).
    { destruct Hok1 as [? _]. split; [|done]. by eapply impl_ok_mono. }
    destruct (array_dtor_world temp1 w2 Ht1) as [Hdb _].
    destruct Ha as [Ha _], Hb as [Hb _].
    unfold on_return. cbn [fst snd].
    split_and!; try done; split;
      try (eapply impl_ok_mono; [done|lia]);
      unfold world_ok in *; lia. }
  destruct H2 as (Hsp2 & Hsz2 & Hok2 & Hb2 & Hfresh2 & Hslots2 & Hlow2).
  unfold array_pilfer. cbn [fst snd]. rewrite !array_dtor_pilfered.
  assert (Ha2 : array_ok a w2).
  { destruct Ha as [Ha _], Hok2 as [_ ?]. split; [|done].
    eapply impl_ok_mono; [done|lia]. }
  destruct (array_dtor_world a w2 Ha2) as [Hdb3 Hl3].
  assert (Hb3 : array_ok b (array_dtor a w2)).
  { destruct Hb as [Hb _], Hok2 as [_ ?]. split.
    - eapply impl_ok_mono; [done|lia].
    - unfold world_ok in *. lia. }
  destruct (array_dtor_world b _ Hb3) as [Hdb4 Hl4].
  assert (Hbuf : ∀ c : array, array_ok c w →
    0 ≤ size (impl_ c) ∧ vec (impl_ c) + capacity (impl_ c) ≤ brk w ∧
    size (impl_ c) ≤ capacity (impl_ c) ∧ 0 ≤ vec (impl_ c)).
  { intros c [[(?&?&?)|(?&?&?&?)] [? _]]; lia. }
  pose proof (Hbuf a Ha) as (? & ? & ? & ?).
  pose proof (Hbuf b Hb) as (? & ? & ? & ?).
  assert (Hfinal : ∀ p, brk w ≤ p →
    mem (array_dtor b (array_dtor a w2)) !! p = mem w2 !! p).
  { intros p Hp. rewrite Hl4, Hl3; [done|lia..]. }
  unfold on_return. cbn [fst snd].
  split_and!; try done.
  - destruct Hok2 as [? ?]. split.
    + eapply impl_ok_mono; [done|lia].
    + unfold world_ok in *. lia.
  - destruct Hok1 as [? ?], Hok2 as [_ ?]. split.
    + eapply impl_ok_mono; [done|lia].
    + unfold world_ok in *. lia.
  - apply contents_eq; [done|]. simpl. intros i Hi.
    destruct Hfresh2 as [Hz|Hge].
    { destruct Hok2 as [[(?&?&?)|(?&?&?&?)] _]; lia. }
    rewrite Hfinal by lia. rewrite Hslots2 by done.
    apply Hlow1. lia.
  - apply contents_eq; [done|]. simpl. intros i Hi.
    destruct Hfresh1 as [Hz|Hge].
    { destruct Hok1 as [[(?&?&?)|(?&?&?&?)] _]; lia. }
    rewrite Hfinal by lia.
    rewrite Hlow2.
    + by apply Hslots1.
    + destruct Hok1 as [[(?&?&?)|(?&?&?&?)] _]; lia.
Qed.

(** ** The descriptor invariant through every member function *)

Lemma array_ok_brk a w w' : array_ok a w → brk w' = brk w → array_ok a w'.
Proof.
  intros [Hi Hw] Hb. split.
  - unfold impl_ok in *. by rewrite Hb.
  - unfold world_ok in *. by rewrite Hb.
Qed.


Lemma array_ok_with_size n a w :
  array_ok a w → 0 ≤ n ≤ capacity (impl_ a) → array_ok (with_size n a) w.
Proof.
  intros [Hi Hw] Hn. split; [|done]. unfold impl_ok in *. simpl.
  destruct Hi as [(?&?&?)|(?&?&?&?)]; [left|right]; lia.
Qed.

Lemma array_ok_size a w :
  array_ok a w → 0 ≤ size (impl_ a) ≤ capacity (impl_ a) ∧
                 capacity (impl_ a) < heap_limit.
Proof.
  intros [[(?&?&?)|(?&?&?&?)] [? ?]]; lia.
Qed.

Lemma destroy_ok first last a w :
  array_ok a w →
  array_ok (destroy first last (a, w)).2.1 (destroy first last (a, w)).2.2.
Proof.
  intros Hok. rewrite destroy_eq. cbn [fst snd].
  eapply array_ok_brk; [done|]. by destruct (sp_need_free (sp_ a)).
Qed.

Lemma reserve_ok n a w :
  array_ok a w →
  (array_ok (reserve n (a, w)).2.1 (reserve n (a, w)).2.2 ∧
   brk w ≤ brk (reserve n (a, w)).2.2) ∧
  on_return (reserve n (a, w)) (λ _ s,
    n ≤ capacity (impl_ s.1) ∧ size (impl_ s.1) = size (impl_ a) ∧
    sp_ s.1 = sp_ a ∧ capacity (impl_ a) ≤ capacity (impl_ s.1)).
Proof.
  intros Hok. unfold on_return.
  destruct (reserve_cases n a w Hok)
    as [(w' & -> & Hf)|(a' & w' & -> & Hr)]; cbn [fst snd].
  - split; [|done]. destruct Hf as (_ & Hb & _).
    split; [by eapply array_ok_brk|lia].
  - by destruct Hr as (? & ? & ? & ? & ? & _ & ? & _).
Qed.

Lemma undo_insert_ctor_eq pos n a w :
  undo_insert_ctor pos n (a, w) =
    if max_size <? n then (Throw length_error, (a, w))
    else match reserve (wrap (size (impl_ a) + wrap n)) (a, w) with
         | (Throw e, s) => (Throw e, s)
         | (Ok _, s) =>
             let it := vec (impl_ s.1) + index_of (impl_ a) pos in
             (Ok (UndoInsert it (index_of (impl_ a) pos) (wrap n) false),
              (with_size (wrap (size (impl_ s.1) + wrap n)) s.1,
               set_mem (relocate (it + wrap n) it
                          (wrap (size (impl_ s.1) - index_of (impl_ a) pos)))
                 s.2))
         end.
Proof.
  unfold undo_insert_ctor. munfold.
  destruct (max_size <? n); [done|].
  by destruct (reserve _ (a, w)) as [[[]|e] [a1 w1]].
Qed.

Lemma wrap_sub_wrap x y : wrap (wrap x - y) = wrap (x - y).
Proof. unfold wrap. apply Zminus_mod_idemp_l. Qed.

Lemma insert_seq_ok pos n l a w :
  array_ok a w →
  array_ok (insert_seq pos n l (a, w)).2.1 (insert_seq pos n l (a, w)).2.2.
Proof.
  intros Hok.
  destruct (insert_seq pos n l (a, w)) as [r [a' w']] eqn:E. cbn [fst snd].
  unfold insert_seq in E. unfold bind at 1 in E.
  rewrite undo_insert_ctor_eq in E.
  destruct (max_size <? n); [by injection E as <- <- <-|].
  pose proof (reserve_ok (wrap (size (impl_ a) + wrap n)) a w Hok)
    as [[Hok1 _] Hret].
  unfold on_return in Hret.
  destruct (reserve _ (a, w)) as [[[]|e] [a1 w1]]; cbn [fst snd] in *;
    [|by injection E as <- <- <-].
  destruct Hret as (Hcap & Hsz & _ & Hcap1).
  set (X := wrap (size (impl_ a) + wrap n)) in *.
  pose proof (wrap_range (size (impl_ a) + wrap n)) as HX. fold X in HX.
  rewrite Hsz in E. fold X in E.
  unfold scope in E. unfold bind at 1 in E.
  match type of E with context [forM l emplace (?u, (?a2, ?w2))] =>
    destruct (emplace_loop l u a2 w2) as (j & w3 & Hloop & Hj & Hb3 & _)
  end.
  rewrite Hloop in E. clear Hloop.
  simpl in Hb3.
  assert (Hok3 : array_ok a1 w3) by (by eapply array_ok_brk).
  destruct (decide (j = length l)); cbn [fst snd] in E.
  { munfold. injection E as <- <- <-.
    apply array_ok_with_size; [done|lia]. }
  injection E as <- <- <-.
  unfold undo_insert_dtor. cbn [ui_commit ui_it ui_pos ui_n fst snd].
  rewrite destroy_eq. cbn [fst snd impl_ with_size set_impl size impl_set_size].
  unfold X. rewrite wrap_sub_wrap.
  replace (size (impl_ a) + wrap n - wrap n) with (size (impl_ a)) by lia.
  pose proof (array_ok_size a w Hok) as [Hs Hc].
  pose proof heap_limit_double.
  rewrite (wrap_small (size (impl_ a))) by lia.
  apply (array_ok_brk _ w3).
  - apply (array_ok_with_size (size (impl_ a)) a1 w3); [exact Hok3|lia].
  - simpl. by destruct (sp_need_free (sp_ a1)).
Qed.

Lemma shrink_to_fit_ok a w :
  array_ok a w →
  array_ok (shrink_to_fit (a, w)).2.1 (shrink_to_fit (a, w)).2.2.
Proof.
  intros Hok.
  destruct (Z.le_gt_cases (capacity (impl_ a)) (size (impl_ a))) as [Hle|Hgt].
  - rewrite shrink_to_fit_eq.
    by destruct (Z.leb_spec (capacity (impl_ a)) (size (impl_ a))); [|lia].
  - apply shrink_to_fit_cases; [done|]. unfold array_size, array_capacity. lia.
Qed.

Lemma clear_ok a w :
  array_ok a w → array_ok (clear (a, w)).2.1 (clear (a, w)).2.2.
Proof.
  intros Hok. unfold clear. munfold.
  destruct (vec (impl_ a) =? 0); [done|].
  rewrite destroy_eq. cbn [fst snd].
  pose proof (array_ok_size a w Hok) as [Hs _].
  apply (array_ok_brk _ w).
  - apply (array_ok_with_size 0 a w); [done|lia].
  - by destruct (sp_need_free (sp_ a)).
Qed.

Lemma erase_ok i a w :
  array_ok a w → 0 ≤ i < size (impl_ a) →
  array_ok (erase (vec (impl_ a) + i) (a, w)).2.1
           (erase (vec (impl_ a) + i) (a, w)).2.2.
Proof.
  intros Hok Hi. unfold erase. munfold. rewrite destroy_eq. cbn [fst snd].
  pose proof (array_ok_size a w Hok) as [Hs Hc].
  pose proof heap_limit_double.
  rewrite wrap_small by lia.
  apply (array_ok_brk _ w).
  - apply (array_ok_with_size _ a w); [done|lia].
  - simpl. by destruct (sp_need_free (sp_ a)).
Qed.

Lemma erase_between_ok i j a w :
  array_ok a w → 0 ≤ i → i ≤ j → j ≤ size (impl_ a) →
  array_ok (erase_between (vec (impl_ a) + i) (vec (impl_ a) + j) (a, w)).2.1
           (erase_between (vec (impl_ a) + i) (vec (impl_ a) + j) (a, w)).2.2.
Proof.
  intros Hok Hi Hij Hj. unfold erase_between. munfold.
  rewrite destroy_eq. cbn [fst snd].
  pose proof (array_ok_size a w Hok) as [Hs Hc].
  pose proof heap_limit_double.
  replace (vec (impl_ a) + j - (vec (impl_ a) + i)) with (j - i) by lia.
  rewrite (wrap_small (j - i)) by lia.
  rewrite (wrap_small (size (impl_ a) - (j - i))) by lia.
  apply (array_ok_brk _ w).
  - apply (array_ok_with_size _ a w); [done|lia].
  - simpl. by destruct (sp_need_free (sp_ a)).
Qed.

Lemma pop_back_ok a w :
  array_ok a w → 0 < size (impl_ a) →
  array_ok (pop_back (a, w)).2.1 (pop_back (a, w)).2.2.
Proof.
  intros Hok Hi. unfold pop_back. munfold. rewrite destroy_eq. cbn [fst snd].
  pose proof (array_ok_size a w Hok) as [Hs Hc].
  pose proof heap_limit_double.
  rewrite wrap_small by lia.
  apply (array_ok_brk _ w).
  - apply (array_ok_with_size _ a w); [done|lia].
  - simpl. by destruct (sp_need_free (sp_ a)).
Qed.

Lemma write_run_brk p l w : brk (write_run p l w).2 = brk w.
Proof. by destruct (write_run_spec l p w) as (_ & _ & ? & _). Qed.

Lemma resize_shrink_ok count a w :
  array_ok a w → 0 ≤ count ≤ size (impl_ a) →
  array_ok (resize count (a, w)).2.1 (resize count (a, w)).2.2 ∧
  array_ok (resize_value count (ByValue kind_null) (a, w)).2.1
           (resize_value count (ByValue kind_null) (a, w)).2.2.
Proof.
  intros Hok Hc. unfold resize, resize_value. munfold.
  destruct (Z.leb_spec count (size (impl_ a))); [|lia].
  rewrite destroy_eq. cbn [fst snd].
  pose proof (array_ok_size a w Hok) as [Hs _].
  split; (apply (array_ok_brk _ w);
    [apply (array_ok_with_size _ a w); [done|lia]
    |by destruct (sp_need_free (sp_ a))]).
Qed.

Lemma resize_ok count a w :
  array_ok a w → 0 ≤ count →
  array_ok (resize count (a, w)).2.1 (resize count (a, w)).2.2.
Proof.
  intros Hok Hc.
  destruct (Z.le_gt_cases count (size (impl_ a))) as [Hle|Hgt].
  { by apply resize_shrink_ok. }
  rewrite resize_grow_eq by lia.
  pose proof (reserve_ok count a w Hok) as [[Hok1 _] Hret].
  unfold on_return in Hret.
  destruct (reserve count (a, w)) as [[[]|e] [a1 w1]]; cbn [fst snd] in *;
    [|done].
  destruct Hret as (Hcap & Hsz & _).
  match goal with |- context [write_run ?p ?l w1] =>
    pose proof (write_run_brk p l w1) as Hb;
    destruct (write_run p l w1) as [j w2]
  end.
  cbn [fst snd] in *.
  destruct (loop_outcome _ _); cbn [fst snd].
  - apply (array_ok_brk _ w1); [|done].
    apply array_ok_with_size; [done|lia].
  - by apply (array_ok_brk _ w1).
Qed.

Lemma resize_value_ok count v a w :
  array_ok a w → 0 ≤ count →
  array_ok (resize_value count v (a, w)).2.1
           (resize_value count v (a, w)).2.2.
Proof.
  intros Hok Hc.
  destruct (Z.le_gt_cases count (size (impl_ a))) as [Hle|Hgt].
  { unfold resize_value. munfold.
    destruct (Z.leb_spec count (size (impl_ a))); [|lia].
    rewrite destroy_eq. cbn [fst snd].
    pose proof (array_ok_size a w Hok) as [Hs _].
    apply (array_ok_brk _ w);
      [apply (array_ok_with_size _ a w); [done|lia]
      |by destruct (sp_need_free (sp_ a))]. }
  rewrite resize_value_grow_eq by lia.
  pose proof (reserve_ok count a w Hok) as [[Hok1 _] Hret].
  unfold on_return in Hret.
  destruct (reserve count (a, w)) as [[[]|e] [a1 w1]]; cbn [fst snd] in *;
    [|done].
  destruct Hret as (Hcap & Hsz & _).
  match goal with |- context [write_run ?p ?l w1] =>
    pose proof (write_run_brk p l w1) as Hb;
    destruct (write_run p l w1) as [j w2]
  end.
  cbn [fst snd] in *.
  destruct (loop_outcome _ _); cbn [fst snd].
  - apply (array_ok_brk _ w1); [|done].
    apply array_ok_with_size; [done|lia].
  - unfold resize_undo_dtor. cbn [ru_it ru_end].
    destruct (negb _); [|by apply (array_ok_brk _ w1)].
    rewrite destroy_eq. cbn [fst snd].
    apply (array_ok_brk _ w1); [done|].
    by destruct (sp_need_free (sp_ a1)).
Qed.

(** The three loops that fill an empty container. *)
Lemma copy_ok o a w :
  array_ok a w → size (impl_ a) = 0 → array_ok o w →
  array_ok (copy (Other o) (a, w)).2.1 (copy (Other o) (a, w)).2.2 ∧
  brk w ≤ brk (copy (Other o) (a, w)).2.2.
Proof.
  intros Hok Hz Ho. rewrite copy_other_eq.
  pose proof (reserve_ok (size (impl_ o)) a w Hok) as [[Hok1 Hb1] Hret].
  unfold on_return in Hret.
  destruct (reserve _ (a, w)) as [[[]|e] [a1 w1]]; cbn [fst snd] in *;
    [|done].
  destruct Hret as (Hcap & Hsz & _).
  pose proof (array_ok_size o w Ho) as [Hso Hco].
  pose proof heap_limit_double.
  rewrite (push_loop _ (λ src m, m !! src) copy_body_eq)
    by (rewrite ?length_seqZ; lia).
  cbn zeta.
  match goal with |- context [write_run ?p ?l w1] =>
    pose proof (write_run_brk p l w1) as Hb;
    destruct (write_run_spec l p w1) as (Hj & _);
    destruct (write_run p l w1) as [j w2]
  end.
  rewrite length_fmap, length_seqZ in Hj. cbn [fst snd] in *.
  split; [|lia].
  apply (array_ok_brk _ w1); [|done].
  apply array_ok_with_size; [done|lia].
Qed.

Lemma copy_self_empty a w :
  size (impl_ a) = 0 → 0 ≤ capacity (impl_ a) →
  copy Self (a, w) = (Ok tt, (a, w)).
Proof.
  intros Hz Hc. unfold copy, deref. unfold bind at 1. unfold this, gets.
  cbn [fst snd]. unfold bind at 1. rewrite reserve_eq, Hz.
  destruct (Z.leb_spec 0 (capacity (impl_ a))); [|lia].
  unfold bind at 1. cbn [fst snd]. by rewrite Hz.
Qed.

Lemma copy_init_eq init a w :
  copy_init init (a, w) =
    if max_size <? Z.of_nat (length init) then (Throw length_error, (a, w))
    else match reserve (wrap (Z.of_nat (length init))) (a, w) with
         | (Throw e, s) => (Throw e, s)
         | (Ok _, s) =>
             forM init (λ v,
               let* a := this in
               on_world (construct_at (vec (impl_ a) + size (impl_ a)) v) ;>
               put_size (wrap (size (impl_ a) + 1))) s
         end.
Proof.
  unfold copy_init. destruct (max_size <? Z.of_nat (length init)); [done|].
  unfold bind at 1. by destruct (reserve _ (a, w)) as [[[]|e] s].
Qed.

Lemma copy_init_ok init a w :
  array_ok a w → size (impl_ a) = 0 →
  array_ok (copy_init init (a, w)).2.1 (copy_init init (a, w)).2.2 ∧
  brk w ≤ brk (copy_init init (a, w)).2.2.
Proof.
  intros Hok Hz. rewrite copy_init_eq.
  destruct (Z.ltb_spec max_size (Z.of_nat (length init))) as [|Hlen].
  { split; [done|]. simpl. lia. }
  pose proof max_size_lt.
  rewrite wrap_small by lia.
  pose proof (reserve_ok (Z.of_nat (length init)) a w Hok)
    as [[Hok1 Hb1] Hret].
  unfold on_return in Hret.
  destruct (reserve _ (a, w)) as [[[]|e] [a1 w1]]; cbn [fst snd] in *;
    [|done].
  destruct Hret as (Hcap & Hsz & _).
  rewrite (push_loop _ (λ v _, Some v) push_body_eq) by lia.
  cbn zeta.
  match goal with |- context [write_run ?p ?l w1] =>
    pose proof (write_run_brk p l w1) as Hb;
    destruct (write_run_spec l p w1) as (Hj & _);
    destruct (write_run p l w1) as [j w2]
  end.
  rewrite length_fmap in Hj. cbn [fst snd] in *.
  split; [|lia].
  apply (array_ok_brk _ w1); [|done].
  apply array_ok_with_size; [done|lia].
Qed.

Lemma fill_eq count v a w :
  (reserve count ;> fill_loop count v) (a, w) =
    match reserve count (a, w) with
    | (Throw e, s) => (Throw e, s)
    | (Ok _, s) =>
        forM (replicate (Z.to_nat (count - size (impl_ s.1))) v) (λ v,
          let* a := this in
          on_world (construct_at (vec (impl_ a) + size (impl_ a)) v) ;>
          put_size (wrap (size (impl_ a) + 1))) s
    end.
Proof.
  unfold bind at 1. destruct (reserve _ (a, w)) as [[[]|e] [a1 w1]]; [|done].
  unfold fill_loop. unfold bind at 1. unfold this, gets. cbn [fst snd].
  apply (forM_repeatM _ v (λ v,
    let* a := gets fst in
    on_world (construct_at (vec (impl_ a) + size (impl_ a)) v) ;>
    put_size (wrap (size (impl_ a) + 1)))).
Qed.

Lemma fill_ok count v a w :
  array_ok a w → size (impl_ a) = 0 → 0 ≤ count < modulus →
  array_ok ((reserve count ;> fill_loop count v) (a, w)).2.1
           ((reserve count ;> fill_loop count v) (a, w)).2.2 ∧
  brk w ≤ brk ((reserve count ;> fill_loop count v) (a, w)).2.2.
Proof.
  intros Hok Hz Hc. rewrite fill_eq.
  pose proof (reserve_ok count a w Hok) as [[Hok1 Hb1] Hret].
  unfold on_return in Hret.
  destruct (reserve _ (a, w)) as [[[]|e] [a1 w1]]; cbn [fst snd] in *;
    [|done].
  destruct Hret as (Hcap & Hsz & _).
  rewrite (push_loop _ (λ v _, Some v) push_body_eq)
    by (rewrite ?length_replicate; lia).
  cbn zeta.
  match goal with |- context [write_run ?p ?l w1] =>
    pose proof (write_run_brk p l w1) as Hb;
    destruct (write_run_spec l p w1) as (Hj & _);
    destruct (write_run p l w1) as [j w2]
  end.
  rewrite length_fmap, length_replicate in Hj. cbn [fst snd] in *.
  split; [|lia].
  apply (array_ok_brk _ w1); [|done].
  apply array_ok_with_size; [done|lia].
Qed.

(** Assignment under [undo_assign]. *)
Lemma assign_scope_eq (body : M st unit) a w :
  (let* u := undo_assign_ctor in
   scope u (outer body ;> commit_assign) undo_assign_dtor) (a, w) =
  match body (set_impl impl_empty a, w) with
  | (Ok _, s) => (Ok tt, (s.1, (impl_destroy (sp_ s.1) (impl_ a) s.2).2))
  | (Throw e, s) =>
      (Throw e, (set_impl (impl_ a) s.1,
                 (impl_destroy (sp_ s.1) (impl_ s.1) s.2).2))
  end.
Proof.
  unfold undo_assign_ctor, scope, bind, outer, commit_assign, put_impl,
    modify, undo_assign_dtor, this, gets, ret, impl_move, impl_swap.
  cbn [fst snd ua_impl ua_commit].
  by destruct (body (set_impl impl_empty a, w)) as [[[]|e] [a' w']].
Qed.

Lemma assign_scope_ok (body : M st unit) a w :
  array_ok a w →
  array_ok (body (set_impl impl_empty a, w)).2.1
           (body (set_impl impl_empty a, w)).2.2 ∧
  brk w ≤ brk (body (set_impl impl_empty a, w)).2.2 →
  array_ok
    ((let* u := undo_assign_ctor in
      scope u (outer body ;> commit_assign) undo_assign_dtor) (a, w)).2.1
    ((let* u := undo_assign_ctor in
      scope u (outer body ;> commit_assign) undo_assign_dtor) (a, w)).2.2.
Proof.
  intros Hok [Hok1 Hb]. rewrite assign_scope_eq.
  pose proof (array_ok_size a w Hok) as [Hs _].
  destruct (body (set_impl impl_empty a, w)) as [[[]|e] [a1 w1]];
    cbn [fst snd] in *.
  - destruct (impl_destroy_world (sp_ a1) (impl_ a) w1 Hs) as (Hdb & _).
    by apply (array_ok_brk _ w1).
  - pose proof (array_ok_size a1 w1 Hok1) as [Hs1 _].
    destruct (impl_destroy_world (sp_ a1) (impl_ a1) w1 ltac:(lia))
      as (Hdb & _).
    apply (array_ok_brk _ w1); [|done].
    destruct Hok as [Hi _], Hok1 as [_ Hw1]. split; [|done].
    by eapply impl_ok_mono.
Qed.

Lemma array_ok_detached a w : array_ok a w → array_ok (set_impl impl_empty a) w.
Proof. intros [_ Hw]. split; [by left|done]. Qed.

Lemma assign_copy_ok other a w :
  array_ok a w →
  match other with Self => True | Other b => array_ok b w end →
  array_ok (assign_copy other (a, w)).2.1 (assign_copy other (a, w)).2.2.
Proof.
  intros Hok Hother. apply assign_scope_ok; [done|].
  destruct other as [|b].
  - rewrite copy_self_empty by done. cbn [fst snd].
    split; [by apply array_ok_detached|lia].
  - apply copy_ok; [by apply array_ok_detached|done..].
Qed.

Lemma assign_init_ok init a w :
  array_ok a w →
  array_ok (assign_init init (a, w)).2.1 (assign_init init (a, w)).2.2.
Proof.
  intros Hok. apply assign_scope_ok; [done|].
  apply copy_init_ok; [by apply array_ok_detached|done].
Qed.

Lemma assign_move_ok a b w :
  array_ok a w → array_ok b w →
  array_ok (assign_move a b w).2.1.1 (assign_move a b w).2.2.
Proof.
  intros Ha Hb. unfold assign_move.
  destruct (sp_equal (sp_ a) (sp_ b)); cbn [fst snd].
  - pose proof (array_ok_size a w Ha) as [Hs _].
    destruct (impl_destroy_world (sp_ a) (impl_ a) w Hs) as (Hdb & _).
    apply (array_ok_brk _ w); [|done].
    destruct Ha as [_ ?], Hb as [? _]. by split.
  - pose proof (assign_copy_ok (Other b) a w Ha Hb).
    by destruct (assign_copy (Other b) (a, w)) as [r [a' w']].
Qed.

(** Constructors. *)
Lemma run_ctor_ok c w :
  world_ok w → valid_ctor c w →
  on_return (run_ctor c w) (λ a w', array_ok a w').
Proof.
  intros Hw Hv. unfold on_return.
  destruct c as [sp|count v sp|count sp|o|o sp|o|o|o sp|init sp];
    simpl in Hv; simpl run_ctor.
  - by apply array_ok_empty.
  - unfold array_count_value. rewrite new_object_guarded2_eq.
    pose proof (fill_ok count v (array_sp sp) w (array_ok_empty sp w Hw)
                  eq_refl Hv) as [Hok _].
    by destruct ((reserve count ;> fill_loop count v) (array_sp sp, w))
      as [[[]|e] [a' w']].
  - unfold array_count, array_count_value. rewrite new_object_guarded2_eq.
    pose proof (fill_ok count kind_null (array_sp sp) w
                  (array_ok_empty sp w Hw) eq_refl Hv) as [Hok _].
    by destruct ((reserve count ;> fill_loop count kind_null) (array_sp sp, w))
      as [[[]|e] [a' w']].
  - unfold array_copy.
    pose proof (array_copy_sp_cases o (sp_ o) w Hv) as Hc.
    destruct (array_copy_sp o (sp_ o) w) as [[a'|e] w']; [|done].
    by destruct Hc as (_ & _ & ? & _).
  - pose proof (array_copy_sp_cases o sp w Hv) as Hc.
    destruct (array_copy_sp o sp w) as [[a'|e] w']; [|done].
    by destruct Hc as (_ & _ & ? & _).
  - by destruct Hv.
  - unfold array_move. munfold. by destruct Hv.
  - rewrite array_move_sp_eq.
    destruct (sp_equal sp (sp_ o)); cbn [fst snd]; [by destruct Hv|].
    pose proof (array_copy_sp_cases o sp w Hv) as Hc.
    destruct (array_copy_sp o sp w) as [[a'|e] w']; [|done].
    by destruct Hc as (_ & _ & ? & _).
  - unfold array_init. rewrite new_object_guarded_eq.
    pose proof (copy_init_ok init (array_sp sp) w (array_ok_empty sp w Hw)
                  eq_refl) as [Hok _].
    by destruct (copy_init init (array_sp sp, w)) as [[[]|e] [a' w']].
Qed.

Lemma bind_ret_state {S A} (m : M S A) s : ((m ;> ret tt) s).2 = (m s).2.
Proof. unfold bind, ret. by destruct (m s) as [[x|e] s']. Qed.

Lemma run_op_ok o a w :
  array_ok a w → valid_op (a, w) o →
  array_ok (run_op o (a, w)).2.1 (run_op o (a, w)).2.2.
Proof.
  intros Hok Hv.
  destruct o as [n| | |i count v|i init|i|i j| |count|count v|b|other|b|init];
    simpl in Hv; simpl run_op.
  - by apply reserve_ok.
  - by apply shrink_to_fit_ok.
  - by apply clear_ok.
  - change ((let* a0 := this in
             insert (begin_ a0 + i) count (ByValue v) ;> ret tt) (a, w))
      with ((insert (begin_ a + i) count (ByValue v) ;> ret tt) (a, w)).
    rewrite bind_ret_state, insert_as_seq. by apply insert_seq_ok.
  - change ((let* a0 := this in insert_init (begin_ a0 + i) init ;> ret tt)
              (a, w))
      with ((insert_init (begin_ a + i) init ;> ret tt) (a, w)).
    rewrite bind_ret_state, insert_init_as_seq. by apply insert_seq_ok.
  - change ((let* a0 := this in erase (begin_ a0 + i) ;> ret tt) (a, w))
      with ((erase (begin_ a + i) ;> ret tt) (a, w)).
    rewrite bind_ret_state. by apply erase_ok.
  - change ((let* a0 := this in
             erase_between (begin_ a0 + i) (begin_ a0 + j) ;> ret tt) (a, w))
      with ((erase_between (begin_ a + i) (begin_ a + j) ;> ret tt) (a, w)).
    rewrite bind_ret_state. destruct Hv as (? & ? & ?).
    by apply erase_between_ok.
  - by apply pop_back_ok.
  - apply resize_ok; [done|lia].
  - apply resize_value_ok; [done|lia].
  - pose proof (swap_cases a b w Hok Hv) as (Ha & _).
    by destruct (swap a b w) as [r [[a' b'] w']].
  - apply assign_copy_ok; [done|]. by destruct other.
  - pose proof (assign_move_ok a b w Hok Hv).
    by destruct (assign_move a b w) as [r [[a' b'] w']].
  - by apply assign_init_ok.
Qed.

Lemma run_ops_ok ops : ∀ s s',
  array_ok s.1 s.2 → run_ops ops s = Some s' → array_ok s'.1 s'.2.
Proof.
  induction ops as [|o ops IH]; intros [a w] s' Hok Hrun; simpl in Hrun.
  - by injection Hrun as <-.
  - case_bool_decide as Hv; [|done].
    apply (IH _ _ (run_op_ok o a w Hok Hv)).
    by destruct (run_op o (a, w)) as [r [a1 w1]].
Qed.

Lemma run_life_ok c ops w s :
  world_ok w → run_life c ops w = Some s → array_ok s.1 s.2.
Proof.
  intros Hw Hrun. unfold run_life in Hrun.
  case_bool_decide as Hv; [|done].
  pose proof (run_ctor_ok c w Hw Hv) as Hc. unfold on_return in Hc.
  destruct (run_ctor c w) as [[a|e] w']; [|done].
  by apply (run_ops_ok ops (a, w')).
Qed.

(** C8: after a constructor has returned, and after every call of a
    sequence of public calls on the container, whether the call returned or
    propagated a failure, [0 ≤ size() ≤ capacity()]. *)
Theorem size_invariant c ops w s :
  world_ok w → run_life c ops w = Some s →
  0 ≤ array_size s.1 ≤ array_capacity s.1.
Proof.
  intros Hw Hrun.
  pose proof (run_life_ok c ops w s Hw Hrun) as Hok.
  by destruct (array_ok_size _ _ Hok) as [? _].
Qed.

(** C10: [construct] raises a requested capacity below 16 to 16, and after
    a constructor and after every public call [capacity()] is 0 or at least
    16. *)
Theorem capacity_floor c ops w s request sp w0 :
  world_ok w → run_life c ops w = Some s →
  (array_capacity s.1 = 0 ∨ 16 ≤ array_capacity s.1) ∧
  on_return (impl_construct request sp w0) (λ i _,
    capacity i = Z.max 16 request).
Proof.
  intros Hw Hrun. split.
  - pose proof (run_life_ok c ops w s Hw Hrun) as [Hi _].
    unfold array_capacity.
    destruct Hi as [(?&?&?)|(?&?&?&?)]; [by left|by right].
  - unfold on_return.
    destruct (impl_construct_cases request sp w0)
      as [(w' & -> & _)|(w' & -> & _)]; done.
Qed.

(** * Further properties

    What the member functions do when they return, which failures they
    report, and what they leave behind. *)

(** ** Element sequences *)
Lemma length_contents a w : length (contents a w) = Z.to_nat (size (impl_ a)).
Proof. unfold contents. by rewrite length_fmap, length_seqZ. Qed.

Lemma contents_lookup a w (k : nat) :
  contents a w !! k =
    if decide (Z.of_nat k < size (impl_ a))
    then Some (mem w !! (vec (impl_ a) + Z.of_nat k)) else None.
Proof.
  unfold contents. rewrite list_lookup_fmap.
  destruct (decide (Z.of_nat k < size (impl_ a))).
  - rewrite lookup_seqZ_lt by lia. simpl. do 2 f_equal. 
  - rewrite lookup_seqZ_ge by lia. done.
Qed.

(** A container holds the sequence [l] when its size is the length of [l]
    and each slot holds the element of [l] at its position. *)
Lemma contents_is a w (l : list (option value)) :
  Z.of_nat (length l) = size (impl_ a) →
  (∀ (k : nat) o, l !! k = Some o → mem w !! (vec (impl_ a) + Z.of_nat k) = o) →
  contents a w = l.
Proof.
  intros Hlen Hl. apply list_eq. intros k. rewrite contents_lookup.
  destruct (decide (Z.of_nat k < size (impl_ a))).
  - destruct (l !! k) as [o|] eqn:E.
    + by rewrite (Hl k o E).
    + apply lookup_ge_None in E. lia.
  - symmetry. apply lookup_ge_None. lia.
Qed.

(** The element sequence, read through the addresses of its slots. *)
Lemma contents_seqZ o w :
  contents o w =
    (λ src, mem w !! src) <$> seqZ (vec (impl_ o)) (size (impl_ o)).
Proof.
  unfold contents.
  replace (seqZ (vec (impl_ o)) (size (impl_ o))) with
    (Z.add (vec (impl_ o)) <$> seqZ 0 (size (impl_ o))).
  - by rewrite <- list_fmap_compose.
  - rewrite fmap_add_seqZ. f_equal. lia.
Qed.

(** A container that was there before keeps its elements as long as
    nothing below the old break changes. *)
Lemma contents_low a w w' :
  array_ok a w → (∀ p, p < brk w → mem w' !! p = mem w !! p) →
  contents a w' = contents a w.
Proof.
  intros Hok Hlow. apply contents_eq; [done|]. intros i Hi. apply Hlow.
  destruct Hok as [[(?&?&?)|(?&?&?&?)] ?]; lia.
Qed.

Lemma need_free_mem_lookup (b : bool) (f : gmap Z value → gmap Z value) w p :
  mem (if b then set_mem f w else w) !! p =
    if b then f (mem w) !! p else mem w !! p.
Proof. by destruct b. Qed.

(** ** Reallocation *)

(** [reserve_impl] in one step: the allocation decides. *)
Lemma reserve_impl_eq n a w :
  array_ok a w →
  reserve_impl n (a, w) =
    let c := Z.max 16 (growth (impl_ a) n) in
    if will_allocate c w
    then (Ok tt,
          (set_impl (Impl (brk w) (size (impl_ a)) c) a,
           (impl_destroy (sp_ a) (impl_set_size 0 (impl_ a))
              (set_mem (relocate (brk w) (vec (impl_ a)) (size (impl_ a)))
                 (World (mem w) (brk w + c) (tail (alloc_plan w))
                    (ctor_plan w)))).2))
    else (Throw bad_alloc,
          (a, World (mem w) (brk w) (tail (alloc_plan w)) (ctor_plan w))).
Proof.
  intros Hok. unfold reserve_impl. munfold. rewrite impl_construct_eq.
  by destruct (will_allocate _ w).
Qed.

(** [reserve] fails exactly when it has to allocate and the allocation
    fails; it never touches the construction plan. *)
Lemma reserve_outcome n a w :
  array_ok a w →
  (reserve n (a, w)).1 =
    (if decide (n ≤ capacity (impl_ a) ∨
                will_allocate (Z.max 16 (growth (impl_ a) n)) w = true)
     then Ok tt else Throw bad_alloc) ∧
  ctor_plan (reserve n (a, w)).2.2 = ctor_plan w.
Proof.
  intros Hok. rewrite reserve_eq.
  destruct (Z.leb_spec n (capacity (impl_ a))).
  { by rewrite decide_True by by left. }
  rewrite reserve_impl_eq by done. cbv zeta.
  destruct (will_allocate _ w) eqn:Hal.
  - rewrite decide_True by by right. split; [done|]. cbn [fst snd].
    pose proof (array_ok_size a w Hok) as [Hs _].
    match goal with |- context [impl_destroy ?sp ?i ?w0] =>
      pose proof (impl_destroy_world sp i w0) as (_ & Hdc & _);
        [simpl; lia|]
    end.
    by rewrite Hdc.
  - rewrite decide_False; [done|]. intros [?|?]; [lia|done].
Qed.

(** X1: [reserve_impl(n)] asks for a block of [max(16, growth)] elements;
    when these are at most [max_size()], it is a block of as many slots at
    the break.  When the allocation succeeds the elements are moved, in
    order, to the new block, the slots they occupied hold no live element
    any more, and nothing outside the old buffer changes below the old
    break; when it fails the exception is [bad_alloc] and the container and
    the heap are as they were. *)
Theorem reserve_impl_relocates n a w :
  array_ok a w → Z.max 16 (growth (impl_ a) n) ≤ max_size →
  let c := Z.max 16 (growth (impl_ a) n) in
  let r := reserve_impl n (a, w) in
  if will_allocate c w
  then r.1 = Ok tt ∧
       r.2.1 = set_impl (Impl (brk w) (array_size a) c) a ∧
       brk r.2.2 = brk w + c ∧ ctor_plan r.2.2 = ctor_plan w ∧
       contents r.2.1 r.2.2 = contents a w ∧
       (∀ k, 0 ≤ k < array_size a → mem r.2.2 !! (begin_ a + k) = None) ∧
       (∀ p, p < brk w →
             ¬ (begin_ a ≤ p < begin_ a + array_capacity a) →
             mem r.2.2 !! p = mem w !! p)
  else r.1 = Throw bad_alloc ∧ r.2.1 = a ∧ mem r.2.2 = mem w ∧
       brk r.2.2 = brk w ∧ ctor_plan r.2.2 = ctor_plan w.
Proof.
  unfold array_size, array_capacity, begin_. intros Hok _.
  rewrite reserve_impl_eq by done. cbv zeta.
  destruct (will_allocate _ w) eqn:Hal; [|done].
  pose proof (array_ok_size a w Hok) as [Hs Hc].
  destruct Hok as [Hi Hw].
  assert (Hne : brk w ≠ vec (impl_ a) ∨ size (impl_ a) = 0).
  { destruct Hi as [(?&?&?)|(?&?&?&?)]; [by right|left; lia]. }
  assert (Hin : vec (impl_ a) + capacity (impl_ a) ≤ brk w).
  { destruct Hi as [(?&?&?)|(?&?&?&?)]; unfold world_ok in Hw; lia. }
  match goal with |- context [impl_destroy ?sp ?i ?w0] =>
    pose proof (impl_destroy_world sp i w0) as (Hdb & Hdc & Hda & Hlook);
      [simpl; lia|]
  end.
  simpl in Hdb, Hdc, Hlook. cbn [fst snd].
  split_and!; try done.
  - apply contents_eq; [done|]. intros k Hk. simpl. rewrite Hlook.
    rewrite decide_False by (intros [_ ?]; lia).
    rewrite relocate_lookup by lia.
    unfold relocated. rewrite decide_True by lia. f_equal. lia.
  - intros k Hk. rewrite Hlook.
    destruct (decide (_ ∧ _)); [done|].
    rewrite relocate_lookup by lia.
    unfold relocated. rewrite decide_False by lia. by rewrite decide_True by lia.
  - intros p Hp Hout. rewrite Hlook.
    rewrite decide_False by naive_solver.
    rewrite relocate_lookup by lia.
    unfold relocated. rewrite decide_False by lia.
    rewrite decide_False; [done|]. lia.
Qed.

(** ** Removal *)

(** [erase(first, last)] on positions [i ≤ j] of the container. *)
Lemma erase_between_eq a w i j :
  array_ok a w → 0 ≤ i → i ≤ j → j ≤ size (impl_ a) →
  erase_between (vec (impl_ a) + i) (vec (impl_ a) + j) (a, w) =
    (Ok (vec (impl_ a) + i),
     (with_size (size (impl_ a) - (j - i)) a,
      set_mem (relocate (vec (impl_ a) + i) (vec (impl_ a) + j)
                 (size (impl_ a) - j))
        (if sp_need_free (sp_ a)
         then set_mem (destroy_loop (vec (impl_ a) + j) (Z.to_nat (j - i))) w
         else w))).
Proof.
  intros Hok Hi Hij Hj. unfold erase_between, index_of. munfold.
  rewrite destroy_eq. cbn [fst snd].
  pose proof (array_ok_size a w Hok) as [Hs Hc].
  pose proof heap_limit_double.
  replace (vec (impl_ a) + j - (vec (impl_ a) + i)) with (j - i) by lia.
  replace (vec (impl_ a) + i - vec (impl_ a)) with i by lia.
  replace (vec (impl_ a) + j - vec (impl_ a)) with j by lia.
  rewrite (wrap_small (j - i)), (wrap_small i), (wrap_small j) by lia.
  rewrite (wrap_small (size (impl_ a) - (j - i))) by lia.
  rewrite (wrap_small (size (impl_ a) - j)) by lia.
  replace (vec (impl_ a) + i + (j - i)) with (vec (impl_ a) + j) by lia.
  replace (vec (impl_ a) + j - (vec (impl_ a) + i)) with (j - i) by lia.
  done.
Qed.

(** The heap after erasing a non-empty range: the tail has moved down by
    the length of the range, the slots it left are dead, and the erased
    slots the tail did not cover are dead when the resource asks for
    destruction. *)
Lemma erase_between_mem a w i j p :
  array_ok a w → 0 ≤ i → i < j → j ≤ size (impl_ a) →
  mem (erase_between (vec (impl_ a) + i) (vec (impl_ a) + j) (a, w)).2.2 !! p =
    if decide (vec (impl_ a) + i ≤ p < vec (impl_ a) + i + (size (impl_ a) - j))
    then mem w !! (p + (j - i))
    else if decide (vec (impl_ a) + j ≤ p < vec (impl_ a) + size (impl_ a))
    then None
    else if decide (sp_need_free (sp_ a) = true ∧
                    vec (impl_ a) + i ≤ p < vec (impl_ a) + j)
    then None else mem w !! p.
Proof.
  intros Hok Hi Hij Hj.
  rewrite erase_between_eq by (done || lia). cbn [fst snd].
  simpl. rewrite relocate_lookup by lia. unfold relocated.
  rewrite !need_free_mem_lookup, !destroy_loop_lookup.
  destruct (sp_need_free (sp_ a));
    repeat case_decide; first [done | lia | naive_solver lia | f_equal; lia].
Qed.

Lemma erase_between_contents a w i j :
  array_ok a w → 0 ≤ i → i < j → j ≤ size (impl_ a) →
  contents (erase_between (vec (impl_ a) + i) (vec (impl_ a) + j) (a, w)).2.1
           (erase_between (vec (impl_ a) + i) (vec (impl_ a) + j) (a, w)).2.2 =
    take (Z.to_nat i) (contents a w) ++ drop (Z.to_nat j) (contents a w).
Proof.
  intros Hok Hi Hij Hj.
  pose proof (array_ok_size a w Hok) as [Hs Hc].
  apply contents_is.
  - rewrite erase_between_eq by (done || lia). cbn [fst snd].
    rewrite length_app, length_take, length_drop, length_contents. simpl. lia.
  - intros k o Hk. rewrite erase_between_mem by done.
    rewrite erase_between_eq by (done || lia). cbn [fst snd]. simpl.
    destruct (decide (k < Z.to_nat i)%nat) as [Hlt|Hge].
    + rewrite lookup_app_l in Hk by (rewrite length_take, length_contents; lia).
      rewrite lookup_take_lt in Hk by lia.
      rewrite contents_lookup in Hk. rewrite decide_True in Hk by lia.
      repeat case_decide; first [lia | congruence | naive_solver lia].
    + rewrite lookup_app_r in Hk by (rewrite length_take, length_contents; lia).
      rewrite length_take, length_contents in Hk.
      rewrite lookup_drop in Hk. rewrite contents_lookup in Hk.
      case_decide as Hd; [|done].
      rewrite decide_True by lia. inversion Hk. f_equal. lia.
Qed.

(** X2: [erase(first, last)] on a non-empty range [i < j ≤ size()] returns
    the iterator to position [i], shrinks the size by [j - i] and keeps the
    buffer; the elements before [i] and from [j] on remain, in order.  With
    a resource that asks for destruction no live element is left between
    the new and the old end.  Nothing before position [i] or outside the
    element range changes, and nothing is allocated or constructed. *)
Theorem erase_range_removes a w i j :
  array_ok a w → 0 ≤ i → i < j → j ≤ array_size a →
  let r := erase_between (begin_ a + i) (begin_ a + j) (a, w) in
  r.1 = Ok (begin_ a + i) ∧
  r.2.1 = with_size (array_size a - (j - i)) a ∧
  contents r.2.1 r.2.2 =
    take (Z.to_nat i) (contents a w) ++ drop (Z.to_nat j) (contents a w) ∧
  (sp_need_free (sp_ a) = true →
   ∀ k, array_size a - (j - i) ≤ k < array_size a →
        mem r.2.2 !! (begin_ a + k) = None) ∧
  (∀ p, ¬ (begin_ a + i ≤ p < begin_ a + array_size a) →
        mem r.2.2 !! p = mem w !! p) ∧
  brk r.2.2 = brk w ∧ alloc_plan r.2.2 = alloc_plan w ∧
  ctor_plan r.2.2 = ctor_plan w.
Proof.
  unfold array_size, begin_. intros Hok Hi Hij Hj.
  pose proof (array_ok_size a w Hok) as [Hs Hc].
  split_and!.
  - by rewrite erase_between_eq by (done || lia).
  - by rewrite erase_between_eq by (done || lia).
  - by apply erase_between_contents.
  - intros Hnf k Hk. rewrite erase_between_mem by done. rewrite Hnf.
    repeat case_decide; try done; naive_solver lia.
  - intros p Hp. rewrite erase_between_mem by done.
    repeat case_decide; try done; lia.
  - rewrite erase_between_eq by (done || lia). simpl.
    by destruct (sp_need_free (sp_ a)).
  - rewrite erase_between_eq by (done || lia). simpl.
    by destruct (sp_need_free (sp_ a)).
  - rewrite erase_between_eq by (done || lia). simpl.
    by destruct (sp_need_free (sp_ a)).
Qed.

(** [erase(pos)] on position [i] of the container. *)
Lemma erase_eq a w i :
  array_ok a w → 0 ≤ i < size (impl_ a) →
  erase (vec (impl_ a) + i) (a, w) =
    (Ok (vec (impl_ a) + i),
     (with_size (size (impl_ a) - 1) a,
      set_mem (relocate (vec (impl_ a) + i) (vec (impl_ a) + i + 1) 1)
        (if sp_need_free (sp_ a)
         then set_mem (destroy_loop (vec (impl_ a) + i + 1) 1) w
         else w))).
Proof.
  intros Hok Hi. unfold erase. munfold. rewrite destroy_eq. cbn [fst snd].
  pose proof (array_ok_size a w Hok) as [Hs Hc].
  pose proof heap_limit_double.
  rewrite wrap_small by lia.
  replace (vec (impl_ a) + (vec (impl_ a) + i - vec (impl_ a)))
    with (vec (impl_ a) + i) by lia.
  replace (Z.to_nat (vec (impl_ a) + i + 1 - (vec (impl_ a) + i)))
    with 1%nat by lia.
  done.
Qed.

(** X3: [erase(pos)] at position [i < size()] returns [pos], shrinks the
    size by one and changes two slots only: slot [i] receives what slot
    [i + 1] held and slot [i + 1] is left dead.  This is the removal of the
    element when [i] is one of the last two positions; at an earlier
    position the elements after [i + 1] stay where they were and position
    [i + 1] of the container holds no live element. *)
Theorem erase_moves_one_element a w i :
  array_ok a w → 0 ≤ i < array_size a →
  let r := erase (begin_ a + i) (a, w) in
  r.1 = Ok (begin_ a + i) ∧ r.2.1 = with_size (array_size a - 1) a ∧
  (∀ p, mem r.2.2 !! p =
     if decide (p = begin_ a + i) then mem w !! (p + 1)
     else if decide (p = begin_ a + i + 1) then None else mem w !! p) ∧
  (array_size a - 2 ≤ i →
   contents r.2.1 r.2.2 =
     take (Z.to_nat i) (contents a w) ++
     drop (Z.to_nat (i + 1)) (contents a w)) ∧
  (i < array_size a - 2 →
   contents r.2.1 r.2.2 !! Z.to_nat (i + 1) = Some None).
Proof.
  unfold array_size, begin_. intros Hok Hi. cbv zeta.
  rewrite erase_eq by done. cbn [fst snd].
  pose proof (array_ok_size a w Hok) as [Hs Hc].
  assert (Hlk : ∀ p,
    mem (set_mem (relocate (vec (impl_ a) + i) (vec (impl_ a) + i + 1) 1)
           (if sp_need_free (sp_ a)
            then set_mem (destroy_loop (vec (impl_ a) + i + 1) 1) w
            else w)) !! p =
    if decide (p = vec (impl_ a) + i) then mem w !! (p + 1)
    else if decide (p = vec (impl_ a) + i + 1) then None else mem w !! p).
  { intros p. simpl. rewrite relocate_lookup by lia. unfold relocated.
    rewrite !need_free_mem_lookup.
    destruct (sp_need_free (sp_ a)); rewrite ?destroy_loop_lookup;
      repeat case_decide; rewrite ?lookup_delete_ne by lia;
      first [done | lia | f_equal; lia]. }
  split_and!; try done.
  - intros Hlast. apply contents_is.
    + rewrite length_app, length_take, length_drop, length_contents. simpl. lia.
    + intros k o Hk. rewrite Hlk. simpl.
      destruct (decide (k < Z.to_nat i)%nat) as [Hlt|Hge].
      * rewrite lookup_app_l in Hk by (rewrite length_take, length_contents; lia).
        rewrite lookup_take_lt in Hk by lia.
        rewrite contents_lookup, decide_True in Hk by lia.
        rewrite !decide_False by lia. congruence.
      * rewrite lookup_app_r in Hk by (rewrite length_take, length_contents; lia).
        rewrite length_take, length_contents in Hk.
        rewrite lookup_drop, contents_lookup in Hk.
        case_decide as Hd; [|done].
        rewrite decide_True by lia. inversion Hk. f_equal. lia.
  - intros Hmid. rewrite contents_lookup. simpl.
    rewrite decide_True by lia. rewrite Hlk.
    rewrite decide_False by lia. rewrite decide_True by lia. done.
Qed.

(** ** Insertion *)

(** A completed insertion of [n > 0] elements at position [i] (or of none
    at the end): slot by slot, the old prefix, the new elements, the old
    tail moved up by [n]; nothing outside the old buffer changes below the
    old break. *)
Lemma insert_seq_success a w i n l p a' w' :
  array_ok a w → 0 ≤ i ≤ size (impl_ a) → Z.of_nat (length l) = n →
  size (impl_ a) + n < modulus → 0 < n ∨ i = size (impl_ a) →
  insert_seq (vec (impl_ a) + i) n l (a, w) = (Ok p, (a', w')) →
  p = vec (impl_ a') + i ∧ sp_ a' = sp_ a ∧
  size (impl_ a') = size (impl_ a) + n ∧
  capacity (impl_ a) ≤ capacity (impl_ a') ∧ array_ok a' w' ∧
  (∀ k, 0 ≤ k < size (impl_ a) + n → ¬ (i ≤ k < i + n) →
     mem w' !! (vec (impl_ a') + k) =
       if decide (k < i) then mem w !! (vec (impl_ a) + k)
       else mem w !! (vec (impl_ a) + (k - n))) ∧
  (∀ vs, Forall2 (refers_outside a w) l vs →
     ∀ k, i ≤ k < i + n →
       mem w' !! (vec (impl_ a') + k) = vs !! Z.to_nat (k - i)) ∧
  (∀ q, q < brk w →
     ¬ (vec (impl_ a) ≤ q < vec (impl_ a) + capacity (impl_ a)) →
     mem w' !! q = mem w !! q).
Proof.
  intros Hok Hi <- Hsum Hdeg Hrun.
  set (n := Z.of_nat (length l)) in *.
  assert (0 ≤ n) by lia.
  unfold insert_seq, bind in Hrun.
  destruct (undo_insert_ctor_cases a w i n Hok Hi ltac:(done) Hsum)
    as [[_ Hc]|[(w1 & Hc & Hf)|(a1 & w1 & Hr & Hc)]];
    rewrite Hc in Hrun; clear Hc; [done..|].
  unfold scope in Hrun. cbv beta in Hrun.
  match type of Hrun with context [forM l emplace (?u, (?a2, ?w2))] =>
    destruct (emplace_loop l u a2 w2) as (j & w3 & Hloop & Hj & Hb3 & Hfr & Hel)
  end.
  rewrite Hloop in Hrun. clear Hloop. simpl in Hrun.
  destruct (decide (j = length l)) as [->|Hjl]; [|done].
  munfold. injection Hrun as <- <- <-.
  destruct Hr as (Hsp & Hsz & Hcap & Hn1 & [Hi1 Hw1] & _ & Hbrk & Hslots & Hframe
                  & Hmoved).
  assert (Hcap1 : 0 ≤ size (impl_ a) ≤ capacity (impl_ a1)).
  { destruct Hi1 as [(?&?&?)|(?&?&?&?)]; lia. }
  pose proof (array_ok_size a w Hok) as [Hs0 Hc0].
  simpl. split_and!; try done.
  - split; simpl.
    + destruct Hi1 as [(?&?&?)|(?&?&?&?)]; [left|right]; simpl;
        split_and!; lia.
    + unfold world_ok in *. simpl. lia.
  - intros k Hk Hgap.
    destruct (decide (k < i)) as [Hki|Hki].
    { rewrite Hfr by lia. simpl. rewrite relocate_lookup by lia.
      unfold relocated. rewrite !decide_False by lia. apply Hslots. lia. }
    rewrite Hfr by lia. simpl. rewrite relocate_lookup by lia.
    unfold relocated. rewrite decide_True by lia.
    rewrite <- Hslots by lia. f_equal. lia.
  - intros vs Hvs k Hk.
    pose proof (Forall2_length _ _ _ Hvs) as Hlen.
    destruct (vs !! Z.to_nat (k - i)) as [x|] eqn:E.
    2:{ apply lookup_ge_None in E. lia. }
    destruct (Forall2_lookup_r _ _ _ _ _ Hvs E) as (r & Hr & Hrx).
    assert (Hread : ∀ m : gmap Z value,
      (∀ q, q < brk w →
         ¬ (vec (impl_ a) ≤ q < vec (impl_ a) + capacity (impl_ a)) →
         m !! q = mem w !! q) →
      read_ref r m = Some x).
    { intros m Hm. destruct r as [y|q]; simpl in Hrx; [by subst|].
      destruct Hrx as (Hq & Hout & Hx). simpl. by rewrite Hm. }
    assert (Hout : ∀ q, q < brk w →
      ¬ (vec (impl_ a) ≤ q < vec (impl_ a) + capacity (impl_ a)) →
      ¬ (vec (impl_ a1) ≤ q < vec (impl_ a1) + (size (impl_ a) + n))).
    { intros q Hq Hnot. destruct Hmoved as [[-> ->]|[Hv _]]; lia. }
    replace (vec (impl_ a1) + k) with
      (vec (impl_ a1) + i + Z.of_nat (Z.to_nat (k - i))) by lia.
    rewrite (Hel _ r Hr); [|lia|].
    + apply Hread. intros q Hq Hnot. simpl.
      rewrite relocate_lookup by lia. unfold relocated.
      pose proof (Hout q Hq Hnot).
      rewrite !decide_False by lia. by apply Hframe.
    + intros m Hm. rewrite !Hread; [done| |].
      * intros q Hq Hnot. simpl.
        rewrite relocate_lookup by lia. unfold relocated.
        pose proof (Hout q Hq Hnot).
        rewrite !decide_False by lia. by apply Hframe.
      * intros q Hq Hnot. pose proof (Hout q Hq Hnot).
        rewrite Hm by (simpl; lia). simpl.
        rewrite relocate_lookup by lia. unfold relocated.
        rewrite !decide_False by lia. by apply Hframe.
  - intros q Hq Hnot.
    assert (¬ (vec (impl_ a1) ≤ q < vec (impl_ a1) + (size (impl_ a) + n))).
    { destruct Hmoved as [[-> ->]|[Hv _]]; lia. }
    rewrite Hfr by lia. simpl. rewrite relocate_lookup by lia.
    unfold relocated. rewrite !decide_False by lia. by apply Hframe.
Qed.

Lemma insert_seq_contents a w i n (l : list (option value)) a' w' :
  0 ≤ i ≤ size (impl_ a) → Z.of_nat (length l) = n → 0 ≤ size (impl_ a) →
  size (impl_ a') = size (impl_ a) + n →
  (∀ k, 0 ≤ k < size (impl_ a) + n → ¬ (i ≤ k < i + n) →
     mem w' !! (vec (impl_ a') + k) =
       if decide (k < i) then mem w !! (vec (impl_ a) + k)
       else mem w !! (vec (impl_ a) + (k - n))) →
  (∀ k, i ≤ k < i + n →
     l !! Z.to_nat (k - i) = Some (mem w' !! (vec (impl_ a') + k))) →
  contents a' w' =
    take (Z.to_nat i) (contents a w) ++ l ++ drop (Z.to_nat i) (contents a w).
Proof.
  intros Hi Hlen Hs Hsz Hmem Hgap. apply contents_is.
  - rewrite !length_app, length_take, length_drop, length_contents.
    lia.
  - intros k o Hk.
    assert (Hkn : (k < Z.to_nat (size (impl_ a) + n))%nat).
    { apply lookup_lt_Some in Hk.
      rewrite !length_app, length_take, length_drop, length_contents in Hk.
      lia. }
    destruct (decide (k < Z.to_nat i)%nat) as [Hlt|Hge].
    { rewrite Hmem by lia.
      rewrite lookup_app_l in Hk by (rewrite length_take, length_contents; lia).
      rewrite lookup_take_lt in Hk by lia.
      rewrite contents_lookup, decide_True in Hk by lia.
      rewrite decide_True by lia. congruence. }
    rewrite lookup_app_r in Hk by (rewrite length_take, length_contents; lia).
    rewrite length_take, length_contents, Nat.min_l in Hk by lia.
    destruct (decide (Z.of_nat k < i + n)) as [Hin|Hin].
    { rewrite lookup_app_l in Hk by lia.
      pose proof (Hgap (Z.of_nat k) ltac:(lia)) as Hg.
      replace (Z.to_nat (Z.of_nat k - i)) with
        (k - Z.to_nat i)%nat in Hg by lia.
      congruence. }
    rewrite Hmem, decide_False by lia.
    rewrite lookup_app_r in Hk by lia.
    rewrite lookup_drop, contents_lookup in Hk.
    case_decide; [|done]. inversion Hk. f_equal. lia.
Qed.

(** The slots of the gap, once filled by values that are not elements of
    the container. *)
Lemma insert_gap_values a' w' i n (vs : list value) :
  Z.of_nat (length vs) = n →
  (∀ k, i ≤ k < i + n →
     mem w' !! (vec (impl_ a') + k) = vs !! Z.to_nat (k - i)) →
  ∀ k, i ≤ k < i + n →
    (Some <$> vs) !! Z.to_nat (k - i) = Some (mem w' !! (vec (impl_ a') + k)).
Proof.
  intros Hlen Hmem k Hk. rewrite list_lookup_fmap, Hmem by done.
  destruct (vs !! Z.to_nat (k - i)) eqn:E; [done|].
  apply lookup_ge_None in E. lia.
Qed.

(** The slots of the gap, whatever they were filled from. *)
Lemma insert_gap_any a' w' i n :
  0 ≤ n →
  let gap := (λ k, mem w' !! (vec (impl_ a') + i + k)) <$> seqZ 0 n in
  Z.of_nat (length gap) = n ∧
  ∀ k, i ≤ k < i + n →
    gap !! Z.to_nat (k - i) = Some (mem w' !! (vec (impl_ a') + k)).
Proof.
  intros Hn. cbv zeta. split.
  - rewrite length_fmap, length_seqZ. lia.
  - intros k Hk. rewrite list_lookup_fmap.
    rewrite (lookup_seqZ_lt 0 n) by lia. simpl. do 2 f_equal. lia.
Qed.

(** X4: a returning [insert(pos, count, v)] with [count > 0] at position
    [i ≤ size()], where [v] refers to a value [x] that is not an element
    slot of the container and the block [reserve] asks for holds at most
    [max_size()] elements, returns the iterator to position [i] of the
    (possibly reallocated) buffer, keeps the resource, grows the size by
    [count] and never lowers the capacity; the container then holds the old
    elements before [i], [count] copies of [x], and the old elements from
    [i] on.  Slots below the old break outside the old buffer are
    untouched. *)
Theorem insert_places_copies a w i count v x :
  array_ok a w → 0 ≤ i ≤ array_size a → 0 < count →
  in_max_size a (array_size a + count) → refers_outside a w v x →
  on_return (insert (begin_ a + i) count v (a, w)) (λ p s',
    p = begin_ s'.1 + i ∧ sp_ s'.1 = sp_ a ∧
    array_size s'.1 = array_size a + count ∧
    array_capacity a ≤ array_capacity s'.1 ∧
    contents s'.1 s'.2 =
      take (Z.to_nat i) (contents a w) ++
      replicate (Z.to_nat count) (Some x) ++
      drop (Z.to_nat i) (contents a w) ∧
    (∀ q, q < brk w → ¬ (begin_ a ≤ q < begin_ a + array_capacity a) →
          mem s'.2 !! q = mem w !! q)).
Proof.
  unfold array_size, array_capacity, begin_, on_return.
  intros Hok Hi Hcount Hfit Hv.
  pose proof (in_max_size_lt a w _ Hok Hfit) as Hsum.
  rewrite insert_as_seq.
  destruct (insert_seq _ _ _ _) as [[p|e] [a' w']] eqn:Hrun; [|done].
  pose proof (array_ok_size a w Hok) as [Hs _].
  apply insert_seq_success in Hrun
    as (Hp & Hsp & Hsz & Hcap & _ & Hmem & Hgap & Hframe);
    [|done|done|rewrite length_replicate; lia|done|lia].
  simpl. split_and!; try done.
  rewrite <- fmap_replicate.
  apply (insert_seq_contents a w i count); [done| |lia|done|done|].
  - rewrite length_fmap, length_replicate. lia.
  - apply insert_gap_values; [rewrite length_replicate; lia|].
    apply Hgap. by apply Forall2_replicate.
Qed.


(** X6: erasing the range a returning [insert(pos, count, v)] with
    [count > 0] has just filled, from the iterator it returned, returns
    that iterator and gives back the size and the element sequence the
    container had before the insertion, whatever [v] refers to, when the
    block [reserve] asks for holds at most [max_size()] elements. *)
Theorem insert_then_erase a w i count v :
  array_ok a w → 0 ≤ i ≤ array_size a → 0 < count →
  in_max_size a (array_size a + count) →
  on_return (insert (begin_ a + i) count v (a, w)) (λ p s',
    (erase_between p (p + count) s').1 = Ok p ∧
    array_size (erase_between p (p + count) s').2.1 = array_size a ∧
    contents (erase_between p (p + count) s').2.1
             (erase_between p (p + count) s').2.2 = contents a w).
Proof.
  unfold array_size, array_capacity, begin_, on_return.
  intros Hok Hi Hcount Hfit.
  pose proof (in_max_size_lt a w _ Hok Hfit) as Hsum.
  rewrite insert_as_seq.
  destruct (insert_seq _ _ _ _) as [[p|e] [a' w']] eqn:Hrun; [|done].
  pose proof (array_ok_size a w Hok) as [Hs _].
  apply insert_seq_success in Hrun
    as (Hp & Hsp & Hsz & Hcap & Hok' & Hmem & _ & Hframe);
    [|done|done|rewrite length_replicate; lia|done|lia].
  simpl. subst p.
  destruct (insert_gap_any a' w' i count ltac:(lia)) as [Hglen Hgap].
  set (gap := (λ k, mem w' !! (vec (impl_ a') + i + k)) <$> seqZ 0 count) in *.
  replace (vec (impl_ a') + i + count) with (vec (impl_ a') + (i + count))
    by lia.
  rewrite erase_between_eq by (done || lia). cbn [fst snd].
  split_and!; [done|simpl; lia|].
  pose proof (erase_between_contents a' w' i (i + count) Hok') as Hc.
  rewrite erase_between_eq in Hc by (done || lia). cbn [fst snd] in Hc.
  rewrite Hc by lia.
  rewrite (insert_seq_contents a w i count gap a' w') by (done || lia).
  assert (length (take (Z.to_nat i) (contents a w)) = Z.to_nat i) as Hlt.
  { rewrite length_take, length_contents. lia. }
  rewrite take_app_length' by done.
  rewrite app_assoc, drop_app_length' by (rewrite length_app; lia).
  apply take_drop.
Qed.

(** The loop of [emplace] calls returns exactly when the construction
    plan lets all of them succeed. *)
Lemma emplace_loop_outcome l : ∀ u a w,
  (forM l emplace (u, (a, w))).1 =
    loop_outcome (successes (ctor_plan w) (length l)) (length l).
Proof.
  induction l as [|v l IH]; intros u a w; [done|].
  simpl forM. unfold bind. rewrite emplace_eq. cbn [fst snd].
  destruct (ctor_plan w) as [|[] pl] eqn:Hpl.
  - rewrite IH. simpl. by rewrite loop_outcome_S.
  - rewrite IH. simpl. by rewrite loop_outcome_S.
  - simpl. by rewrite loop_outcome_0.
Qed.

(** X7: the outcome of [insert(pos, count, v)] is decided in this order:
    [length_error] exactly when [count > max_size()]; otherwise, the block
    [reserve] asks for holding at most [max_size()] elements, [bad_alloc]
    exactly when the [size() + count] elements do not fit the capacity and
    the allocation of the grown block fails; otherwise [ctor_error] exactly
    when one of the [count] constructions fails; otherwise it returns. *)
Theorem insert_outcome a w i count v :
  array_ok a w → 0 ≤ i ≤ array_size a → 0 ≤ count < modulus →
  (count ≤ max_size → in_max_size a (array_size a + count)) →
  let fits :=
    array_size a + count ≤ array_capacity a ∨
    will_allocate (Z.max 16 (growth (impl_ a) (array_size a + count))) w
      = true in
  let built := successes (ctor_plan w) (Z.to_nat count) in
  match (insert (begin_ a + i) count v (a, w)).1 with
  | Ok _ => count ≤ max_size ∧ fits ∧ built = Z.to_nat count
  | Throw length_error => max_size < count
  | Throw bad_alloc => count ≤ max_size ∧ ¬ fits
  | Throw ctor_error => count ≤ max_size ∧ fits ∧ (built < Z.to_nat count)%nat
  end.
Proof.
  unfold array_size, array_capacity, begin_.
  intros Hok Hi Hcount Hrange. cbv zeta.
  pose proof max_size_lt. pose proof modulus_pos.
  pose proof (array_ok_size a w Hok) as [Hs0 _].
  rewrite insert_as_seq. unfold insert_seq, bind.
  rewrite undo_insert_ctor_eq.
  destruct (Z.ltb_spec max_size count) as [Hlong|Hfit]; [done|].
  pose proof (in_max_size_lt a w _ Hok (Hrange Hfit)) as Hsum.
  rewrite (wrap_small count), (wrap_small (_ + count)) by lia.
  pose proof (reserve_outcome (size (impl_ a) + count) a w Hok) as [Hr Hcp].
  destruct (reserve (size (impl_ a) + count) (a, w)) as [[[]|e] [a1 w1]].
  2:{ simpl in Hr. case_decide; [done|]. injection Hr as ->. done. }
  cbn [fst snd] in *. cbv zeta. unfold scope.
  match goal with |- context [forM ?l emplace (?u, (?a2, ?w2))] =>
    pose proof (emplace_loop_outcome l u a2 w2) as Hl;
    destruct (forM l emplace (u, (a2, w2))) as [r [u3 [a3 w3]]]
  end.
  cbn [fst snd] in Hl. simpl in Hl. rewrite Hcp, length_replicate in Hl.
  pose proof (successes_le (ctor_plan w) (Z.to_nat count)).
  case_decide as Hfits; [|done].
  subst r. unfold loop_outcome. case_decide as Hfull; simpl.
  - done.
  - split_and!; try done. lia.
Qed.

(** An insertion of nothing relocates the tail onto itself. *)
Lemma insert_seq_nothing pos a w :
  array_ok a w →
  insert_seq pos 0 [] (a, w) =
    (Ok (vec (impl_ a) + index_of (impl_ a) pos),
     (a, set_mem (relocate (vec (impl_ a) + index_of (impl_ a) pos)
                    (vec (impl_ a) + index_of (impl_ a) pos)
                    (wrap (size (impl_ a) - index_of (impl_ a) pos))) w)).
Proof.
  intros Hok. pose proof (array_ok_size a w Hok) as [Hs Hc].
  pose proof heap_limit_double. pose proof max_size_lt. pose proof modulus_pos.
  unfold insert_seq. unfold bind at 1. rewrite undo_insert_ctor_eq.
  destruct (Z.ltb_spec max_size 0); [lia|].
  rewrite (wrap_small 0), Z.add_0_r, (wrap_small (size (impl_ a))) by lia.
  rewrite reserve_eq.
  destruct (Z.leb_spec (size (impl_ a)) (capacity (impl_ a))); [|lia].
  cbn [fst snd]. cbv zeta. rewrite !Z.add_0_r.
  rewrite (wrap_small (size (impl_ a))) by lia.
  rewrite with_size_id. unfold scope. munfold. done.
Qed.

(** X8: [insert(pos, 0, v)], [insert(pos, {})] and [erase(pos, pos)] at
    position [i ≤ size()] return [pos] and leave size, capacity and buffer
    as they were, but relocate the tail onto itself: the elements before
    [i] remain and no element from [i] on is live afterwards.  At
    [i = size()] the container is unchanged. *)
Theorem inserting_nothing_destroys_tail a w i v :
  array_ok a w → 0 ≤ i ≤ array_size a →
  let tail := take (Z.to_nat i) (contents a w) ++
              replicate (Z.to_nat (array_size a - i)) None in
  insert (begin_ a + i) 0 v (a, w) = insert_init (begin_ a + i) [] (a, w) ∧
  (insert (begin_ a + i) 0 v (a, w)).1 = Ok (begin_ a + i) ∧
  (insert (begin_ a + i) 0 v (a, w)).2.1 = a ∧
  contents a (insert (begin_ a + i) 0 v (a, w)).2.2 = tail ∧
  (erase_between (begin_ a + i) (begin_ a + i) (a, w)).1 = Ok (begin_ a + i) ∧
  (erase_between (begin_ a + i) (begin_ a + i) (a, w)).2.1 = a ∧
  contents a (erase_between (begin_ a + i) (begin_ a + i) (a, w)).2.2 = tail.
Proof.
  unfold array_size, begin_. intros Hok Hi. cbv zeta.
  pose proof (array_ok_size a w Hok) as [Hs Hc].
  pose proof heap_limit_double. pose proof modulus_pos.
  rewrite insert_as_seq, insert_init_as_seq. simpl length. simpl replicate.
  change (ByValue <$> []) with (@nil value_ref).
  change (wrap (Z.of_nat 0)) with 0.
  rewrite insert_seq_nothing by done. unfold index_of.
  replace (vec (impl_ a) + i - vec (impl_ a)) with i by lia.
  rewrite (wrap_small i), (wrap_small (_ - i)) by lia.
  rewrite erase_between_eq by (done || lia). cbn [fst snd].
  rewrite Z.sub_diag, Z.sub_0_r, with_size_id. simpl Z.to_nat.
  assert (Htail : ∀ m : gmap Z value,
    (∀ p, p < vec (impl_ a) + i → m !! p = mem w !! p) →
    contents a (set_mem (λ _, relocate (vec (impl_ a) + i) (vec (impl_ a) + i)
                               (size (impl_ a) - i) m) w) =
    take (Z.to_nat i) (contents a w) ++
    replicate (Z.to_nat (size (impl_ a) - i)) None).
  { intros m Hm. apply contents_is.
    - rewrite length_app, length_take, length_replicate, length_contents. lia.
    - intros k o Hk. simpl. rewrite relocate_self_lookup by lia.
      destruct (decide (k < Z.to_nat i)%nat) as [Hlt|Hge].
      + rewrite lookup_app_l in Hk by (rewrite length_take, length_contents; lia).
        rewrite lookup_take_lt in Hk by lia.
        rewrite contents_lookup, decide_True in Hk by lia.
        rewrite decide_False by lia. rewrite Hm by lia. congruence.
      + rewrite lookup_app_r in Hk by (rewrite length_take, length_contents; lia).
        apply lookup_replicate in Hk as [-> Hk].
        rewrite length_take, length_contents in Hk.
        by rewrite decide_True by lia. }
  split_and!; try done.
  - by apply (Htail (mem w)).
  - destruct (sp_need_free (sp_ a)); by apply (Htail (mem w)).
Qed.

(** ** Shrinking *)

(** X9: [pop_back()] on a non-empty container returns, lowers the size by
    one and keeps the buffer; the remaining elements are the old ones
    without the last.  The last slot is dead afterwards when the resource
    asks for destruction and no other slot changes; nothing is allocated or
    constructed. *)
Theorem pop_back_removes_last a w :
  array_ok a w → 0 < array_size a →
  let r := pop_back (a, w) in
  r.1 = Ok tt ∧ r.2.1 = with_size (array_size a - 1) a ∧
  contents r.2.1 r.2.2 = take (Z.to_nat (array_size a - 1)) (contents a w) ∧
  (∀ p, mem r.2.2 !! p =
     if decide (sp_need_free (sp_ a) = true ∧ p = begin_ a + (array_size a - 1))
     then None else mem w !! p) ∧
  brk r.2.2 = brk w ∧ alloc_plan r.2.2 = alloc_plan w ∧
  ctor_plan r.2.2 = ctor_plan w.
Proof.
  unfold array_size, begin_. intros Hok Hsz.
  pose proof (array_ok_size a w Hok) as [Hs Hc].
  pose proof heap_limit_double.
  unfold pop_back. munfold. rewrite destroy_eq. cbn [fst snd].
  rewrite wrap_small by lia.
  replace (Z.to_nat (vec (impl_ a) + (size (impl_ a) - 1) + 1 -
                     (vec (impl_ a) + (size (impl_ a) - 1)))) with 1%nat by lia.
  assert (Hlk : ∀ p,
    mem (if sp_need_free (sp_ a)
         then set_mem (destroy_loop (vec (impl_ a) + (size (impl_ a) - 1) + 1) 1) w
         else w) !! p =
    if decide (sp_need_free (sp_ a) = true ∧
               p = vec (impl_ a) + (size (impl_ a) - 1))
    then None else mem w !! p).
  { intros p. rewrite need_free_mem_lookup, destroy_loop_lookup.
    destruct (sp_need_free (sp_ a));
      repeat case_decide; first [done | lia | naive_solver lia]. }
  split_and!; try done; try by destruct (sp_need_free (sp_ a)).
  apply contents_is.
  - rewrite length_take, length_contents. simpl. lia.
  - intros k o Hk. pose proof (lookup_lt_Some _ _ _ Hk) as Hlt.
    rewrite length_take, length_contents in Hlt.
    rewrite lookup_take_lt, contents_lookup, decide_True in Hk by lia.
    rewrite Hlk. simpl. rewrite decide_False by lia. congruence.
Qed.

(** X10: [clear()] returns, sets the size to zero and keeps the buffer, the
    capacity and the resource.  The former elements are destroyed when the
    resource asks for destruction and no other slot changes; with a
    resource that does not, the heap is untouched. *)
Theorem clear_keeps_buffer a w :
  array_ok a w →
  let r := clear (a, w) in
  r.1 = Ok tt ∧ r.2.1 = with_size 0 a ∧ contents r.2.1 r.2.2 = [] ∧
  (∀ p, mem r.2.2 !! p =
     if decide (sp_need_free (sp_ a) = true ∧
                begin_ a ≤ p < begin_ a + array_size a)
     then None else mem w !! p) ∧
  brk r.2.2 = brk w ∧ alloc_plan r.2.2 = alloc_plan w ∧
  ctor_plan r.2.2 = ctor_plan w.
Proof.
  unfold array_size, begin_. intros Hok.
  pose proof (array_ok_size a w Hok) as [Hs Hc].
  unfold clear. munfold.
  destruct (Z.eqb_spec (vec (impl_ a)) 0) as [Hv|Hv]; simpl.
  - assert (size (impl_ a) = 0) as Hz.
    { destruct Hok as [[(?&?&?)|(?&?&?&?)] _]; lia. }
    split_and!; try done.
    + rewrite <- Hz. by rewrite with_size_id.
    + unfold contents. by rewrite Hz.
    + intros p. rewrite decide_False by lia. done.
  - rewrite destroy_eq. cbn [fst snd].
    split_and!; try done; try by destruct (sp_need_free (sp_ a)).
    intros p. simpl. rewrite need_free_mem_lookup, destroy_loop_lookup.
    destruct (sp_need_free (sp_ a));
      repeat case_decide; first [done | lia | naive_solver lia].
Qed.

(** X11: [clear()] followed by [shrink_to_fit()] returns and leaves the
    container with the empty descriptor (null buffer, capacity zero) and its
    resource; with a resource that asks for destruction the whole former
    buffer is given back, and nothing else changes. *)
Theorem clear_then_shrink_releases a w :
  array_ok a w →
  let r := (clear ;> shrink_to_fit) (a, w) in
  r.1 = Ok tt ∧ r.2.1 = Array (sp_ a) impl_empty ∧
  brk r.2.2 = brk w ∧
  (∀ p, mem r.2.2 !! p =
     if decide (sp_need_free (sp_ a) = true ∧ begin_ a ≠ 0 ∧
                begin_ a ≤ p < begin_ a + array_capacity a)
     then None else mem w !! p).
Proof.
  unfold begin_, array_capacity. intros Hok.
  pose proof (array_ok_size a w Hok) as [Hs _].
  cbv zeta. unfold bind at 1. unfold clear. munfold.
  destruct (Z.eqb_spec (vec (impl_ a)) 0) as [Hv|Hv].
  - assert (a = Array (sp_ a) impl_empty) as Ha.
    { destruct a as [sp [v s c]]. simpl in *.
      destruct Hok as [[(?&?&?)|(?&?&?&?)] _]; simpl in *; [|lia].
      by subst. }
    rewrite shrink_to_fit_eq. rewrite Ha. simpl.
    split_and!; try done. intros p.
    rewrite decide_False by (intros (_ & ? & _); done). done.
  - rewrite destroy_eq. cbn [fst snd]. simpl.
    rewrite shrink_to_fit_eq. simpl.
    assert (16 ≤ capacity (impl_ a)) as Hcap.
    { destruct Hok as [[(?&?&?)|(?&?&?&?)] _]; lia. }
    destruct (Z.leb_spec (capacity (impl_ a)) 0); [lia|].
    unfold array_dtor. simpl.
    match goal with |- context [impl_destroy ?sp ?i ?w0] =>
      pose proof (impl_destroy_world sp i w0) as (Hdb & _ & _ & Hlook);
        [simpl; lia|]
    end.
    simpl in Hdb, Hlook. split_and!; try done.
    + rewrite Hdb. by destruct (sp_need_free (sp_ a)).
    + intros p. rewrite Hlook, need_free_mem_lookup, destroy_loop_lookup.
      destruct (sp_need_free (sp_ a)), (Z.eqb_spec (vec (impl_ a)) 0); simpl;
        repeat case_decide; first [done | lia | naive_solver lia].
Qed.

(** ** Resizing *)
Lemma shrink_contents a w count :
  array_ok a w → 0 ≤ count ≤ size (impl_ a) →
  contents (with_size count a)
    (if sp_need_free (sp_ a)
     then set_mem (destroy_loop (vec (impl_ a) + size (impl_ a))
                     (Z.to_nat (vec (impl_ a) + size (impl_ a) -
                                (vec (impl_ a) + count)))) w
     else w) =
    take (Z.to_nat count) (contents a w).
Proof.
  intros Hok Hc. apply contents_is.
  - rewrite length_take, length_contents. simpl. lia.
  - intros k o Hk. pose proof (lookup_lt_Some _ _ _ Hk) as Hlt.
    rewrite length_take, length_contents in Hlt.
    rewrite lookup_take_lt, contents_lookup, decide_True in Hk by lia.
    simpl. rewrite need_free_mem_lookup, destroy_loop_lookup.
    destruct (sp_need_free (sp_ a)); [|congruence].
    rewrite decide_False by lia. congruence.
Qed.

Lemma refers_outside_read a w v x (m : gmap Z value) :
  refers_outside a w v x →
  (∀ q, q < brk w →
        ¬ (vec (impl_ a) ≤ q < vec (impl_ a) + capacity (impl_ a)) →
        m !! q = mem w !! q) →
  read_ref v m = Some x.
Proof.
  intros Hv Hm. destruct v as [y|q]; simpl in *; [by subst|].
  destruct Hv as (Hq & Hout & Hx). by rewrite Hm.
Qed.

Lemma grow_contents a w a1 w1 count f x :
  array_ok a w → reserved count a w a1 w1 → size (impl_ a) < count →
  (∀ m : gmap Z value,
     (∀ q, q < brk w →
           ¬ (vec (impl_ a) ≤ q < vec (impl_ a) + capacity (impl_ a)) →
           m !! q = mem w !! q) →
     f m = Some x) →
  let k := Z.to_nat (count - size (impl_ a)) in
  let r := write_run (vec (impl_ a1) + size (impl_ a)) (replicate k f) w1 in
  r.1 = k →
  contents (with_size count a1) r.2 = contents a w ++ replicate k (Some x).
Proof.
  intros Hok Hr Hlt Hread k r Hfull.
  pose proof (array_ok_size a w Hok) as [Hs _].
  destruct Hr as (_ & Hsz & _ & Hn1 & _ & _ & _ & Hslots & Hframe & Hmoved).
  pose proof (write_run_spec (replicate k f)
                (vec (impl_ a1) + size (impl_ a)) w1)
    as (_ & _ & _ & _ & Hfr & Hel).
  fold r in Hfr, Hel. rewrite Hfull in Hfr, Hel.
  assert (Hfree : ∀ q, q < brk w →
    ¬ (vec (impl_ a) ≤ q < vec (impl_ a) + capacity (impl_ a)) →
    ¬ (vec (impl_ a1) ≤ q < vec (impl_ a1) + count)).
  { intros q Hq Hnot. destruct Hmoved as [[-> ->]|[Hv _]]; lia. }
  apply contents_is.
  - rewrite length_app, length_replicate, length_contents. simpl. lia.
  - intros j o Hj. simpl.
    destruct (decide (Z.of_nat j < size (impl_ a))) as [Hin|Hout].
    + rewrite lookup_app_l in Hj by (rewrite length_contents; lia).
      rewrite contents_lookup, decide_True in Hj by done.
      rewrite Hfr by lia. rewrite Hslots by lia. congruence.
    + rewrite lookup_app_r in Hj by (rewrite length_contents; lia).
      rewrite length_contents in Hj.
      apply lookup_replicate in Hj as [-> Hjk].
      replace (vec (impl_ a1) + Z.of_nat j) with
        (vec (impl_ a1) + size (impl_ a) +
         Z.of_nat (j - Z.to_nat (size (impl_ a)))) by lia.
      rewrite (Hel _ f).
      * apply Hread. intros q Hq Hnot. by apply Hframe.
      * apply lookup_replicate. split; [done|lia].
      * lia.
      * intros m Hm. rewrite !Hread; [done|by apply Hframe|].
        intros q Hq Hnot. pose proof (Hfree q Hq Hnot).
        rewrite Hm by (rewrite length_replicate; lia). by apply Hframe.
Qed.

Lemma take_all_contents a w count :
  size (impl_ a) ≤ count →
  take (Z.to_nat count) (contents a w) = contents a w.
Proof. intros. apply take_ge. rewrite length_contents. lia. Qed.

(** X12: when the block [reserve] asks for holds at most [max_size()]
    elements and [v] refers to a value [x] that is not an element slot of
    the container, a returning [resize(count, v)] keeps the resource, sets
    the size to [count] and never lowers the capacity; the container then
    holds the first [count] of its old elements followed by
    [count - size()] copies of [x] (none when [count ≤ size()]).
    [resize(count)] does the same with null elements.  When
    [count ≤ size()] both overloads do the same thing, whatever [v] refers
    to: they return, keep the buffer, and with a resource that asks for
    destruction leave no live element between the new and the old end. *)
Theorem resize_contents a w count v x :
  array_ok a w → 0 ≤ count → in_max_size a count →
  on_return (resize_value count v (a, w)) (λ _ s',
    refers_outside a w v x →
    sp_ s'.1 = sp_ a ∧ array_size s'.1 = count ∧
    array_capacity a ≤ array_capacity s'.1 ∧
    contents s'.1 s'.2 =
      take (Z.to_nat count) (contents a w) ++
      replicate (Z.to_nat (count - array_size a)) (Some x)) ∧
  on_return (resize count (a, w)) (λ _ s',
    sp_ s'.1 = sp_ a ∧ array_size s'.1 = count ∧
    array_capacity a ≤ array_capacity s'.1 ∧
    contents s'.1 s'.2 =
      take (Z.to_nat count) (contents a w) ++
      replicate (Z.to_nat (count - array_size a)) (Some kind_null)) ∧
  (count ≤ array_size a →
   resize_value count v (a, w) = resize count (a, w) ∧
   (resize count (a, w)).1 = Ok tt ∧
   (resize count (a, w)).2.1 = with_size count a ∧
   (sp_need_free (sp_ a) = true →
    ∀ k, count ≤ k < array_size a →
         mem (resize count (a, w)).2.2 !! (begin_ a + k) = None)).
Proof.
  unfold array_size, array_capacity, begin_, on_return.
  intros Hok Hc Hfit. pose proof (array_ok_size a w Hok) as [Hs _].
  destruct (decide (count ≤ size (impl_ a))) as [Hle|Hgt].
  - assert (Hsh : resize count (a, w) =
      (Ok tt, (with_size count a,
               if sp_need_free (sp_ a)
               then set_mem (destroy_loop (vec (impl_ a) + size (impl_ a))
                               (Z.to_nat (vec (impl_ a) + size (impl_ a) -
                                          (vec (impl_ a) + count)))) w
               else w))).
    { unfold resize. munfold.
      destruct (Z.leb_spec count (size (impl_ a))); [|lia].
      by rewrite destroy_eq. }
    assert (Hshv : resize_value count v (a, w) = resize count (a, w)).
    { unfold resize_value, resize. munfold.
      by destruct (Z.leb_spec count (size (impl_ a))); [|lia]. }
    rewrite Hshv, Hsh. cbn [fst snd].
    replace (Z.to_nat (count - size (impl_ a))) with 0%nat by lia.
    simpl replicate. rewrite !app_nil_r.
    rewrite shrink_contents by (done || lia).
    split_and!; try done. intros _. split_and!; try done.
    intros Hnf k Hk. rewrite Hnf. simpl.
    rewrite destroy_loop_lookup, decide_True by lia. done.
  - split_and!; [| |lia].
    + rewrite resize_value_grow_eq by lia.
      destruct (reserve_cases count a w Hok)
        as [(w1 & -> & _)|(a1 & w1 & -> & Hr)]; [done|].
      cbn [fst snd]. cbv zeta.
      pose proof Hr as (Hsp & Hsz & Hcap & _). rewrite Hsz.
      unfold loop_outcome. case_decide as Hfull; [|done]. simpl.
      intros Hv. split_and!; try done.
      rewrite take_all_contents by lia.
      apply (grow_contents a w a1 w1 count (read_ref v) x);
        [done|done|lia| |done].
      intros m Hm. by apply (refers_outside_read a w).
    + rewrite resize_grow_eq by lia.
      destruct (reserve_cases count a w Hok)
        as [(w1 & -> & _)|(a1 & w1 & -> & Hr)]; [done|].
      cbn [fst snd]. cbv zeta.
      pose proof Hr as (Hsp & Hsz & Hcap & _). rewrite Hsz.
      unfold loop_outcome. case_decide as Hfull; [|done]. simpl.
      split_and!; try done.
      rewrite take_all_contents by lia.
      by apply (grow_contents a w a1 w1 count (λ _, Some kind_null) kind_null);
        [done|done|lia| |done].
Qed.

(** ** Filling a fresh container

    The constructors and the assignments run one of three loops on a
    container with the empty descriptor: [reserve], then one construction
    per element at the end of the buffer. *)
Lemma reserve_fresh n sp w :
  world_ok w → 0 ≤ n →
  if decide (n = 0) then reserve n (array_sp sp, w) = (Ok tt, (array_sp sp, w))
  else if will_allocate (Z.max 16 n) w
  then ∃ w1, reserve n (array_sp sp, w) =
               (Ok tt, (Array sp (Impl (brk w) 0 (Z.max 16 n)), w1)) ∧
             brk w1 = brk w + Z.max 16 n ∧ ctor_plan w1 = ctor_plan w ∧
             brk w1 ≤ heap_limit ∧
             ∀ p, mem w1 !! p = mem w !! p
  else ∃ w1, reserve n (array_sp sp, w) = (Throw bad_alloc, (array_sp sp, w1)) ∧
             brk w1 = brk w ∧ ctor_plan w1 = ctor_plan w ∧ mem w1 = mem w.
Proof.
  intros Hw Hn. rewrite reserve_eq. simpl.
  destruct (decide (n = 0)) as [->|Hnz]; [done|].
  destruct (Z.leb_spec n 0); [lia|].
  rewrite reserve_impl_eq by by apply array_ok_empty.
  cbv zeta. change (growth (impl_ (array_sp sp)) n) with n.
  destruct (will_allocate _ w) eqn:Hal; [|by eexists].
  eexists. split; [reflexivity|]. simpl.
  match goal with |- context [impl_destroy ?sp ?i ?w0] =>
    pose proof (impl_destroy_world sp i w0) as (Hdb & Hdc & Hda & Hlook);
      [simpl; lia|]
  end.
  simpl in Hdb, Hdc, Hlook. split_and!; try done.
  - rewrite Hdb. unfold will_allocate in Hal.
    destruct (alloc_plan w) as [|[] ?]; try done; by case_bool_decide.
  - intros p. rewrite Hlook. rewrite ?decide_False by (by intros [? _]).
    rewrite relocate_lookup by lia. unfold relocated.
    by rewrite !decide_False by lia.
Qed.

(** The loop: when it returns the container owns a block at the old
    break, of [max(16, n)] slots, holding the [n] elements; when it throws,
    either nothing was allocated or the block is there with the elements
    constructed so far. *)
Lemma build_run {A} (body : A → M st unit)
    (prod : A → gmap Z value → option value) sp w (l : list A) n :
  (∀ x a w, body x (a, w) =
     match ctor_plan w with
     | false :: pl =>
         (Throw ctor_error, (a, World (mem w) (brk w) (alloc_plan w) pl))
     | pl =>
         (Ok tt,
          (with_size (wrap (size (impl_ a) + 1)) a,
           World (partial_alter (λ _, prod x (mem w))
                    (vec (impl_ a) + size (impl_ a)) (mem w))
             (brk w) (alloc_plan w) (tail pl)))
     end) →
  world_ok w → Z.of_nat (length l) = n → n < modulus →
  (∀ (k : nat) x m, l !! k = Some x →
     (∀ q, q < brk w → m !! q = mem w !! q) → prod x m = prod x (mem w)) →
  match (match reserve n (array_sp sp, w) with
         | (Throw e, s) => (Throw e, s)
         | (Ok _, s) => forM l body s
         end) with
  | (Ok _, (a', w')) =>
      a' = Array sp (if decide (n = 0) then impl_empty
                     else Impl (brk w) n (Z.max 16 n)) ∧
      array_ok a' w' ∧
      brk w' = (if decide (n = 0) then brk w else brk w + Z.max 16 n) ∧
      contents a' w' = (λ x, prod x (mem w)) <$> l ∧
      (∀ p, p < brk w → mem w' !! p = mem w !! p)
  | (Throw e, (a', w')) =>
      sp_ a' = sp ∧ array_ok a' w' ∧ 0 < n ∧
      (∀ p, p < brk w → mem w' !! p = mem w !! p) ∧
      ((e = bad_alloc ∧ a' = array_sp sp ∧ brk w' = brk w ∧ mem w' = mem w) ∨
       (e = ctor_error ∧ vec (impl_ a') = brk w ∧
        capacity (impl_ a') = Z.max 16 n ∧ brk w' = brk w + Z.max 16 n))
  end.
Proof.
  intros Hbody Hw Hlen Hn Hprod.
  pose proof heap_limit_double. pose proof modulus_pos.
  assert (0 ≤ n) by lia.
  pose proof (reserve_fresh n sp w Hw ltac:(done)) as Hres.
  destruct (decide (n = 0)) as [Hz|Hnz].
  { rewrite Hres. destruct l; [|simpl in Hlen; lia]. simpl.
    split_and!; try done. by apply array_ok_empty. }
  destruct (will_allocate _ w).
  2:{ destruct Hres as (w1 & -> & Hb & Hc & Hm).
      split_and!; try done; try lia.
      - apply (array_ok_brk _ w); [by apply array_ok_empty|done].
      - intros. by rewrite Hm.
      - left. done. }
  destruct Hres as (w1 & -> & Hb & Hc & Hlim & Hm).
  rewrite (push_loop _ prod Hbody) by (simpl; lia).
  cbn zeta. simpl vec. simpl size. rewrite Z.add_0_r, Z.add_0_l.
  pose proof (write_run_spec (prod <$> l) (brk w) w1)
    as (Hj & _ & Hb2 & _ & Hfr2 & Hel).
  rewrite length_fmap in Hj, Hel.
  destruct (write_run (brk w) _ w1) as [j w2]. cbn [fst snd] in *.
  assert (Hlow : ∀ p, p < brk w → mem w2 !! p = mem w !! p).
  { intros p Hp. rewrite Hfr2, Hm; [done|lia]. }
  assert (Hok2 : ∀ k, 0 ≤ k ≤ n →
            array_ok (with_size k (Array sp (Impl (brk w) 0 (Z.max 16 n)))) w2).
  { intros k Hk. split; [right|]; unfold world_ok in *; simpl; lia. }
  unfold loop_outcome. destruct (decide (j = length l)) as [->|Hjl].
  - split_and!; try done.
    + unfold with_size, set_impl, impl_set_size. simpl. by rewrite Hlen.
    + apply Hok2. lia.
    + lia.
    + apply contents_is; [by rewrite length_fmap|].
      intros k o Hk. rewrite list_lookup_fmap in Hk.
      destruct (l !! k) as [x|] eqn:E; [|done]. injection Hk as <-.
      pose proof (lookup_lt_Some _ _ _ E). simpl vec.
      rewrite (Hel k (prod x)); [|by rewrite list_lookup_fmap, E|lia|].
      * apply Hprod with k; [done|]. intros q Hq. apply Hm.
      * intros m Hmm. rewrite (Hprod k x m E).
        -- symmetry. apply Hprod with k; [done|]. intros q Hq. apply Hm.
        -- intros q Hq. rewrite Hmm by lia. apply Hm.
  - split_and!; try done.
    + apply Hok2. lia.
    + lia.
    + right. simpl. split_and!; try done. lia.
Qed.

(** The same loop under [undo_create]: a failure tears the block down. *)
Lemma build_guarded {A} (body : A → M st unit)
    (prod : A → gmap Z value → option value) sp w (l : list A) n :
  (∀ x a w, body x (a, w) =
     match ctor_plan w with
     | false :: pl =>
         (Throw ctor_error, (a, World (mem w) (brk w) (alloc_plan w) pl))
     | pl =>
         (Ok tt,
          (with_size (wrap (size (impl_ a) + 1)) a,
           World (partial_alter (λ _, prod x (mem w))
                    (vec (impl_ a) + size (impl_ a)) (mem w))
             (brk w) (alloc_plan w) (tail pl)))
     end) →
  world_ok w → Z.of_nat (length l) = n → n < modulus →
  (∀ (k : nat) x m, l !! k = Some x →
     (∀ q, q < brk w → m !! q = mem w !! q) → prod x m = prod x (mem w)) →
  match (match (match reserve n (array_sp sp, w) with
                | (Throw e, s) => (Throw e, s)
                | (Ok _, s) => forM l body s
                end) with
         | (Ok _, s) => (Ok s.1, s.2)
         | (Throw e, s) => (Throw e, (impl_destroy (sp_ s.1) (impl_ s.1) s.2).2)
         end) with
  | (Ok a', w') =>
      a' = Array sp (if decide (n = 0) then impl_empty
                     else Impl (brk w) n (Z.max 16 n)) ∧
      contents a' w' = (λ x, prod x (mem w)) <$> l ∧
      (∀ p, p < brk w → mem w' !! p = mem w !! p)
  | (Throw e, w') =>
      0 < n ∧ (e = bad_alloc ∨ e = ctor_error) ∧
      (∀ p, p < brk w → mem w' !! p = mem w !! p) ∧
      (sp_need_free sp = true →
       ∀ p, brk w ≤ p < brk w' → mem w' !! p = None)
  end.
Proof.
  intros Hbody Hw Hlen Hn Hprod.
  pose proof (build_run body prod sp w l n Hbody Hw Hlen Hn Hprod) as Hrun.
  destruct (match reserve n (array_sp sp, w) with
            | (Throw e, s) => (Throw e, s)
            | (Ok _, s) => forM l body s
            end) as [[[]|e] [a' w']]; cbn [fst snd].
  - by destruct Hrun as (-> & Hok & Hb & Hel & Hlow).
  - destruct Hrun as (Hsp & Hok & Hpos & Hlow & Hcase).
    pose proof (array_ok_size _ _ Hok) as [Hsz _].
    pose proof (impl_destroy_world (sp_ a') (impl_ a') w' Hsz)
      as (Hdb & _ & _ & Hlook).
    split_and!; try done.
    + naive_solver.
    + intros p Hp. rewrite Hlook.
      destruct (decide (_ ∧ _)) as [[Hd1 Hd2]|]; [|by apply Hlow].
      destruct Hcase as [(_ & -> & _)|(_ & Hv & _)]; [done|lia].
    + intros Hnf p Hp. rewrite Hlook, Hdb in *.
      destruct Hcase as [(_ & -> & ? & _)|(_ & Hv & Hc & Hb)]; [lia|].
      rewrite decide_True; [done|]. rewrite Hsp, Hnf.
      split; [|lia]. by destruct (Z.eqb_spec (vec (impl_ a')) 0);
        [unfold world_ok in Hw; lia|].
Qed.

Lemma fill_fresh_eq count v sp w :
  0 ≤ count →
  (reserve count ;> fill_loop count v) (array_sp sp, w) =
    match reserve count (array_sp sp, w) with
    | (Throw e, s) => (Throw e, s)
    | (Ok _, s) =>
        forM (replicate (Z.to_nat count) v) (λ v,
          let* a := this in
          on_world (construct_at (vec (impl_ a) + size (impl_ a)) v) ;>
          put_size (wrap (size (impl_ a) + 1))) s
    end.
Proof.
  intros Hc. rewrite fill_eq.
  destruct (reserve_cases_any count (array_sp sp) w)
    as [(a' & w' & e & -> & _)|(a' & w' & -> & Hsz)]; [done|].
  cbn [fst snd]. rewrite Hsz. simpl. by rewrite Z.sub_0_r.
Qed.

(** X13: for a [count] such that the block asked for holds at most
    [max_size()] elements, a returning [array(count, v, sp)] yields a
    container on [sp] of size [count] holding [count] copies of [v], with
    the empty descriptor when [count = 0] and otherwise a block of
    [max(16, count)] slots at the old break; nothing below the old break
    changes.  When it throws, the exception is [bad_alloc] or
    [ctor_error], nothing below the old break has changed, and with a
    resource that asks for destruction no live element is left in what was
    allocated.  [array(count, sp)] yields [count] null elements. *)
Theorem counted_constructor count v sp w :
  world_ok w → 0 ≤ count → in_max_size (array_sp sp) count →
  on_return (array_count_value count v sp w) (λ a' w',
    a' = Array sp (if decide (count = 0) then impl_empty
                   else Impl (brk w) count (Z.max 16 count)) ∧
    contents a' w' = replicate (Z.to_nat count) (Some v) ∧
    (∀ p, p < brk w → mem w' !! p = mem w !! p)) ∧
  on_throw (array_count_value count v sp w) (λ e w',
    0 < count ∧ (e = bad_alloc ∨ e = ctor_error) ∧
    (∀ p, p < brk w → mem w' !! p = mem w !! p) ∧
    (sp_need_free sp = true →
     ∀ p, brk w ≤ p < brk w' → mem w' !! p = None)) ∧
  on_return (array_count count sp w) (λ a' w',
    array_size a' = count ∧
    contents a' w' = replicate (Z.to_nat count) (Some kind_null)).
Proof.
  intros Hw Hc0 Hfit.
  pose proof (in_max_size_lt _ w count (array_ok_empty sp w Hw) Hfit) as Hc.
  assert (∀ v', match array_count_value count v' sp w with
    | (Ok a', w') =>
        a' = Array sp (if decide (count = 0) then impl_empty
                       else Impl (brk w) count (Z.max 16 count)) ∧
        contents a' w' = replicate (Z.to_nat count) (Some v') ∧
        (∀ p, p < brk w → mem w' !! p = mem w !! p)
    | (Throw e, w') =>
        0 < count ∧ (e = bad_alloc ∨ e = ctor_error) ∧
        (∀ p, p < brk w → mem w' !! p = mem w !! p) ∧
        (sp_need_free sp = true →
         ∀ p, brk w ≤ p < brk w' → mem w' !! p = None)
    end) as Hall.
  { intros v'. unfold array_count_value.
    rewrite new_object_guarded2_eq, fill_fresh_eq by lia.
    pose proof (build_guarded
      (λ v, let* a := this in
            on_world (construct_at (vec (impl_ a) + size (impl_ a)) v) ;>
            put_size (wrap (size (impl_ a) + 1)))
      (λ v _, Some v) sp w
      (replicate (Z.to_nat count) v') count push_body_eq Hw) as Hb.
    rewrite length_replicate, fmap_replicate in Hb.
    apply Hb; [lia|lia|done]. }
  unfold on_return, on_throw, array_count. split_and!.
  - specialize (Hall v). by destruct (array_count_value count v sp w) as [[?|?] ?].
  - specialize (Hall v). by destruct (array_count_value count v sp w) as [[?|?] ?].
  - specialize (Hall kind_null).
    destruct (array_count_value count kind_null sp w) as [[a'|?] w']; [|done].
    simpl. destruct Hall as (-> & Hcont & _). split; [|done].
    unfold array_size. by case_decide.
Qed.

Lemma copy_source_stable o w (k : nat) x (m : gmap Z value) :
  array_ok o w →
  seqZ (vec (impl_ o)) (size (impl_ o)) !! k = Some x →
  (∀ q, q < brk w → m !! q = mem w !! q) → m !! x = mem w !! x.
Proof.
  intros Hok [-> Hk]%lookup_seqZ Hm. apply Hm.
  destruct Hok as [[(?&?&?)|(?&?&?&?)] ?]; lia.
Qed.

Lemma array_copy_sp_spec o sp w :
  array_ok o w →
  match array_copy_sp o sp w with
  | (Ok a', w') =>
      a' = Array sp (if decide (size (impl_ o) = 0) then impl_empty
                     else Impl (brk w) (size (impl_ o))
                            (Z.max 16 (size (impl_ o)))) ∧
      contents a' w' = contents o w ∧
      (∀ p, p < brk w → mem w' !! p = mem w !! p)
  | (Throw e, w') =>
      0 < size (impl_ o) ∧ (e = bad_alloc ∨ e = ctor_error) ∧
      (∀ p, p < brk w → mem w' !! p = mem w !! p) ∧
      (sp_need_free sp = true →
       ∀ p, brk w ≤ p < brk w' → mem w' !! p = None)
  end.
Proof.
  intros Hok. unfold array_copy_sp.
  rewrite new_object_guarded_eq, copy_other_eq.
  pose proof (array_ok_size o w Hok) as [Hs Hc].
  pose proof heap_limit_double.
  pose proof (build_guarded
    (λ src, let* a := this in
            on_world (construct_copy (vec (impl_ a) + size (impl_ a)) src) ;>
            put_size (wrap (size (impl_ a) + 1)))
    (λ src m, m !! src) sp w (seqZ (vec (impl_ o)) (size (impl_ o)))
    (size (impl_ o)) copy_body_eq (proj2 Hok)) as Hb.
  rewrite <- contents_seqZ in Hb.
  apply Hb; [rewrite length_seqZ; lia|lia|].
  intros k x m. by apply copy_source_stable.
Qed.





(** X14: a returning [array(other, sp)] yields a container on [sp] with
    the element sequence of [other], in a block of [max(16, size)] slots at
    the old break (the empty descriptor when [other] is empty), and [other]
    keeps its elements.  When it throws, [other] keeps its elements, nothing
    below the old break has changed, and with a resource that asks for
    destruction no live element is left in what was allocated.
    [array(other)] does the same on the resource of [other]. *)
Theorem copy_constructor o sp w :
  array_ok o w →
  on_return (array_copy_sp o sp w) (λ a' w',
    a' = Array sp (if decide (array_size o = 0) then impl_empty
                   else Impl (brk w) (array_size o)
                          (Z.max 16 (array_size o))) ∧
    contents a' w' = contents o w ∧ contents o w' = contents o w ∧
    (∀ p, p < brk w → mem w' !! p = mem w !! p)) ∧
  on_throw (array_copy_sp o sp w) (λ e w',
    (e = bad_alloc ∨ e = ctor_error) ∧ contents o w' = contents o w ∧
    (∀ p, p < brk w → mem w' !! p = mem w !! p) ∧
    (sp_need_free sp = true →
     ∀ p, brk w ≤ p < brk w' → mem w' !! p = None)) ∧
  on_return (array_copy o w) (λ a' w',
    sp_ a' = sp_ o ∧ array_size a' = array_size o ∧
    contents a' w' = contents o w).
Proof.
  intros Hok. unfold on_return, on_throw, array_copy, array_size.
  split_and!.
  - pose proof (array_copy_sp_spec o sp w Hok) as Hs.
    destruct (array_copy_sp o sp w) as [[a'|e] w']; [|done]. simpl.
    destruct Hs as (? & ? & Hlow). split_and!; try done.
    by apply contents_low.
  - pose proof (array_copy_sp_spec o sp w Hok) as Hs.
    destruct (array_copy_sp o sp w) as [[a'|e] w']; [done|]. simpl.
    destruct Hs as (? & ? & Hlow & ?). split_and!; try done.
    by apply contents_low.
  - pose proof (array_copy_sp_spec o (sp_ o) w Hok) as Hs.
    destruct (array_copy_sp o (sp_ o) w) as [[a'|e] w']; [|done]. simpl.
    destruct Hs as (-> & ? & Hlow). split_and!; try done.
    by case_decide.
Qed.

(** X15: a returning [array(std::move(other), sp)] yields a container on
    [sp] with the element sequence [other] had.  When [sp] is the resource
    of [other] it takes the descriptor of [other], which is left empty, and
    the heap is untouched; otherwise it is a copy, and [other] keeps its
    descriptor and its elements. *)
Theorem move_constructor_with_resource o sp w :
  array_ok o w →
  on_return (array_move_sp sp (o, w)) (λ a' s',
    sp_ a' = sp ∧ array_size a' = array_size o ∧
    contents a' s'.2 = contents o w ∧
    if sp_equal sp (sp_ o)
    then impl_ a' = impl_ o ∧ s'.1 = set_impl impl_empty o ∧ s'.2 = w
    else s'.1 = o ∧ contents o s'.2 = contents o w ∧
         (array_size o = 0 ∨ begin_ a' = brk w)).
Proof.
  intros Hok. unfold on_return, array_size, begin_. rewrite array_move_sp_eq.
  destruct (sp_equal sp (sp_ o)); [done|].
  pose proof (array_copy_sp_spec o sp w Hok) as Hs.
  destruct (array_copy_sp o sp w) as [[a'|e] w']; [|done]. simpl.
  destruct Hs as (-> & ? & Hlow). simpl. split_and!; try done.
  - by case_decide.
  - by apply contents_low.
  - case_decide; [by left|by right].
Qed.

(** X16: [array(init, sp)] throws [length_error], with the heap untouched,
    when the list is longer than [max_size()].  Otherwise, when it returns,
    the container is on [sp] and holds the elements of the list in order,
    in a block of [max(16, length)] slots at the old break (the empty
    descriptor for the empty list); when it throws, nothing below the old
    break has changed and with a resource that asks for destruction no live
    element is left in what was allocated. *)
Theorem list_constructor init sp w :
  world_ok w →
  if decide (max_size < Z.of_nat (length init))
  then array_init init sp w = (Throw length_error, w)
  else
    on_return (array_init init sp w) (λ a' w',
      a' = Array sp (if decide (Z.of_nat (length init) = 0) then impl_empty
                     else Impl (brk w) (Z.of_nat (length init))
                            (Z.max 16 (Z.of_nat (length init)))) ∧
      contents a' w' = Some <$> init ∧
      (∀ p, p < brk w → mem w' !! p = mem w !! p)) ∧
    on_throw (array_init init sp w) (λ e w',
      (e = bad_alloc ∨ e = ctor_error) ∧
      (∀ p, p < brk w → mem w' !! p = mem w !! p) ∧
      (sp_need_free sp = true →
       ∀ p, brk w ≤ p < brk w' → mem w' !! p = None)).
Proof.
  intros Hw. unfold array_init.
  rewrite new_object_guarded_eq, copy_init_eq.
  pose proof max_size_lt.
  destruct (Z.ltb_spec max_size (Z.of_nat (length init))) as [Hlong|Hfit].
  { rewrite decide_True by done. cbn [fst snd].
    change (impl_ (array_sp sp)) with impl_empty.
    by rewrite impl_destroy_empty. }
  rewrite decide_False by lia. rewrite wrap_small by lia.
  pose proof (build_guarded
    (λ v, let* a := this in
          on_world (construct_at (vec (impl_ a) + size (impl_ a)) v) ;>
          put_size (wrap (size (impl_ a) + 1)))
    (λ v _, Some v) sp w init (Z.of_nat (length init)) push_body_eq Hw
    eq_refl ltac:(lia) ltac:(done)) as Hs.
  unfold on_return, on_throw.
  match type of Hs with match ?r with _ => _ end =>
    destruct r as [[a'|e] w']
  end; simpl.
  - split; [done|done].
  - split; [done|]. by destruct Hs as (_ & ? & ? & ?).
Qed.

(** ** Assignment *)
Lemma set_impl_back a a' : sp_ a' = sp_ a → set_impl (impl_ a) a' = a.
Proof. destruct a, a'. simpl. by intros ->. Qed.

(** An assignment: the buffer is detached, the loop fills a fresh one,
    and [undo_assign] destroys the old buffer when the loop returned and
    the new one, putting the old one back, when it threw. *)
Lemma assign_run {A} (body : A → M st unit)
    (prod : A → gmap Z value → option value) a w (l : list A) n :
  (∀ x a w, body x (a, w) =
     match ctor_plan w with
     | false :: pl =>
         (Throw ctor_error, (a, World (mem w) (brk w) (alloc_plan w) pl))
     | pl =>
         (Ok tt,
          (with_size (wrap (size (impl_ a) + 1)) a,
           World (partial_alter (λ _, prod x (mem w))
                    (vec (impl_ a) + size (impl_ a)) (mem w))
             (brk w) (alloc_plan w) (tail pl)))
     end) →
  array_ok a w → Z.of_nat (length l) = n → n < modulus →
  (∀ (k : nat) x m, l !! k = Some x →
     (∀ q, q < brk w → m !! q = mem w !! q) → prod x m = prod x (mem w)) →
  match (match (match reserve n (set_impl impl_empty a, w) with
                | (Throw e, s) => (Throw e, s)
                | (Ok _, s) => forM l body s
                end) with
         | (Ok _, s) => (Ok tt, (s.1, (impl_destroy (sp_ s.1) (impl_ a) s.2).2))
         | (Throw e, s) =>
             (Throw e, (set_impl (impl_ a) s.1,
                        (impl_destroy (sp_ s.1) (impl_ s.1) s.2).2))
         end) with
  | (Ok _, (a', w')) =>
      a' = Array (sp_ a) (if decide (n = 0) then impl_empty
                          else Impl (brk w) n (Z.max 16 n)) ∧
      contents a' w' = (λ x, prod x (mem w)) <$> l ∧
      (∀ p, p < brk w → mem w' !! p =
         if decide (sp_need_free (sp_ a) = true ∧ vec (impl_ a) ≠ 0 ∧
                    vec (impl_ a) ≤ p < vec (impl_ a) + capacity (impl_ a))
         then None else mem w !! p)
  | (Throw e, (a', w')) =>
      0 < n ∧ (e = bad_alloc ∨ e = ctor_error) ∧ a' = a ∧
      contents a w' = contents a w ∧
      (∀ p, p < brk w → mem w' !! p = mem w !! p) ∧
      (sp_need_free (sp_ a) = true →
       ∀ p, brk w ≤ p < brk w' → mem w' !! p = None)
  end.
Proof.
  intros Hbody Hok Hlen Hn Hprod.
  change (set_impl impl_empty a) with (array_sp (sp_ a)).
  pose proof (build_run body prod (sp_ a) w l n Hbody (proj2 Hok) Hlen Hn Hprod)
    as Hrun.
  pose proof (build_guarded body prod (sp_ a) w l n Hbody (proj2 Hok) Hlen Hn
                Hprod) as Hg.
  pose proof (array_ok_size a w Hok) as [Hsz _].
  destruct (match reserve n (array_sp (sp_ a), w) with
            | (Throw e, s) => (Throw e, s)
            | (Ok _, s) => forM l body s
            end) as [[[]|e] [a' w']]; cbn [fst snd] in *.
  - destruct Hrun as (-> & Hok' & Hb & Hcont & Hlow). simpl sp_.
    pose proof (impl_destroy_world (sp_ a) (impl_ a) w' Hsz)
      as (Hdb & _ & _ & Hlook).
    assert (Hin : vec (impl_ a) = 0 ∨
                  0 < vec (impl_ a) ∧ vec (impl_ a) + capacity (impl_ a) ≤ brk w).
    { destruct Hok as [[(?&?&?)|(?&?&?&?)] ?]; [by left|right; lia]. }
    split_and!; try done.
    + rewrite <- Hcont. apply contents_eq; [done|]. intros i Hi.
      rewrite Hlook. rewrite decide_False; [done|].
      intros [Hne Hrange]. simpl in *. case_decide; simpl in *; [lia|].
      apply andb_prop in Hne as [Hne _].
      destruct (Z.eqb_spec (vec (impl_ a)) 0); [done|]. lia.
    + intros p Hp. rewrite Hlook, Hlow by done.
      destruct (sp_need_free (sp_ a)), (Z.eqb_spec (vec (impl_ a)) 0); simpl;
        repeat case_decide; first [done | lia | naive_solver lia].
  - destruct Hg as (Hpos & He & Hlow & Hleak).
    destruct Hrun as (Hsp & _).
    split_and!; try done.
    + by apply set_impl_back.
    + by apply contents_low.
Qed.

Lemma assign_copy_spec a o w :
  array_ok a w → array_ok o w →
  match assign_copy (Other o) (a, w) with
  | (Ok _, (a', w')) =>
      a' = Array (sp_ a) (if decide (size (impl_ o) = 0) then impl_empty
                          else Impl (brk w) (size (impl_ o))
                                 (Z.max 16 (size (impl_ o)))) ∧
      contents a' w' = contents o w ∧
      (∀ p, p < brk w → mem w' !! p =
         if decide (sp_need_free (sp_ a) = true ∧ vec (impl_ a) ≠ 0 ∧
                    vec (impl_ a) ≤ p < vec (impl_ a) + capacity (impl_ a))
         then None else mem w !! p)
  | (Throw e, (a', w')) =>
      0 < size (impl_ o) ∧ (e = bad_alloc ∨ e = ctor_error) ∧ a' = a ∧
      contents a w' = contents a w ∧
      (∀ p, p < brk w → mem w' !! p = mem w !! p) ∧
      (sp_need_free (sp_ a) = true →
       ∀ p, brk w ≤ p < brk w' → mem w' !! p = None)
  end.
Proof.
  intros Hok Hoo. unfold assign_copy.
  rewrite assign_scope_eq, copy_other_eq.
  pose proof (array_ok_size o w Hoo) as [Hs Hc].
  pose proof heap_limit_double.
  pose proof (assign_run
    (λ src, let* a := this in
            on_world (construct_copy (vec (impl_ a) + size (impl_ a)) src) ;>
            put_size (wrap (size (impl_ a) + 1)))
    (λ src m, m !! src) a w (seqZ (vec (impl_ o)) (size (impl_ o)))
    (size (impl_ o)) copy_body_eq Hok) as Hb.
  rewrite <- contents_seqZ in Hb.
  apply Hb; [rewrite length_seqZ; lia|lia|].
  intros k x m. by apply copy_source_stable.
Qed.

(** X17: [a = other] for another container.  When it returns, [a] keeps
    its resource and holds the element sequence of [other] in a new block
    of [max(16, size)] slots at the old break (the empty descriptor when
    [other] is empty); below the old break the old buffer of [a] has been
    given back when the resource asks for destruction, and nothing else
    has changed.  When it throws, the exception is [bad_alloc] or
    [ctor_error], [a] has its old descriptor and its old elements, nothing
    below the old break has changed, and with a resource that asks for
    destruction no live element is left in what was allocated. *)
Theorem copy_assignment a o w :
  array_ok a w → array_ok o w →
  on_return (assign_copy (Other o) (a, w)) (λ _ s',
    s'.1 = Array (sp_ a) (if decide (array_size o = 0) then impl_empty
                          else Impl (brk w) (array_size o)
                                 (Z.max 16 (array_size o))) ∧
    contents s'.1 s'.2 = contents o w ∧
    (∀ p, p < brk w → mem s'.2 !! p =
       if decide (sp_need_free (sp_ a) = true ∧ begin_ a ≠ 0 ∧
                  begin_ a ≤ p < begin_ a + array_capacity a)
       then None else mem w !! p)) ∧
  on_throw (assign_copy (Other o) (a, w)) (λ e s',
    (e = bad_alloc ∨ e = ctor_error) ∧ s'.1 = a ∧
    contents s'.1 s'.2 = contents a w ∧
    (∀ p, p < brk w → mem s'.2 !! p = mem w !! p) ∧
    (sp_need_free (sp_ a) = true →
     ∀ p, brk w ≤ p < brk s'.2 → mem s'.2 !! p = None)).
Proof.
  intros Hok Hoo. unfold on_return, on_throw, array_size, begin_,
    array_capacity.
  pose proof (assign_copy_spec a o w Hok Hoo) as Hs.
  destruct (assign_copy (Other o) (a, w)) as [[[]|e] [a' w']]; simpl.
  - split; [done|done].
  - split; [done|]. destruct Hs as (_ & ? & -> & ? & ? & ?). done.
Qed.

(** X18: [a = init] throws [length_error], leaving the container and the
    heap as they were, when the list is longer than [max_size()].
    Otherwise it behaves as the assignment of a container holding the
    elements of the list: they are in a new block when it returns, and the
    old descriptor and elements are back when it throws. *)
Theorem list_assignment a init w :
  array_ok a w →
  if decide (max_size < Z.of_nat (length init))
  then assign_init init (a, w) = (Throw length_error, (a, w))
  else
    on_return (assign_init init (a, w)) (λ _ s',
      s'.1 = Array (sp_ a)
               (if decide (Z.of_nat (length init) = 0) then impl_empty
                else Impl (brk w) (Z.of_nat (length init))
                       (Z.max 16 (Z.of_nat (length init)))) ∧
      contents s'.1 s'.2 = Some <$> init ∧
      (∀ p, p < brk w → mem s'.2 !! p =
         if decide (sp_need_free (sp_ a) = true ∧ begin_ a ≠ 0 ∧
                    begin_ a ≤ p < begin_ a + array_capacity a)
         then None else mem w !! p)) ∧
    on_throw (assign_init init (a, w)) (λ e s',
      (e = bad_alloc ∨ e = ctor_error) ∧ s'.1 = a ∧
      contents s'.1 s'.2 = contents a w ∧
      (∀ p, p < brk w → mem s'.2 !! p = mem w !! p) ∧
      (sp_need_free (sp_ a) = true →
       ∀ p, brk w ≤ p < brk s'.2 → mem s'.2 !! p = None)).
Proof.
  intros Hok. unfold assign_init, begin_, array_capacity.
  rewrite assign_scope_eq, copy_init_eq.
  pose proof max_size_lt.
  destruct (Z.ltb_spec max_size (Z.of_nat (length init))) as [Hlong|Hfit].
  { rewrite decide_True by done. cbn [fst snd].
    change (impl_ (set_impl impl_empty a)) with impl_empty.
    rewrite impl_destroy_empty. f_equal. f_equal. by apply set_impl_back. }
  rewrite decide_False by lia. rewrite wrap_small by lia.
  pose proof (assign_run
    (λ v, let* a := this in
          on_world (construct_at (vec (impl_ a) + size (impl_ a)) v) ;>
          put_size (wrap (size (impl_ a) + 1)))
    (λ v _, Some v) a w init (Z.of_nat (length init)) push_body_eq Hok
    eq_refl ltac:(lia) ltac:(done)) as Hs.
  unfold on_return, on_throw.
  match type of Hs with match ?r with _ => _ end =>
    destruct r as [[[]|e] [a' w']]
  end; simpl.
  - split; [done|done].
  - split; [done|]. destruct Hs as (_ & ? & -> & ? & ? & ?). done.
Qed.

(** X19: [a = std::move(b)] for two containers with disjoint buffers.  On
    the same resource it returns: [a] takes the descriptor of [b] and
    holds the elements [b] had, [b] is left with the empty descriptor, and
    the old buffer of [a] has been given back when the resource asks for
    destruction, no other slot having changed.  On different resources it
    is a copy assignment: [b] is never changed and keeps its elements.
    When it returns, [a] keeps its resource and holds the element sequence
    of [b] in a new block of [max(16, size)] slots at the old break (the
    empty descriptor when [b] is empty); below the old break the old
    buffer of [a] has been given back when the resource asks for
    destruction, and nothing else has changed.  When it throws, the
    exception is [bad_alloc] or [ctor_error], [a] has its old descriptor
    and elements, nothing below the old break has changed, and with a
    resource that asks for destruction no live element is left in what was
    allocated. *)
Theorem move_assignment a b w :
  array_ok a w → array_ok b w →
  begin_ a = 0 ∨ begin_ b = 0 ∨ begin_ a + array_capacity a ≤ begin_ b ∨
    begin_ b + array_capacity b ≤ begin_ a →
  if sp_equal (sp_ a) (sp_ b)
  then (assign_move a b w).1 = Ok tt ∧
       (assign_move a b w).2.1.1 = set_impl (impl_ b) a ∧
       (assign_move a b w).2.1.2 = set_impl impl_empty b ∧
       contents (assign_move a b w).2.1.1 (assign_move a b w).2.2 =
         contents b w ∧
       brk (assign_move a b w).2.2 = brk w ∧
       (∀ p, mem (assign_move a b w).2.2 !! p =
          if decide (sp_need_free (sp_ a) = true ∧ begin_ a ≠ 0 ∧
                     begin_ a ≤ p < begin_ a + array_capacity a)
          then None else mem w !! p)
  else (assign_move a b w).2.1.2 = b ∧
       on_return (assign_move a b w) (λ _ t,
         t.1.1 = Array (sp_ a)
                   (if decide (array_size b = 0) then impl_empty
                    else Impl (brk w) (array_size b)
                           (Z.max 16 (array_size b))) ∧
         contents t.1.1 t.2 = contents b w ∧
         contents b t.2 = contents b w ∧
         (∀ p, p < brk w → mem t.2 !! p =
            if decide (sp_need_free (sp_ a) = true ∧ begin_ a ≠ 0 ∧
                       begin_ a ≤ p < begin_ a + array_capacity a)
            then None else mem w !! p)) ∧
       on_throw (assign_move a b w) (λ e t,
         (e = bad_alloc ∨ e = ctor_error) ∧
         t.1.1 = a ∧ contents a t.2 = contents a w ∧
         contents b t.2 = contents b w ∧
         (∀ p, p < brk w → mem t.2 !! p = mem w !! p) ∧
         (sp_need_free (sp_ a) = true →
          ∀ p, brk w ≤ p < brk t.2 → mem t.2 !! p = None)).
Proof.
  unfold begin_, array_capacity, array_size.
  intros Hok Hob Hdis. unfold assign_move.
  pose proof (array_ok_size a w Hok) as [Hsa _].
  pose proof (array_ok_size b w Hob) as [Hsb _].
  destruct (sp_equal (sp_ a) (sp_ b)).
  - cbv zeta. unfold impl_swap. cbn [fst snd].
    rewrite impl_destroy_fst.
    pose proof (impl_destroy_world (sp_ a) (impl_ a) w Hsa)
      as (Hdb & _ & _ & Hlook).
    split_and!; try done.
    + apply contents_eq; [done|]. intros i Hi. simpl.
      rewrite Hlook. rewrite decide_False; [done|].
      intros [Hne Hrange]. apply andb_prop in Hne as [Hne _].
      destruct (Z.eqb_spec (vec (impl_ a)) 0); [done|].
      destruct Hob as [[(?&?&?)|(?&?&?&?)] ?]; lia.
    + intros p. rewrite Hlook.
      destruct (sp_need_free (sp_ a)), (Z.eqb_spec (vec (impl_ a)) 0); simpl;
        repeat case_decide; first [done | lia | naive_solver lia].
  - pose proof (assign_copy_spec a b w Hok Hob) as Hs.
    unfold on_return, on_throw.
    destruct (assign_copy (Other b) (a, w)) as [[[]|e] [a' w']]; simpl.
    + destruct Hs as (-> & Hc & Hlow). split_and!; try done.
      apply contents_eq; [done|]. intros i Hi.
      rewrite Hlow.
      * rewrite decide_False; [done|]. intros (_ & Hne & Hrange).
        destruct Hob as [[(?&?&?)|(?&?&?&?)] ?]; lia.
      * destruct Hob as [[(?&?&?)|(?&?&?&?)] ?]; lia.
    + destruct Hs as (_ & ? & -> & ? & Hlow & ?). split_and!; try done.
      by apply contents_low.
Qed.

(** ** Teardown and exchange *)

(** X20: [release_storage()] returns the resource handle and leaves the
    empty descriptor; the heap it leaves is the one the destructor leaves.
    With a resource that asks for destruction every slot of the buffer is
    dead afterwards; no other slot changes, and with a resource that does
    not ask for it the heap is untouched.  Nothing is allocated or
    constructed. *)
Theorem release_storage_frees a w :
  array_ok a w →
  let r := release_storage (a, w) in
  r.1 = Ok (sp_ a) ∧ impl_ r.2.1 = impl_empty ∧
  r.2.2 = array_dtor a w ∧
  brk r.2.2 = brk w ∧ ctor_plan r.2.2 = ctor_plan w ∧
  alloc_plan r.2.2 = alloc_plan w ∧
  (∀ p, mem r.2.2 !! p =
     if decide (sp_need_free (sp_ a) = true ∧ begin_ a ≠ 0 ∧
                begin_ a ≤ p < begin_ a + array_capacity a)
     then None else mem w !! p).
Proof.
  unfold begin_, array_capacity. intros Hok.
  pose proof (array_ok_size a w Hok) as [Hs _].
  unfold release_storage, array_dtor. munfold. rewrite impl_destroy_fst.
  pose proof (impl_destroy_world (sp_ a) (impl_ a) w Hs)
    as (Hdb & Hdc & Hda & Hlook).
  split_and!; try done.
  intros p. rewrite Hlook.
  destruct (sp_need_free (sp_ a)), (Z.eqb_spec (vec (impl_ a)) 0); simpl;
    repeat case_decide; first [done | lia | naive_solver lia].
Qed.

(** X21: when [swap] returns and the swap of its two results returns too,
    both containers have their own resource and their original element
    sequence again. *)
Theorem swap_twice a b w :
  array_ok a w → array_ok b w →
  on_return (swap a b w) (λ _ t,
    on_return (swap t.1.1 t.1.2 t.2) (λ _ t',
      sp_ t'.1.1 = sp_ a ∧ sp_ t'.1.2 = sp_ b ∧
      contents t'.1.1 t'.2 = contents a w ∧
      contents t'.1.2 t'.2 = contents b w)).
Proof.
  intros Hoa Hob.
  pose proof (swap_cases a b w Hoa Hob) as (Hoa1 & Hob1 & Hs).
  unfold on_return in *.
  destruct (swap a b w) as [[[]|e] [[a1 b1] w1]] eqn:E1; [|done].
  cbn [fst snd] in *.
  pose proof (swap_cases a1 b1 w1 Hoa1 Hob1) as (_ & _ & Hs2).
  destruct (sp_equal (sp_ a) (sp_ b)) eqn:Heq.
  - injection Hs as -> -> ->. simpl in Hs2. rewrite Heq in Hs2.
    rewrite Hs2. simpl. done.
  - destruct Hs as (Hsa & Hsb & _ & _ & Hca & Hcb).
    rewrite Hsa, Hsb, Heq in Hs2.
    destruct (swap a1 b1 w1) as [[[]|e] [[a2 b2] w2]]; [|done].
    cbn [fst snd] in *.
    destruct Hs2 as (H1 & H2 & _ & _ & H3 & H4). simpl in H1, H2, H3, H4.
    split_and!; congruence.
Qed.

(** ** Relocation by [memmove] *)
Lemma read_range_lookup src n (m : gmap Z value) (k : nat) :
  read_range src n m !! k =
    if decide (k < n)%nat then Some (m !! (src + Z.of_nat k)) else None.
Proof.
  unfold read_range. rewrite list_lookup_fmap.
  destruct (decide (k < n)%nat).
  - by rewrite lookup_seq_lt by done.
  - by rewrite lookup_seq_ge by lia.
Qed.

Lemma length_read_range src n (m : gmap Z value) :
  length (read_range src n m) = n.
Proof. unfold read_range. by rewrite length_fmap, length_seq. Qed.

Lemma write_range_lookup l : ∀ p (m : gmap Z value) a,
  write_range p l m !! a =
    if decide (p ≤ a < p + Z.of_nat (length l))
    then default None (l !! Z.to_nat (a - p)) else m !! a.
Proof.
  induction l as [|o l IH]; intros p m a; simpl.
  { by rewrite decide_False by lia. }
  rewrite IH.
  destruct (decide (a = p)) as [->|Hne].
  - rewrite decide_False by lia. rewrite decide_True by lia.
    rewrite Z.sub_diag. simpl. apply lookup_partial_alter_eq.
  - rewrite lookup_partial_alter_ne by done.
    destruct (decide (p + 1 ≤ a < p + 1 + Z.of_nat (length l))).
    + rewrite decide_True by lia.
      replace (Z.to_nat (a - p)) with (S (Z.to_nat (a - (p + 1)))) by lia.
      done.
    + by rewrite decide_False by lia.
Qed.

(** X22: under [BOOST_JSON_VALUE_IS_TRIVIAL], [relocate(dest, src, n)] is
    one [memmove]: every destination slot holds what the corresponding
    source slot held, whatever the overlap and also when [dest = src], and
    the slots outside both ranges are unchanged.  Whenever [dest ≠ src]
    the element-wise branch leaves the same in all these slots. *)
Theorem memmove_relocation dest src n (m : gmap Z value) :
  0 ≤ n →
  (∀ a, dest ≤ a < dest + n →
        relocate_memmove dest src n m !! a = m !! (a - dest + src)) ∧
  (∀ a, ¬ (dest ≤ a < dest + n) → ¬ (src ≤ a < src + n) →
        relocate_memmove dest src n m !! a = m !! a) ∧
  (dest ≠ src →
   ∀ a, dest ≤ a < dest + n ∨ ¬ (src ≤ a < src + n) →
        relocate dest src n m !! a = relocate_memmove dest src n m !! a).
Proof.
  intros Hn.
  assert (Hlk : ∀ a, relocate_memmove dest src n m !! a =
                     relocated dest src n m a).
  { intros a. unfold relocate_memmove, relocated.
    rewrite write_range_lookup, erase_range_lookup.
    rewrite length_read_range, !Z2Nat.id by lia.
    destruct (decide (dest ≤ a < dest + n)); [|done].
    rewrite read_range_lookup, decide_True by lia. simpl. f_equal. lia. }
  split_and!.
  - intros a Ha. rewrite Hlk. unfold relocated. by rewrite decide_True.
  - intros a Ha Hs. rewrite Hlk. unfold relocated.
    by rewrite !decide_False.
  - intros Hne a _. rewrite Hlk. apply relocate_lookup; [done|by left].
Qed.

(** ** Capacity is only given back on request *)
Lemma kept_refl a : kept a a.
Proof. by split. Qed.

Lemma kept_with_size n a a' : kept a a' → kept a (with_size n a').
Proof. by intros [? ?]. Qed.

Lemma reserve_kept n a w : array_ok a w → kept a (reserve n (a, w)).2.1.
Proof.
  intros Hok.
  destruct (reserve_cases n a w Hok) as [(w' & -> & _)|(a' & w' & -> & Hr)].
  - apply kept_refl.
  - by destruct Hr as (? & _ & ? & _).
Qed.

Lemma insert_seq_kept pos n l a w :
  array_ok a w → kept a (insert_seq pos n l (a, w)).2.1.
Proof.
  intros Hok.
  destruct (insert_seq pos n l (a, w)) as [r [a' w']] eqn:E. cbn [fst snd].
  unfold insert_seq in E. unfold bind at 1 in E.
  rewrite undo_insert_ctor_eq in E.
  destruct (max_size <? n); [injection E as <- <- <-; apply kept_refl|].
  pose proof (reserve_kept (wrap (size (impl_ a) + wrap n)) a w Hok) as Hk.
  destruct (reserve _ (a, w)) as [[[]|e] [a1 w1]]; cbn [fst snd] in *;
    [|by injection E as <- <- <-].
  unfold scope in E. unfold bind at 1 in E.
  match type of E with context [forM l emplace (?u, (?a2, ?w2))] =>
    destruct (emplace_loop l u a2 w2) as (j & w3 & Hloop & _)
  end.
  rewrite Hloop in E. clear Hloop.
  destruct (decide (j = length l)); cbn [fst snd] in E.
  { munfold. injection E as <- <- <-. by apply kept_with_size. }
  injection E as <- <- <-.
  unfold undo_insert_dtor. cbn [ui_commit ui_it ui_pos ui_n fst snd].
  rewrite destroy_eq. cbn [fst snd].
  by destruct Hk.
Qed.

Lemma resize_kept count a w :
  array_ok a w →
  kept a (resize count (a, w)).2.1.
Proof.
  intros Hok.
  destruct (Z.le_gt_cases count (size (impl_ a))) as [Hle|Hgt].
  { unfold resize. munfold.
    destruct (Z.leb_spec count (size (impl_ a))); [|lia].
    rewrite destroy_eq. cbn [fst snd]. apply kept_with_size, kept_refl. }
  rewrite resize_grow_eq by lia.
  pose proof (reserve_kept count a w Hok) as Hk.
  destruct (reserve count (a, w)) as [[[]|e] [a1 w1]]; cbn [fst snd] in *;
    [|done].
  cbv zeta. destruct (loop_outcome _ _); cbn [fst snd]; [|done].
  by apply kept_with_size.
Qed.

Lemma resize_value_kept count v a w :
  array_ok a w →
  kept a (resize_value count v (a, w)).2.1.
Proof.
  intros Hok.
  destruct (Z.le_gt_cases count (size (impl_ a))) as [Hle|Hgt].
  { unfold resize_value. munfold.
    destruct (Z.leb_spec count (size (impl_ a))); [|lia].
    rewrite destroy_eq. cbn [fst snd]. apply kept_with_size, kept_refl. }
  rewrite resize_value_grow_eq by lia.
  pose proof (reserve_kept count a w Hok) as Hk.
  destruct (reserve count (a, w)) as [[[]|e] [a1 w1]]; cbn [fst snd] in *;
    [|done].
  cbv zeta. destruct (loop_outcome _ _); cbn [fst snd].
  - by apply kept_with_size.
  - unfold resize_undo_dtor. cbn [ru_it ru_end].
    destruct (negb _); [|done]. by rewrite destroy_eq.
Qed.

(** One call of a modifier that works in place or grows the buffer. *)
Lemma run_op_kept o a w :
  array_ok a w → keeps_buffer o = true → kept a (run_op o (a, w)).2.1.
Proof.
  intros Hok Hk.
  destruct o as [n| | |i count v|i init|i|i j| |count|count v|b|other|b|init];
    try done; simpl run_op.
  - by apply reserve_kept.
  - unfold clear. munfold. destruct (vec (impl_ a) =? 0); [apply kept_refl|].
    rewrite destroy_eq. apply kept_with_size, kept_refl.
  - change ((let* a0 := this in
             insert (begin_ a0 + i) count (ByValue v) ;> ret tt) (a, w))
      with ((insert (begin_ a + i) count (ByValue v) ;> ret tt) (a, w)).
    rewrite bind_ret_state, insert_as_seq. by apply insert_seq_kept.
  - change ((let* a0 := this in insert_init (begin_ a0 + i) init ;> ret tt)
              (a, w))
      with ((insert_init (begin_ a + i) init ;> ret tt) (a, w)).
    rewrite bind_ret_state, insert_init_as_seq. by apply insert_seq_kept.
  - change ((let* a0 := this in erase (begin_ a0 + i) ;> ret tt) (a, w))
      with ((erase (begin_ a + i) ;> ret tt) (a, w)).
    rewrite bind_ret_state. unfold erase. munfold. rewrite destroy_eq.
    apply kept_with_size, kept_refl.
  - change ((let* a0 := this in
             erase_between (begin_ a0 + i) (begin_ a0 + j) ;> ret tt) (a, w))
      with ((erase_between (begin_ a + i) (begin_ a + j) ;> ret tt) (a, w)).
    rewrite bind_ret_state. unfold erase_between. munfold. rewrite destroy_eq.
    apply kept_with_size, kept_refl.
  - unfold pop_back. munfold. rewrite destroy_eq.
    apply kept_with_size, kept_refl.
  - by apply resize_kept.
  - by apply resize_value_kept.
Qed.

(** X23: over any sequence of valid calls of [reserve], [clear], [insert],
    [erase], [pop_back] and [resize], returning or throwing, the container
    keeps its resource and its capacity never decreases: only
    [shrink_to_fit], [swap] and assignment give capacity back. *)
Theorem modifiers_keep_capacity ops : ∀ s s',
  array_ok s.1 s.2 → forallb keeps_buffer ops = true →
  run_ops ops s = Some s' →
  sp_ s'.1 = sp_ s.1 ∧ array_capacity s.1 ≤ array_capacity s'.1.
Proof.
  unfold array_capacity.
  induction ops as [|o ops IH]; intros [a w] s' Hok Hall Hrun; simpl in Hrun.
  { by injection Hrun as <-. }
  simpl in Hall. apply andb_prop in Hall as [Ho Hall].
  case_bool_decide as Hv; [|done].
  pose proof (run_op_ok o a w Hok Hv) as Hok1.
  pose proof (run_op_kept o a w Hok Ho) as [Hsp Hcap].
  destruct (IH _ s' Hok1 Hall Hrun) as [Hsp' Hcap'].
  simpl in *. split; [congruence|lia].
Qed.

End ArrayProofs.

(** * The properties on the sample platform *)

Lemma sample_ok (a : array) (w : world) :
  bool_decide (array_ok a w) = true → array_ok a w.
Proof. apply bool_decide_eq_true_1. Qed.

(** C1 as stated fails: inserting one element into a full buffer of 16
    moves the elements to a buffer of 32 before the element is constructed;
    when that construction fails the elements are put back in order but the
    container keeps the new buffer, so [capacity()] has changed. *)
Lemma insert_failure_keeps_grown_buffer :
  let r := insert (begin_ full16.1) 1 (ByValue (jnum 0))
             (full16.1, with_ctor_plan [false] full16.2) in
  r.1 = Throw ctor_error ∧
  array_capacity full16.1 = 16 ∧ array_capacity r.2.1 = 32 ∧
  array_size r.2.1 = array_size full16.1 ∧
  contents r.2.1 r.2.2 = contents full16.1 full16.2.
Proof. vm_compute. done. Qed.

Lemma insert_strong_guarantee_witness :
  let s := numbers [1; 2; 3] heap_resource world0 in
  let w := with_ctor_plan [true; false] s.2 in
  on_throw (insert (begin_ s.1 + 1) 2 (ByValue (jnum 9)) (s.1, w)) (λ e s',
    rolled_back s.1 w s'.1 s'.2 ∧
    (e ≠ ctor_error → s'.1 = s.1 ∧ mem s'.2 = mem w)) ∧
  on_throw (insert_init (begin_ s.1 + 1) [jnum 8; jnum 9] (s.1, w)) (λ e s',
    rolled_back s.1 w s'.1 s'.2 ∧
    (e ≠ ctor_error → s'.1 = s.1 ∧ mem s'.2 = mem w)).
Proof.
  intros s w.
  apply (@insert_strong_guarantee lp64 json_element s.1 w 1 2
           (@ByValue json_element (jnum 9)) [jnum 8; jnum 9]).
  - apply sample_ok. by vm_compute.
  - by vm_compute.
  - by vm_compute.
  - intros _. left. by vm_compute.
  - by vm_compute.
  - intros _. left. by vm_compute.
Defined.

Lemma growth_policy_witness :
  growth (Impl 1 0 16) 20 =
    (if decide (vec (Impl 1 0 16) = 0) then 20
     else if decide (modulus ≤ capacity (Impl 1 0 16) * 2) then max_size
     else Z.max 20 (capacity (Impl 1 0 16) * 2)) ∧
  on_return (impl_construct (growth (Impl 1 0 16) 20) heap_resource world0)
    (λ i' _, capacity i' = Z.max 16 (growth (Impl 1 0 16) 20)).
Proof.
  apply (growth_policy (Impl 1 0 16) 20 heap_resource world0).
  by vm_compute.
Defined.

Lemma relocate_through_temporary_witness :
  let m : gmap Z value := {[ 1 := jnum 7 ]} in
  relocate 1 1 1 m = relocate_backward 2 2 1 m ∧
  relocate 1 5 1 (relocate 5 1 1 m) !! 1 = m !! 1 ∧
  relocate 1 1 1 m !! 1 = None.
Proof.
  intros m.
  apply (relocate_through_temporary 1 1 5 1 m 1); lia.
Defined.

(** The self-relocation is reached from the public interface:
    [insert(begin(), 0, v)] shifts the tail by no slot at all, and every
    element of the tail is destroyed; the [memmove] of the trivial
    configuration leaves such a range alone. *)
Lemma insert_nothing_destroys_tail :
  let m : gmap Z value := {[ 1 := jnum 7 ]} in
  relocate 1 1 1 m !! 1 = None ∧
  relocate 1 5 1 (relocate 5 1 1 m) !! 1 = Some (jnum 7) ∧
  relocate_memmove 1 1 1 m !! 1 = Some (jnum 7) ∧
  let s := numbers [1; 2; 3] heap_resource world0 in
  let r := insert (begin_ s.1) 0 (ByValue (jnum 9)) s in
  r.1 = Ok (begin_ s.1) ∧ contents r.2.1 r.2.2 = [None; None; None].
Proof. vm_compute. done. Qed.

(** C3 fails on the code for the single-position overload: [erase(pos)]
    relocates one element, not the tail.  Erasing position 1 of
    [1, 2, 3, 4, 5] leaves [1, 3, <destroyed>, 4] where the claim has
    [1, 3, 4, 5]; the range overload relocates the whole tail, and erasing
    [1, 3) gives [1, 4, 5]. *)
Theorem erase_relocates_one_element :
  let s := numbers [1; 2; 3; 4; 5] heap_resource world0 in
  let r := erase (begin_ s.1 + 1) s in
  let r' := erase_between (begin_ s.1 + 1) (begin_ s.1 + 3) s in
  r.1 = Ok (begin_ s.1 + 1) ∧ array_size r.2.1 = 4 ∧
  contents r.2.1 r.2.2 = [Some (jnum 1); Some (jnum 3); None; Some (jnum 4)] ∧
  r'.1 = Ok (begin_ s.1 + 1) ∧ contents r'.2.1 r'.2.2 = shown [1; 4; 5].
Proof. vm_compute. done. Qed.

(** C2 as stated fails: from capacity 64 and size 2, [shrink_to_fit()]
    ends with capacity 16, the floor of [construct], not 2. *)
Lemma shrink_to_fit_stops_at_floor :
  array_capacity two_in_64.1 = 64 ∧ array_size two_in_64.1 = 2 ∧
  (shrink_to_fit two_in_64).1 = Ok tt ∧
  array_capacity (shrink_to_fit two_in_64).2.1 = 16 ∧
  contents (shrink_to_fit two_in_64).2.1 (shrink_to_fit two_in_64).2.2 =
    shown [1; 2].
Proof. vm_compute. done. Qed.

Lemma shrink_to_fit_spec_witness :
  (shrink_to_fit two_in_64).1 = Ok tt ∧
  sp_ (shrink_to_fit two_in_64).2.1 = sp_ two_in_64.1 ∧
  array_size (shrink_to_fit two_in_64).2.1 = array_size two_in_64.1 ∧
  contents (shrink_to_fit two_in_64).2.1 (shrink_to_fit two_in_64).2.2 =
    contents two_in_64.1 two_in_64.2 ∧
  array_ok (shrink_to_fit two_in_64).2.1 (shrink_to_fit two_in_64).2.2 ∧
  array_capacity (shrink_to_fit two_in_64).2.1 = 16.
Proof.
  pose proof (shrink_to_fit_spec two_in_64.1 two_in_64.2) as Hs.
  change (two_in_64.1, two_in_64.2) with two_in_64 in Hs.
  destruct Hs as (H1 & H2 & H3 & H4 & H5 & H6).
  - apply sample_ok. by vm_compute.
  - by vm_compute.
  - split_and!; try done; by vm_compute.
Defined.

(** C6 as stated fails: the overload without a fill value has no guard,
    and a resource that does not ask for destruction gets none.  With the
    second of two new elements failing, the first one is still in its slot
    after the failure has propagated. *)
Lemma resize_failure_leaves_constructed_element :
  let s := numbers [1; 2; 3] heap_resource world0 in
  let r := resize 5 (s.1, with_ctor_plan [true; false] s.2) in
  let s' := numbers [1; 2; 3] arena_resource world0 in
  let r' := resize_value 5 (ByValue (jnum 0))
              (s'.1, with_ctor_plan [true; false] s'.2) in
  r.1 = Throw ctor_error ∧ array_size r.2.1 = 3 ∧
  mem r.2.2 !! (begin_ r.2.1 + 3) = Some jnull ∧
  r'.1 = Throw ctor_error ∧ array_size r'.2.1 = 3 ∧
  mem r'.2.2 !! (begin_ r'.2.1 + 3) = Some (jnum 0).
Proof. vm_compute. done. Qed.

Lemma resize_failure_witness :
  let s := numbers [1; 2; 3] heap_resource world0 in
  let w := with_ctor_plan [true; false] s.2 in
  on_throw (resize_value 5 (ByValue (jnum 0)) (s.1, w)) (λ e s',
    rolled_back s.1 w s'.1 s'.2 ∧
    (e = ctor_error → sp_need_free (sp_ s.1) = true →
     ∀ i : nat,
       (i < successes (ctor_plan w) (Z.to_nat (5 - array_size s.1)))%nat →
       mem s'.2 !! (begin_ s'.1 + array_size s.1 + Z.of_nat i) = None)) ∧
  on_throw (resize 5 (s.1, w)) (λ e s', rolled_back s.1 w s'.1 s'.2).
Proof.
  intros s w. apply (@resize_failure lp64 json_element s.1 w 5
                       (@ByValue json_element (jnum 0))).
  - apply sample_ok. by vm_compute.
  - by vm_compute.
  - left. by vm_compute.
Defined.


Lemma swap_scenario :
  let sa := numbers [1; 2; 3] heap_resource world0 in
  let sb := numbers [4; 5] arena_resource sa.2 in
  let r := swap sa.1 sb.1 sb.2 in
  r.1 = Ok tt ∧
  sp_ r.2.1.1 = heap_resource ∧ contents r.2.1.1 r.2.2 = shown [4; 5] ∧
  sp_ r.2.1.2 = arena_resource ∧ contents r.2.1.2 r.2.2 = shown [1; 2; 3].
Proof. vm_compute. done. Qed.

Lemma sample_world_ok : world_ok sample_world.
Proof. apply (bool_decide_eq_true_1 (world_ok sample_world)). by vm_compute. Qed.

Lemma size_invariant_witness :
  match run_life (CtorInit [jnum 1; jnum 2; jnum 3] heap_resource)
          sample_calls sample_world with
  | Some s => 0 ≤ array_size s.1 ≤ array_capacity s.1
  | None => False
  end.
Proof.
  destruct (run_life _ sample_calls sample_world) as [s|] eqn:E.
  - exact (size_invariant _ _ _ _ sample_world_ok E).
  - vm_compute in E. discriminate E.
Defined.

Lemma capacity_floor_witness :
  match run_life (CtorCount 3 heap_resource) sample_calls sample_world with
  | Some s =>
      (array_capacity s.1 = 0 ∨ 16 ≤ array_capacity s.1) ∧
      on_return (impl_construct 2 heap_resource world0) (λ i _,
        capacity i = Z.max 16 2)
  | None => False
  end.
Proof.
  destruct (run_life _ sample_calls sample_world) as [s|] eqn:E.
  - exact (capacity_floor _ _ _ _ 2 heap_resource world0 sample_world_ok E).
  - vm_compute in E. discriminate E.
Defined.

(** ** The further properties on the sample platform *)

Lemma reserve_impl_relocates_witness :
  let s := numbers [1; 2; 3] heap_resource world0 in
  let c := Z.max 16 (growth (impl_ s.1) 20) in
  let r := reserve_impl 20 (s.1, s.2) in
  if will_allocate c s.2
  then r.1 = Ok tt ∧
       r.2.1 = set_impl (Impl (brk s.2) (array_size s.1) c) s.1 ∧
       brk r.2.2 = brk s.2 + c ∧ ctor_plan r.2.2 = ctor_plan s.2 ∧
       contents r.2.1 r.2.2 = contents s.1 s.2 ∧
       (∀ k, 0 ≤ k < array_size s.1 →
             mem r.2.2 !! (begin_ s.1 + k) = None) ∧
       (∀ p, p < brk s.2 →
             ¬ (begin_ s.1 ≤ p < begin_ s.1 + array_capacity s.1) →
             mem r.2.2 !! p = mem s.2 !! p)
  else r.1 = Throw bad_alloc ∧ r.2.1 = s.1 ∧ mem r.2.2 = mem s.2 ∧
       brk r.2.2 = brk s.2 ∧ ctor_plan r.2.2 = ctor_plan s.2.
Proof.
  intros s. apply (@reserve_impl_relocates lp64 json_element 20 s.1 s.2).
  - apply sample_ok. by vm_compute.
  - by vm_compute.
Defined.

Lemma erase_range_removes_witness :
  let s := numbers [1; 2; 3; 4; 5] heap_resource world0 in
  let r := erase_between (begin_ s.1 + 1) (begin_ s.1 + 3) (s.1, s.2) in
  r.1 = Ok (begin_ s.1 + 1) ∧
  r.2.1 = with_size (array_size s.1 - (3 - 1)) s.1 ∧
  contents r.2.1 r.2.2 =
    take (Z.to_nat 1) (contents s.1 s.2) ++
    drop (Z.to_nat 3) (contents s.1 s.2) ∧
  (sp_need_free (sp_ s.1) = true →
   ∀ k, array_size s.1 - (3 - 1) ≤ k < array_size s.1 →
        mem r.2.2 !! (begin_ s.1 + k) = None) ∧
  (∀ p, ¬ (begin_ s.1 + 1 ≤ p < begin_ s.1 + array_size s.1) →
        mem r.2.2 !! p = mem s.2 !! p) ∧
  brk r.2.2 = brk s.2 ∧ alloc_plan r.2.2 = alloc_plan s.2 ∧
  ctor_plan r.2.2 = ctor_plan s.2.
Proof.
  intros s. apply (@erase_range_removes lp64 json_element s.1 s.2 1 3).
  - apply sample_ok. by vm_compute.
  - done.
  - done.
  - by vm_compute.
Defined.

Lemma erase_moves_one_element_witness :
  let s := numbers [1; 2; 3; 4; 5] heap_resource world0 in
  let r := erase (begin_ s.1 + 1) (s.1, s.2) in
  r.1 = Ok (begin_ s.1 + 1) ∧ r.2.1 = with_size (array_size s.1 - 1) s.1 ∧
  (∀ p, mem r.2.2 !! p =
     if decide (p = begin_ s.1 + 1) then mem s.2 !! (p + 1)
     else if decide (p = begin_ s.1 + 1 + 1) then None else mem s.2 !! p) ∧
  (array_size s.1 - 2 ≤ 1 →
   contents r.2.1 r.2.2 =
     take (Z.to_nat 1) (contents s.1 s.2) ++
     drop (Z.to_nat (1 + 1)) (contents s.1 s.2)) ∧
  (1 < array_size s.1 - 2 →
   contents r.2.1 r.2.2 !! Z.to_nat (1 + 1) = Some None).
Proof.
  intros s. apply (@erase_moves_one_element lp64 json_element s.1 s.2 1).
  - apply sample_ok. by vm_compute.
  - by vm_compute.
Defined.

(** Two copies of the first element of another container. *)
Lemma insert_places_copies_witness :
  let s := numbers [1; 2; 3] heap_resource world0 in
  let o := numbers [4; 5] arena_resource s.2 in
  let w := o.2 in
  on_return (insert (begin_ s.1 + 1) 2 (AtSlot (begin_ o.1)) (s.1, w))
    (λ p s',
    p = begin_ s'.1 + 1 ∧ sp_ s'.1 = sp_ s.1 ∧
    array_size s'.1 = array_size s.1 + 2 ∧
    array_capacity s.1 ≤ array_capacity s'.1 ∧
    contents s'.1 s'.2 =
      take (Z.to_nat 1) (contents s.1 w) ++
      replicate (Z.to_nat 2) (Some (jnum 4)) ++
      drop (Z.to_nat 1) (contents s.1 w) ∧
    (∀ q, q < brk w →
          ¬ (begin_ s.1 ≤ q < begin_ s.1 + array_capacity s.1) →
          mem s'.2 !! q = mem w !! q)).
Proof.
  intros s o w.
  apply (@insert_places_copies lp64 json_element s.1 w 1 2
           (@AtSlot json_element (begin_ o.1)) (jnum 4)).
  - apply sample_ok. by vm_compute.
  - by vm_compute.
  - done.
  - left. by vm_compute.
  - split_and!; [by vm_compute| |by vm_compute].
    intros [_ Hin]. by vm_compute in Hin.
Defined.

(** [insert] reads [v] after the tail has been moved: with [v] the first
    element of the container itself, the element constructed at [begin()]
    is read from the slot the relocation has just left. *)
Lemma insert_reads_after_relocation :
  let s := numbers [1; 2; 3] heap_resource world0 in
  let r := insert (begin_ s.1) 1 (AtSlot (begin_ s.1)) s in
  r.1 = Ok (begin_ s.1) ∧
  contents r.2.1 r.2.2 =
    [None; Some (jnum 1); Some (jnum 2); Some (jnum 3)].
Proof. vm_compute. done. Qed.


Lemma insert_then_erase_witness :
  let s := numbers [1; 2; 3] heap_resource world0 in
  on_return (insert (begin_ s.1 + 1) 2 (ByValue (jnum 9)) (s.1, s.2)) (λ p s',
    (erase_between p (p + 2) s').1 = Ok p ∧
    array_size (erase_between p (p + 2) s').2.1 = array_size s.1 ∧
    contents (erase_between p (p + 2) s').2.1
             (erase_between p (p + 2) s').2.2 = contents s.1 s.2).
Proof.
  intros s.
  apply (@insert_then_erase lp64 json_element s.1 s.2 1 2
           (@ByValue json_element (jnum 9))).
  - apply sample_ok. by vm_compute.
  - by vm_compute.
  - done.
  - left. by vm_compute.
Defined.

(** The second of two constructions fails. *)
Lemma insert_outcome_witness :
  let s := numbers [1; 2; 3] heap_resource world0 in
  let w := with_ctor_plan [true; false] s.2 in
  let fits :=
    array_size s.1 + 2 ≤ array_capacity s.1 ∨
    will_allocate (Z.max 16 (growth (impl_ s.1) (array_size s.1 + 2))) w
      = true in
  let built := successes (ctor_plan w) (Z.to_nat 2) in
  match (insert (begin_ s.1 + 1) 2 (ByValue (jnum 9)) (s.1, w)).1 with
  | Ok _ => 2 ≤ max_size ∧ fits ∧ built = Z.to_nat 2
  | Throw length_error => max_size < 2
  | Throw bad_alloc => 2 ≤ max_size ∧ ¬ fits
  | Throw ctor_error => 2 ≤ max_size ∧ fits ∧ (built < Z.to_nat 2)%nat
  end.
Proof.
  intros s w.
  apply (@insert_outcome lp64 json_element s.1 w 1 2
           (@ByValue json_element (jnum 9))).
  - apply sample_ok. by vm_compute.
  - by vm_compute.
  - by vm_compute.
  - intros _. left. by vm_compute.
Defined.

Lemma inserting_nothing_destroys_tail_witness :
  let s := numbers [1; 2; 3] heap_resource world0 in
  let pos := begin_ s.1 + 1 in
  let tail := take (Z.to_nat 1) (contents s.1 s.2) ++
              replicate (Z.to_nat (array_size s.1 - 1)) None in
  insert pos 0 (ByValue (jnum 9)) (s.1, s.2) =
    insert_init pos [] (s.1, s.2) ∧
  (insert pos 0 (ByValue (jnum 9)) (s.1, s.2)).1 = Ok pos ∧
  (insert pos 0 (ByValue (jnum 9)) (s.1, s.2)).2.1 = s.1 ∧
  contents s.1 (insert pos 0 (ByValue (jnum 9)) (s.1, s.2)).2.2 = tail ∧
  (erase_between pos pos (s.1, s.2)).1 = Ok pos ∧
  (erase_between pos pos (s.1, s.2)).2.1 = s.1 ∧
  contents s.1 (erase_between pos pos (s.1, s.2)).2.2 = tail.
Proof.
  intros s pos.
  apply (@inserting_nothing_destroys_tail lp64 json_element s.1 s.2 1
           (@ByValue json_element (jnum 9))).
  - apply sample_ok. by vm_compute.
  - by vm_compute.
Defined.

Lemma pop_back_removes_last_witness :
  let s := numbers [1; 2; 3] heap_resource world0 in
  let r := pop_back (s.1, s.2) in
  r.1 = Ok tt ∧ r.2.1 = with_size (array_size s.1 - 1) s.1 ∧
  contents r.2.1 r.2.2 =
    take (Z.to_nat (array_size s.1 - 1)) (contents s.1 s.2) ∧
  (∀ p, mem r.2.2 !! p =
     if decide (sp_need_free (sp_ s.1) = true ∧
                p = begin_ s.1 + (array_size s.1 - 1))
     then None else mem s.2 !! p) ∧
  brk r.2.2 = brk s.2 ∧ alloc_plan r.2.2 = alloc_plan s.2 ∧
  ctor_plan r.2.2 = ctor_plan s.2.
Proof.
  intros s. apply (@pop_back_removes_last lp64 json_element s.1 s.2).
  - apply sample_ok. by vm_compute.
  - by vm_compute.
Defined.

Lemma clear_keeps_buffer_witness :
  let s := numbers [1; 2; 3] heap_resource world0 in
  let r := clear (s.1, s.2) in
  r.1 = Ok tt ∧ r.2.1 = with_size 0 s.1 ∧ contents r.2.1 r.2.2 = [] ∧
  (∀ p, mem r.2.2 !! p =
     if decide (sp_need_free (sp_ s.1) = true ∧
                begin_ s.1 ≤ p < begin_ s.1 + array_size s.1)
     then None else mem s.2 !! p) ∧
  brk r.2.2 = brk s.2 ∧ alloc_plan r.2.2 = alloc_plan s.2 ∧
  ctor_plan r.2.2 = ctor_plan s.2.
Proof.
  intros s. apply (@clear_keeps_buffer lp64 json_element s.1 s.2).
  apply sample_ok. by vm_compute.
Defined.

Lemma clear_then_shrink_releases_witness :
  let s := numbers [1; 2; 3] heap_resource world0 in
  let r := (clear ;> shrink_to_fit) (s.1, s.2) in
  r.1 = Ok tt ∧ r.2.1 = Array (sp_ s.1) impl_empty ∧
  brk r.2.2 = brk s.2 ∧
  (∀ p, mem r.2.2 !! p =
     if decide (sp_need_free (sp_ s.1) = true ∧ begin_ s.1 ≠ 0 ∧
                begin_ s.1 ≤ p < begin_ s.1 + array_capacity s.1)
     then None else mem s.2 !! p).
Proof.
  intros s. apply (@clear_then_shrink_releases lp64 json_element s.1 s.2).
  apply sample_ok. by vm_compute.
Defined.

Lemma resize_contents_witness :
  let s := numbers [1; 2; 3] heap_resource world0 in
  on_return (resize_value 5 (ByValue (jnum 0)) (s.1, s.2)) (λ _ s',
    refers_outside s.1 s.2 (ByValue (jnum 0)) (jnum 0) →
    sp_ s'.1 = sp_ s.1 ∧ array_size s'.1 = 5 ∧
    array_capacity s.1 ≤ array_capacity s'.1 ∧
    contents s'.1 s'.2 =
      take (Z.to_nat 5) (contents s.1 s.2) ++
      replicate (Z.to_nat (5 - array_size s.1)) (Some (jnum 0))) ∧
  on_return (resize 5 (s.1, s.2)) (λ _ s',
    sp_ s'.1 = sp_ s.1 ∧ array_size s'.1 = 5 ∧
    array_capacity s.1 ≤ array_capacity s'.1 ∧
    contents s'.1 s'.2 =
      take (Z.to_nat 5) (contents s.1 s.2) ++
      replicate (Z.to_nat (5 - array_size s.1)) (Some kind_null)) ∧
  (5 ≤ array_size s.1 →
   resize_value 5 (ByValue (jnum 0)) (s.1, s.2) = resize 5 (s.1, s.2) ∧
   (resize 5 (s.1, s.2)).1 = Ok tt ∧
   (resize 5 (s.1, s.2)).2.1 = with_size 5 s.1 ∧
   (sp_need_free (sp_ s.1) = true →
    ∀ k, 5 ≤ k < array_size s.1 →
         mem (resize 5 (s.1, s.2)).2.2 !! (begin_ s.1 + k) = None)).
Proof.
  intros s.
  apply (@resize_contents lp64 json_element s.1 s.2 5
           (@ByValue json_element (jnum 0)) (jnum 0)).
  - apply sample_ok. by vm_compute.
  - by vm_compute.
  - left. by vm_compute.
Defined.

Lemma counted_constructor_witness :
  let sp := heap_resource in
  on_return (array_count_value 3 (jnum 7) sp world0) (λ a' w',
    a' = Array sp (if decide (3 = 0) then impl_empty
                   else Impl (brk world0) 3 (Z.max 16 3)) ∧
    contents a' w' = replicate (Z.to_nat 3) (Some (jnum 7)) ∧
    (∀ p, p < brk world0 → mem w' !! p = mem world0 !! p)) ∧
  on_throw (array_count_value 3 (jnum 7) sp world0) (λ e w',
    0 < 3 ∧ (e = bad_alloc ∨ e = ctor_error) ∧
    (∀ p, p < brk world0 → mem w' !! p = mem world0 !! p) ∧
    (sp_need_free sp = true →
     ∀ p, brk world0 ≤ p < brk w' → mem w' !! p = None)) ∧
  on_return (array_count 3 sp world0) (λ a' w',
    array_size a' = 3 ∧
    contents a' w' = replicate (Z.to_nat 3) (Some kind_null)).
Proof.
  intros sp.
  apply (@counted_constructor lp64 json_element 3 (jnum 7) sp world0).
  - by vm_compute.
  - by vm_compute.
  - right. by vm_compute.
Defined.

Lemma copy_constructor_witness :
  let s := numbers [1; 2; 3] heap_resource world0 in
  let sp := arena_resource in
  on_return (array_copy_sp s.1 sp s.2) (λ a' w',
    a' = Array sp (if decide (array_size s.1 = 0) then impl_empty
                   else Impl (brk s.2) (array_size s.1)
                          (Z.max 16 (array_size s.1))) ∧
    contents a' w' = contents s.1 s.2 ∧ contents s.1 w' = contents s.1 s.2 ∧
    (∀ p, p < brk s.2 → mem w' !! p = mem s.2 !! p)) ∧
  on_throw (array_copy_sp s.1 sp s.2) (λ e w',
    (e = bad_alloc ∨ e = ctor_error) ∧ contents s.1 w' = contents s.1 s.2 ∧
    (∀ p, p < brk s.2 → mem w' !! p = mem s.2 !! p) ∧
    (sp_need_free sp = true →
     ∀ p, brk s.2 ≤ p < brk w' → mem w' !! p = None)) ∧
  on_return (array_copy s.1 s.2) (λ a' w',
    sp_ a' = sp_ s.1 ∧ array_size a' = array_size s.1 ∧
    contents a' w' = contents s.1 s.2).
Proof.
  intros s sp. apply (@copy_constructor lp64 json_element s.1 sp s.2).
  apply sample_ok. by vm_compute.
Defined.

Lemma move_constructor_with_resource_witness :
  let s := numbers [1; 2; 3] heap_resource world0 in
  let sp := arena_resource in
  on_return (array_move_sp sp (s.1, s.2)) (λ a' s',
    sp_ a' = sp ∧ array_size a' = array_size s.1 ∧
    contents a' s'.2 = contents s.1 s.2 ∧
    if sp_equal sp (sp_ s.1)
    then impl_ a' = impl_ s.1 ∧ s'.1 = set_impl impl_empty s.1 ∧ s'.2 = s.2
    else s'.1 = s.1 ∧ contents s.1 s'.2 = contents s.1 s.2 ∧
         (array_size s.1 = 0 ∨ begin_ a' = brk s.2)).
Proof.
  intros s sp.
  apply (@move_constructor_with_resource lp64 json_element s.1 sp s.2).
  apply sample_ok. by vm_compute.
Defined.

Lemma list_constructor_witness :
  let init := [jnum 1; jnum 2] in
  let sp := heap_resource in
  if decide (max_size < Z.of_nat (length init))
  then array_init init sp world0 = (Throw length_error, world0)
  else
    on_return (array_init init sp world0) (λ a' w',
      a' = Array sp (if decide (Z.of_nat (length init) = 0) then impl_empty
                     else Impl (brk world0) (Z.of_nat (length init))
                            (Z.max 16 (Z.of_nat (length init)))) ∧
      contents a' w' = Some <$> init ∧
      (∀ p, p < brk world0 → mem w' !! p = mem world0 !! p)) ∧
    on_throw (array_init init sp world0) (λ e w',
      (e = bad_alloc ∨ e = ctor_error) ∧
      (∀ p, p < brk world0 → mem w' !! p = mem world0 !! p) ∧
      (sp_need_free sp = true →
       ∀ p, brk world0 ≤ p < brk w' → mem w' !! p = None)).
Proof.
  intros init sp.
  apply (@list_constructor lp64 json_element init sp world0).
  by vm_compute.
Defined.

Lemma copy_assignment_witness :
  let sa := numbers [1; 2; 3] heap_resource world0 in
  let sb := numbers [4; 5] heap_resource sa.2 in
  on_return (assign_copy (Other sb.1) (sa.1, sb.2)) (λ _ s',
    s'.1 = Array (sp_ sa.1)
             (if decide (array_size sb.1 = 0) then impl_empty
              else Impl (brk sb.2) (array_size sb.1)
                     (Z.max 16 (array_size sb.1))) ∧
    contents s'.1 s'.2 = contents sb.1 sb.2 ∧
    (∀ p, p < brk sb.2 → mem s'.2 !! p =
       if decide (sp_need_free (sp_ sa.1) = true ∧ begin_ sa.1 ≠ 0 ∧
                  begin_ sa.1 ≤ p < begin_ sa.1 + array_capacity sa.1)
       then None else mem sb.2 !! p)) ∧
  on_throw (assign_copy (Other sb.1) (sa.1, sb.2)) (λ e s',
    (e = bad_alloc ∨ e = ctor_error) ∧ s'.1 = sa.1 ∧
    contents s'.1 s'.2 = contents sa.1 sb.2 ∧
    (∀ p, p < brk sb.2 → mem s'.2 !! p = mem sb.2 !! p) ∧
    (sp_need_free (sp_ sa.1) = true →
     ∀ p, brk sb.2 ≤ p < brk s'.2 → mem s'.2 !! p = None)).
Proof.
  intros sa sb. apply (@copy_assignment lp64 json_element sa.1 sb.1 sb.2).
  - apply sample_ok. by vm_compute.
  - apply sample_ok. by vm_compute.
Defined.

Lemma list_assignment_witness :
  let s := numbers [1; 2; 3] heap_resource world0 in
  let init := [jnum 8; jnum 9] in
  if decide (max_size < Z.of_nat (length init))
  then assign_init init (s.1, s.2) = (Throw length_error, (s.1, s.2))
  else
    on_return (assign_init init (s.1, s.2)) (λ _ s',
      s'.1 = Array (sp_ s.1)
               (if decide (Z.of_nat (length init) = 0) then impl_empty
                else Impl (brk s.2) (Z.of_nat (length init))
                       (Z.max 16 (Z.of_nat (length init)))) ∧
      contents s'.1 s'.2 = Some <$> init ∧
      (∀ p, p < brk s.2 → mem s'.2 !! p =
         if decide (sp_need_free (sp_ s.1) = true ∧ begin_ s.1 ≠ 0 ∧
                    begin_ s.1 ≤ p < begin_ s.1 + array_capacity s.1)
         then None else mem s.2 !! p)) ∧
    on_throw (assign_init init (s.1, s.2)) (λ e s',
      (e = bad_alloc ∨ e = ctor_error) ∧ s'.1 = s.1 ∧
      contents s'.1 s'.2 = contents s.1 s.2 ∧
      (∀ p, p < brk s.2 → mem s'.2 !! p = mem s.2 !! p) ∧
      (sp_need_free (sp_ s.1) = true →
       ∀ p, brk s.2 ≤ p < brk s'.2 → mem s'.2 !! p = None)).
Proof.
  intros s init. apply (@list_assignment lp64 json_element s.1 init s.2).
  apply sample_ok. by vm_compute.
Defined.

Lemma move_assignment_witness :
  let sa := numbers [1; 2; 3] heap_resource world0 in
  let sb := numbers [4; 5] arena_resource sa.2 in
  let w := sb.2 in
  let r := assign_move sa.1 sb.1 w in
  if sp_equal (sp_ sa.1) (sp_ sb.1)
  then r.1 = Ok tt ∧
       r.2.1.1 = set_impl (impl_ sb.1) sa.1 ∧
       r.2.1.2 = set_impl impl_empty sb.1 ∧
       contents r.2.1.1 r.2.2 = contents sb.1 w ∧
       brk r.2.2 = brk w ∧
       (∀ p, mem r.2.2 !! p =
          if decide (sp_need_free (sp_ sa.1) = true ∧ begin_ sa.1 ≠ 0 ∧
                     begin_ sa.1 ≤ p < begin_ sa.1 + array_capacity sa.1)
          then None else mem w !! p)
  else r.2.1.2 = sb.1 ∧
       on_return r (λ _ t,
         t.1.1 = Array (sp_ sa.1)
                   (if decide (array_size sb.1 = 0) then impl_empty
                    else Impl (brk w) (array_size sb.1)
                           (Z.max 16 (array_size sb.1))) ∧
         contents t.1.1 t.2 = contents sb.1 w ∧
         contents sb.1 t.2 = contents sb.1 w ∧
         (∀ p, p < brk w → mem t.2 !! p =
            if decide (sp_need_free (sp_ sa.1) = true ∧ begin_ sa.1 ≠ 0 ∧
                       begin_ sa.1 ≤ p < begin_ sa.1 + array_capacity sa.1)
            then None else mem w !! p)) ∧
       on_throw r (λ e t,
         (e = bad_alloc ∨ e = ctor_error) ∧
         t.1.1 = sa.1 ∧ contents sa.1 t.2 = contents sa.1 w ∧
         contents sb.1 t.2 = contents sb.1 w ∧
         (∀ p, p < brk w → mem t.2 !! p = mem w !! p) ∧
         (sp_need_free (sp_ sa.1) = true →
          ∀ p, brk w ≤ p < brk t.2 → mem t.2 !! p = None)).
Proof.
  intros sa sb w r.
  apply (@move_assignment lp64 json_element sa.1 sb.1 w).
  - apply sample_ok. by vm_compute.
  - apply sample_ok. by vm_compute.
  - right. right. left. by vm_compute.
Defined.

Lemma release_storage_frees_witness :
  let s := numbers [1; 2; 3] heap_resource world0 in
  let r := release_storage (s.1, s.2) in
  r.1 = Ok (sp_ s.1) ∧ impl_ r.2.1 = impl_empty ∧
  r.2.2 = array_dtor s.1 s.2 ∧
  brk r.2.2 = brk s.2 ∧ ctor_plan r.2.2 = ctor_plan s.2 ∧
  alloc_plan r.2.2 = alloc_plan s.2 ∧
  (∀ p, mem r.2.2 !! p =
     if decide (sp_need_free (sp_ s.1) = true ∧ begin_ s.1 ≠ 0 ∧
                begin_ s.1 ≤ p < begin_ s.1 + array_capacity s.1)
     then None else mem s.2 !! p).
Proof.
  intros s. apply (@release_storage_frees lp64 json_element s.1 s.2).
  apply sample_ok. by vm_compute.
Defined.

Lemma swap_twice_witness :
  let sa := numbers [1; 2; 3] heap_resource world0 in
  let sb := numbers [4; 5] arena_resource sa.2 in
  on_return (swap sa.1 sb.1 sb.2) (λ _ t,
    on_return (swap t.1.1 t.1.2 t.2) (λ _ t',
      sp_ t'.1.1 = sp_ sa.1 ∧ sp_ t'.1.2 = sp_ sb.1 ∧
      contents t'.1.1 t'.2 = contents sa.1 sb.2 ∧
      contents t'.1.2 t'.2 = contents sb.1 sb.2)).
Proof.
  intros sa sb. apply (@swap_twice lp64 json_element sa.1 sb.1 sb.2).
  - apply sample_ok. by vm_compute.
  - apply sample_ok. by vm_compute.
Defined.

(** Two elements moved up by one slot, onto the second of them. *)
Lemma memmove_relocation_witness :
  let m := ({[ 1 := jnum 7; 2 := jnum 8 ]} : gmap Z value) in
  (∀ a, 2 ≤ a < 2 + 2 →
        relocate_memmove 2 1 2 m !! a = m !! (a - 2 + 1)) ∧
  (∀ a, ¬ (2 ≤ a < 2 + 2) → ¬ (1 ≤ a < 1 + 2) →
        relocate_memmove 2 1 2 m !! a = m !! a) ∧
  (2 ≠ 1 →
   ∀ a, 2 ≤ a < 2 + 2 ∨ ¬ (1 ≤ a < 1 + 2) →
        relocate 2 1 2 m !! a = relocate_memmove 2 1 2 m !! a).
Proof.
  intros m. apply (@memmove_relocation json_element 2 1 2 m). done.
Defined.

Lemma modifiers_keep_capacity_witness :
  let s := numbers [1; 2; 3] heap_resource world0 in
  let ops := [OpInsert 1 20 (jnum 9); OpErase 0; OpClear; OpResize 2;
              OpPopBack] in
  match run_ops ops s with
  | Some s' => sp_ s'.1 = sp_ s.1 ∧ array_capacity s.1 ≤ array_capacity s'.1
  | None => False
  end.
Proof.
  intros s ops. destruct (run_ops ops s) as [s'|] eqn:E.
  - apply (modifiers_keep_capacity ops s s').
    + apply sample_ok. by vm_compute.
    + done.
    + exact E.
  - vm_compute in E. discriminate E.
Defined.
